(** * L-Store query engine: a shallow embedding of [lstore/query.py]

    The development models the mutable objects that [Query] reads and
    writes (page ranges, base and tail pages, the buffer pool view of each
    page, the page directory, the index) as one explicit state, and the
    methods [insert], [delete], [update], [select_version], [sum] and
    [sum_version] of [Query], with their helpers, as functions in a
    state-and-exception monad.  A Python exception is an explicit outcome
    [Raise]; state changes made before the exception are kept, exactly as
    mutations of Python objects are.

    [query.py] and [db.py] are the sources at hand.  The table, page, index,
    buffer pool and lock manager classes they import are modelled from the
    specification, each under a comment that says so.  [select] and
    [increment] rest on [Table.find_record], which the specification does not
    describe: it is a parameter of their models.  [Database] of [db.py] is
    modelled as the list of its tables. *)

From Stdlib Require Import ZArith String Ascii.
From stdpp Require Import base option list gmap.

Local Open Scope Z_scope.

(** ** Exceptions and the state monad *)

Inductive exn := IndexError | KeyError | ValueError | TypeError | RuntimeError.

Inductive Result (A : Type) :=
| Ok (a : A)
| Raise (e : exn).
Arguments Ok {A} a.
Arguments Raise {A} e.

Definition M (S A : Type) : Type := S -> Result A * S.

Definition ret {S A} (a : A) : M S A := fun s => (Ok a, s).
Definition raise {S A} (e : exn) : M S A := fun s => (Raise e, s).
Definition bind {S A B} (m : M S A) (k : A -> M S B) : M S B :=
  fun s => match m s with
           | (Ok a, s') => k a s'
           | (Raise e, s') => (Raise e, s')
           end.
Definition get {S} : M S S := fun s => (Ok s, s).
Definition gets {S A} (f : S -> A) : M S A := fun s => (Ok (f s), s).
Definition modify {S} (f : S -> S) : M S unit := fun s => (Ok tt, f s).

(** [try: m except Exception: h] *)
Definition try_except {S A} (m : M S A) (h : exn -> M S A) : M S A :=
  fun s => match m s with
           | (Ok a, s') => (Ok a, s')
           | (Raise e, s') => h e s'
           end.

(** [try: m finally: f] *)
Definition try_finally {S A} (m : M S A) (f : M S unit) : M S A :=
  fun s => match m s with
           | (Ok a, s') => match f s' with
                           | (Ok _, s'') => (Ok a, s'')
                           | (Raise e, s'') => (Raise e, s'')
                           end
           | (Raise e, s') => match f s' with
                              | (Ok _, s'') => (Raise e, s'')
                              | (Raise e', s'') => (Raise e', s'')
                              end
           end.

(** Python subscripting [l[i]] and dictionary lookup [d[k]]. *)
Definition of_option {S A} (e : exn) (o : option A) : M S A :=
  match o with
  | Some a => ret a
  | None => raise e
  end.

Declare Scope py_scope.
Delimit Scope py_scope with py.
Notation "x <- m ;; k" := (bind m (fun x => k))
  (at level 100, m at next level, right associativity) : py_scope.
Notation "m ;;; k" := (bind m (fun _ => k))
  (at level 100, right associativity) : py_scope.
Local Open Scope py_scope.

(** ** Data model *)

(** The fourth component of a RID: ['b'] or ['t']. *)
Inductive page_type := base | tail.

Global Instance page_type_eq_dec : EqDecision page_type.
Proof. solve_decision. Defined.

Global Instance page_type_countable : Countable page_type.
Proof.
  refine (inj_countable' (fun k => match k with base => true | tail => false end)
                         (fun b : bool => if b then base else tail) _).
  by intros [].
Defined.

(** [(page_range_idx, page_idx, record_idx, page_type)] *)
Definition RID : Type := nat * nat * nat * page_type.

(** The buffer pool key [("base"|"tail", page_range_idx, page_idx)]. *)
Definition PageId : Type := page_type * nat * nat.

(** A slot of an [indirection] vector: [None], the tombstone [["empty"]]
    written by [delete], or the RID of another version.  RIDs are tuples
    throughout: the list form the source converts from only comes out of
    deserialisation, which is outside this model. *)
Inductive Indirection :=
| INone
| IEmpty
| IRid (r : RID).

Global Instance Indirection_eq_dec : EqDecision Indirection.
Proof. solve_decision. Defined.

(** [lstore.table.Record].  [rec_rid] holds whatever value the caller
    passed as [rid]: a RID tuple, or, in one corner of [select_version], the
    [["empty"]] marker that [_safely_get_historical_version] can return. *)
Record Record_ := mkRecord {
  rec_rid : Indirection;
  rec_key : Z;
  rec_columns : list Z;
}.

Global Instance Record_eq_dec : EqDecision Record_.
Proof. solve_decision. Defined.

(** The page data dictionary the buffer pool hands out.  The keys are
    [columns], [rid], [timestamp], [schema_encoding], [indirection]. *)
Record PageData := mkPageData {
  columns : list (list Z);
  d_rid : list RID;
  timestamp : list string;
  d_schema_encoding : list string;
  d_indirection : list Indirection;
}.

(** Modelled from the spec: the physical page class is absent from the
    sources.  An append-only column chunk with a record counter. *)
Record PhysicalPage := mkPhysicalPage {
  data : list Z;
  pp_num_records : nat;
}.

(** Modelled from the spec: the base/tail page class is absent from the
    sources; the attribute names are the ones [query.py] uses
    ([pages], [indirection], [rid], [start_time], [schema_encoding],
    [num_records]). *)
Record Page := mkPage {
  pages : list PhysicalPage;
  indirection : list Indirection;
  rid : list RID;
  start_time : list string;
  schema_encoding : list string;
  num_records : nat;
}.

(** Modelled from the spec: the page range class is absent from the
    sources; [query.py] uses [base_pages], [tail_pages], [add_tail_page]. *)
Record PageRange := mkPageRange {
  base_pages : list Page;
  tail_pages : list Page;
}.

(** Modelled from the spec: the buffer pool class is absent from the
    sources.  A page-id keyed cache of page data with pin counts; this is
    the slice of the pool that belongs to one table name. *)
Record BufferPool := mkBufferPool {
  frames : gmap PageId PageData;
  pin_counts : gmap PageId Z;
}.

(** Modelled from the spec: the index class is absent from the sources.
    [indices] maps a column to its value -> RIDs map; the RIDs of a value
    are kept duplicate free in insertion order. *)
Record Index := mkIndex {
  indices : gmap nat (gmap Z (list RID));
}.

Inductive LockMode := LRead | LInsert | LUpdate | LDelete.

(** The parts of the repository the query engine is linked against and
    whose code is not part of the sources: the configuration constants and
    the lock manager. *)
Class Env := {
  MERGE_THRESHOLD : Z;
  PAGE_CAPACITY : nat;
  RANGE_BASE_PAGES : nat;
  LockManager : Type;
  acquire_lock : LockManager -> nat -> Z -> LockMode -> bool * LockManager;
}.

Section Engine.
Context {env : Env}.

(** [lstore.table.Table], together with the buffer pool and lock manager
    that [query.py] reaches through [table.database].  [page_directory] is a
    Python dict: an association list in insertion order, because
    [select_version] iterates over [items()] and stops at the first match. *)
Record Table := mkTable {
  name : string;
  key : nat;
  num_columns : nat;
  page_ranges : list PageRange;
  page_directory : list (RID * Record_);
  index : Index;
  merge_counter : Z;
  merge_scheduled : bool;
  bufferpool : BufferPool;
  lock_manager : LockManager;
}.

Record Transaction := mkTransaction {
  transaction_id : nat;
  locks_held : list Z;
}.

(** The [Query] object: its table and its optional transaction. *)
Record Query := mkQuery {
  table : Table;
  transaction : option Transaction;
}.

Definition TM := M Table.
Definition QM := M Query.

(** *** Field updates *)

Definition set_page_ranges (v : list PageRange) (tb : Table) : Table :=
  mkTable (name tb) (key tb) (num_columns tb) v (page_directory tb) (index tb)
          (merge_counter tb) (merge_scheduled tb) (bufferpool tb) (lock_manager tb).
Definition set_page_directory (v : list (RID * Record_)) (tb : Table) : Table :=
  mkTable (name tb) (key tb) (num_columns tb) (page_ranges tb) v (index tb)
          (merge_counter tb) (merge_scheduled tb) (bufferpool tb) (lock_manager tb).
Definition set_index (v : Index) (tb : Table) : Table :=
  mkTable (name tb) (key tb) (num_columns tb) (page_ranges tb) (page_directory tb) v
          (merge_counter tb) (merge_scheduled tb) (bufferpool tb) (lock_manager tb).
Definition set_merge_counter (v : Z) (tb : Table) : Table :=
  mkTable (name tb) (key tb) (num_columns tb) (page_ranges tb) (page_directory tb) (index tb)
          v (merge_scheduled tb) (bufferpool tb) (lock_manager tb).
Definition set_merge_scheduled (v : bool) (tb : Table) : Table :=
  mkTable (name tb) (key tb) (num_columns tb) (page_ranges tb) (page_directory tb) (index tb)
          (merge_counter tb) v (bufferpool tb) (lock_manager tb).
Definition set_bufferpool (v : BufferPool) (tb : Table) : Table :=
  mkTable (name tb) (key tb) (num_columns tb) (page_ranges tb) (page_directory tb) (index tb)
          (merge_counter tb) (merge_scheduled tb) v (lock_manager tb).
Definition set_lock_manager (v : LockManager) (tb : Table) : Table :=
  mkTable (name tb) (key tb) (num_columns tb) (page_ranges tb) (page_directory tb) (index tb)
          (merge_counter tb) (merge_scheduled tb) (bufferpool tb) v.

(** Run a table computation inside the query. *)
Definition lift {A} (m : TM A) : QM A :=
  fun q => match m (table q) with
           | (r, tb) => (r, mkQuery tb (transaction q))
           end.

(** *** Python dict with insertion order *)

Fixpoint dict_get {V} (d : list (RID * V)) (k : RID) : option V :=
  match d with
  | [] => None
  | (k', v) :: d' => if decide (k' = k) then Some v else dict_get d' k
  end.

(** [d[k] = v]: an existing key keeps its position, a new key goes last. *)
Fixpoint dict_set {V} (d : list (RID * V)) (k : RID) (v : V) : list (RID * V) :=
  match d with
  | [] => [(k, v)]
  | (k', v') :: d' =>
      if decide (k' = k) then (k, v) :: d' else (k', v') :: dict_set d' k v
  end.

(** [del d[k]] *)
Definition dict_del {V} (d : list (RID * V)) (k : RID) : list (RID * V) :=
  filter (fun e => e.1 ≠ k) d.

(** *** Buffer pool *)

Definition empty_page_data (n : nat) : PageData :=
  mkPageData (replicate n []) [] [] [] [].

Definition pin_count (bp : BufferPool) (id : PageId) : Z :=
  default 0 (pin_counts bp !! id).

(** Modelled from the spec: [BufferPool.get_page] returns the page data
    of [id] (a page never installed reads as an empty page with
    [num_columns] column lists) and increments the pin count.  The returned
    dictionary is a snapshot: changes reach the pool through [set_page].
    [update] appends to the dictionary it was handed and calls [set_page] at
    its end, so under a pool that hands out its own dictionary the appends of
    an [update] that fails later would already be in the pool, whereas in
    this model a failed [update] leaves the frames as they were. *)
Definition get_page (id : PageId) : TM PageData :=
  fun tb =>
    let bp := bufferpool tb in
    (Ok (default (empty_page_data (num_columns tb)) (frames bp !! id)),
     set_bufferpool
       (mkBufferPool (frames bp) (<[id := pin_count bp id + 1]> (pin_counts bp))) tb).

(** Modelled from the spec: [BufferPool.unpin_page] decrements the pin
    count. *)
Definition unpin_page (id : PageId) : TM unit :=
  modify (fun tb =>
    let bp := bufferpool tb in
    set_bufferpool
      (mkBufferPool (frames bp) (<[id := pin_count bp id - 1]> (pin_counts bp))) tb).

(** Modelled from the spec: [BufferPool.set_page] installs a snapshot. *)
Definition set_page (id : PageId) (pd : PageData) : TM unit :=
  modify (fun tb =>
    let bp := bufferpool tb in
    set_bufferpool (mkBufferPool (<[id := pd]> (frames bp)) (pin_counts bp)) tb).

(** *** Pages and page ranges *)

(** Modelled from the spec: [PhysicalPage.has_capacity]. *)
Definition pp_has_capacity (pp : PhysicalPage) : bool :=
  bool_decide (pp_num_records pp < PAGE_CAPACITY)%nat.

(** Modelled from the spec: [PhysicalPage.write] appends and fails when
    the page is full. *)
Definition pp_write (v : Z) (pp : PhysicalPage) : option PhysicalPage :=
  if pp_has_capacity pp
  then Some (mkPhysicalPage (data pp ++ [v]) (S (pp_num_records pp)))
  else None.

(** Modelled from the spec: [PhysicalPage.read(slot, 1)[0]]. *)
Definition pp_read (pp : PhysicalPage) (slot : nat) : option Z :=
  data pp !! slot.

(** Modelled from the spec: a page's [has_capacity] is the one of its
    first column. *)
Definition has_capacity (p : Page) : option bool :=
  pp_has_capacity <$> pages p !! 0%nat.

Definition new_page (n : nat) : Page :=
  mkPage (replicate n (mkPhysicalPage [] 0)) [] [] [] [] 0.

(** Modelled from the spec: [PageRange.add_tail_page]. *)
Definition add_tail_page (n : nat) (pr : PageRange) : PageRange :=
  mkPageRange (base_pages pr) (tail_pages pr ++ [new_page n]).

(** Modelled from the spec: [PageRange.has_base_capacity]: the last base
    page has capacity and there are fewer than [RANGE_BASE_PAGES] of them. *)
Definition has_base_capacity (pr : PageRange) : bool :=
  match last (base_pages pr) ≫= has_capacity with
  | Some c => c && bool_decide (length (base_pages pr) < RANGE_BASE_PAGES)%nat
  | None => false
  end.

(** *** Index *)

(** Modelled from the spec: [Index.locate(column, value)]. *)
Definition locate (ix : Index) (col : nat) (value : Z) : list RID :=
  match indices ix !! col with
  | Some m => default [] (m !! value)
  | None => []
  end.

(** Modelled from the spec: [Index.locate_range(lo, hi, column)]. *)
Definition locate_range (ix : Index) (lo hi : Z) (col : nat) : list RID :=
  match indices ix !! col with
  | Some m =>
      concat (snd <$> filter (fun e : Z * list RID => lo <= e.1 /\ e.1 <= hi) (map_to_list m))
  | None => []
  end.

Definition index_insert_col (col : nat) (value : Z) (r : RID) (ix : Index) : Index :=
  match indices ix !! col with
  | Some m =>
      let old := default [] (m !! value) in
      mkIndex (<[col := <[value := if decide (r ∈ old) then old else old ++ [r]]> m]>
                 (indices ix))
  | None => ix
  end.

Definition index_delete_col (col : nat) (value : Z) (r : RID) (ix : Index) : Index :=
  match indices ix !! col with
  | Some m =>
      match m !! value with
      | Some old =>
          mkIndex (<[col := <[value := filter (fun r' => r' ≠ r) old]> m]> (indices ix))
      | None => ix
      end
  | None => ix
  end.

(** Modelled from the spec: [Index.insert(value, rid)] and
    [Index.delete(value, rid)], as [query.py] calls them, act on the key
    column. *)
Definition index_insert (value : Z) (r : RID) : TM unit :=
  modify (fun tb => set_index (index_insert_col (key tb) value r (index tb)) tb).

Definition index_delete (value : Z) (r : RID) : TM unit :=
  modify (fun tb => set_index (index_delete_col (key tb) value r (index tb)) tb).

Definition create_index (col : nat) (ix : Index) : Index :=
  mkIndex (<[col := ∅]> (indices ix)).

(** *** In-place changes of the objects reachable from [table.page_ranges] *)

Definition modify_page_range (i : nat) (f : PageRange -> PageRange) : TM unit :=
  modify (fun tb => set_page_ranges (alter f i (page_ranges tb)) tb).

Definition modify_base_page (i j : nat) (f : Page -> Page) : TM unit :=
  modify_page_range i (fun pr => mkPageRange (alter f j (base_pages pr)) (tail_pages pr)).

Definition modify_tail_page (i j : nat) (f : Page -> Page) : TM unit :=
  modify_page_range i (fun pr => mkPageRange (base_pages pr) (alter f j (tail_pages pr))).


(** *** [Table.insert_record] *)

(** Write one value per column into the physical pages of a page object;
    fails when the widths differ or a column is full. *)
Fixpoint write_columns (pps : list PhysicalPage) (vs : list Z) : option (list PhysicalPage) :=
  match pps, vs with
  | [], [] => Some []
  | pp :: pps', v :: vs' =>
      pp' ← pp_write v pp; rest ← write_columns pps' vs'; Some (pp' :: rest)
  | _, _ => None
  end.

(** Modelled from the spec: the page's [append(columns, rid, timestamp,
    schema, indirection)]. *)
Definition page_append (cols : list Z) (r : RID) (ts sch : string) (ind : Indirection)
    (p : Page) : option Page :=
  pps ← write_columns (pages p) cols;
  Some (mkPage pps (indirection p ++ [ind]) (rid p ++ [r]) (start_time p ++ [ts])
               (schema_encoding p ++ [sch]) (S (num_records p))).

Fixpoint append_columns (cs : list (list Z)) (vs : list Z) : option (list (list Z)) :=
  match cs, vs with
  | [], [] => Some []
  | c :: cs', v :: vs' => rest ← append_columns cs' vs'; Some ((c ++ [v]) :: rest)
  | _, _ => None
  end.

(** Modelled from the spec: [Table.insert_record(timestamp, schema,
    *columns)], steps 1 to 6 of its description.  A fresh page range starts
    with one empty base page; the target is the last base page of the last
    range.  Any failure is reported as [False]. *)
Definition insert_record (ts sch : string) (cols : list Z) : TM bool :=
  try_except
    (tb <- get ;;
     (match last (page_ranges tb) with
      | Some pr =>
          if has_base_capacity pr then ret tt
          else modify (set_page_ranges
                 (page_ranges tb ++ [mkPageRange [new_page (num_columns tb)] []]))
      | None =>
          modify (set_page_ranges
                 (page_ranges tb ++ [mkPageRange [new_page (num_columns tb)] []]))
      end) ;;;
     tb <- get ;;
     let pr := pred (length (page_ranges tb)) in
     page_range <- of_option IndexError (page_ranges tb !! pr) ;;
     let bp := pred (length (base_pages page_range)) in
     page <- of_option IndexError (base_pages page_range !! bp) ;;
     let slot := num_records page in
     let r : RID := (pr, bp, slot, base) in
     key_value <- of_option IndexError (cols !! key tb) ;;
     page' <- of_option RuntimeError (page_append cols r ts sch INone page) ;;
     pd <- get_page (base, pr, bp) ;;
     cs <- of_option IndexError (append_columns (columns pd) cols) ;;
     modify_base_page pr bp (fun _ => page') ;;;
     set_page (base, pr, bp)
       (mkPageData cs (d_rid pd ++ [r]) (timestamp pd ++ [ts])
                   (d_schema_encoding pd ++ [sch]) (d_indirection pd ++ [INone])) ;;;
     unpin_page (base, pr, bp) ;;;
     modify (fun tb => set_page_directory
               (dict_set (page_directory tb) r (mkRecord (IRid r) key_value cols)) tb) ;;;
     modify (fun tb => set_index
               (foldr (fun '(c, v) ix => index_insert_col c v r ix) (index tb)
                      (imap (fun c v => (c, v)) cols)) tb) ;;;
     ret true)
    (fun _ => ret false).

(** ** [Query] *)

(** The lock step every mutator starts with:
    [if self.transaction and self.lock_manager: if not acquire_lock(...):
    return False; self.transaction.locks_held.add(key)]. *)
Definition lock_guard (k : Z) (mode : LockMode) (q : Query) : bool * Query :=
  match transaction q with
  | None => (true, q)
  | Some tx =>
      match acquire_lock (lock_manager (table q)) (transaction_id tx) k mode with
      | (true, lm) =>
          (true, mkQuery (set_lock_manager lm (table q))
                         (Some (mkTransaction (transaction_id tx)
                                  (if decide (k ∈ locks_held tx) then locks_held tx
                                   else locks_held tx ++ [k]))))
      | (false, lm) => (false, mkQuery (set_lock_manager lm (table q)) (Some tx))
      end
  end.

(** [Query._get_latest_version]: one hop from the base page's indirection
    slot.  The page id is always built with ["base"]. *)
Definition _get_latest_version (r : RID) : TM RID :=
  let '(page_range_idx, page_idx, record_idx, _) := r in
  let base_page_id : PageId := (base, page_range_idx, page_idx) in
  try_finally
    (try_except
       (base_page_data <- get_page base_page_id ;;
        let indirections := d_indirection base_page_data in
        match indirections !! record_idx with
        | Some (IRid temp) => ret temp
        | Some INone | Some IEmpty => ret r
        | None => ret r
        end)
       (fun _ => ret r))
    (unpin_page base_page_id).

(** The loop of [Query._safely_get_latest_version]; [None] stands for
    leaving the [while] because [iterations] reached [max_iterations]. *)
Fixpoint latest_loop (max_iterations : nat) (current : RID) (visited : list RID)
    : TM (option RID) :=
  match max_iterations with
  | O => ret None
  | S n =>
      let '(page_range_idx, page_idx, record_idx, page_type) := current in
      let page_id : PageId := (page_type, page_range_idx, page_idx) in
      page_data <- get_page page_id ;;
      let indirections := d_indirection page_data in
      match indirections !! record_idx with
      | None | Some INone | Some IEmpty =>
          unpin_page page_id ;;; ret (Some current)
      | Some (IRid next_rid) =>
          if decide (next_rid ∈ visited)
          then unpin_page page_id ;;; ret (Some current)
          else unpin_page page_id ;;; latest_loop n next_rid (next_rid :: visited)
      end
  end.

(** [Query._safely_get_latest_version] *)
Definition _safely_get_latest_version (r : RID) : TM RID :=
  try_except
    (res <- latest_loop 1000 r [r] ;;
     match res with
     | Some current => ret current
     | None => ret r
     end)
    (fun _ => ret r).

(** The [while steps_taken < steps_back] loop of
    [Query._safely_get_historical_version].  [remaining] is
    [steps_back - steps_taken]; the result is the value of [remaining] and of
    [current] when the loop is left.  [current] is a Python value taken from
    an indirection vector, so it can be the [["empty"]] marker, whose
    unpacking raises. *)
Fixpoint historical_loop (tb : Table) (base_rid : RID) (remaining : nat)
    (current : Indirection) (visited : list Indirection) : Result (nat * Indirection) :=
  match remaining with
  | O => Ok (O, current)
  | S n =>
      if decide (current = IRid base_rid) then Ok (remaining, current)
      else
        match current with
        | IRid (c_range_idx, c_page_idx, c_record_idx, c_page_type) =>
            match page_ranges tb !! c_range_idx with
            | None => Ok (remaining, current)
            | Some c_range =>
                match (match c_page_type with
                       | base => base_pages c_range
                       | tail => tail_pages c_range
                       end) !! c_page_idx with
                | None => Ok (remaining, current)
                | Some c_page =>
                    match indirection c_page !! c_record_idx with
                    | None => Ok (remaining, current)
                    | Some prev =>
                        if decide (prev = current \/ prev = INone)
                        then Ok (remaining, current)
                        else if decide (prev ∈ visited) then Ok (remaining, current)
                        else historical_loop tb base_rid n prev (prev :: visited)
                    end
                end
            end
        | IEmpty => Raise ValueError
        | INone => Raise TypeError
        end
  end.

(** [Query._safely_get_historical_version] *)
Definition _safely_get_historical_version (current_rid base_rid : RID) (steps_back : nat)
    : TM Indirection :=
  match steps_back with
  | O => ret (IRid current_rid)
  | _ =>
      try_except
        (tb <- get ;;
         match historical_loop tb base_rid steps_back (IRid current_rid) [IRid current_rid] with
         | Ok (remaining, current) =>
             if decide (0 < remaining)%nat then ret (IRid base_rid) else ret current
         | Raise e => raise e
         end)
        (fun _ => ret (IRid base_rid))
  end.

(** Tuple unpacking [a, b, c, d = rid] of a value that may not be a RID. *)
Definition unpack_rid (v : Indirection) : TM RID :=
  match v with
  | IRid r => ret r
  | IEmpty => raise ValueError
  | INone => raise TypeError
  end.

(** [Query._get_column_value]: the class defines it twice and the second
    definition, which returns the stored value or [None], is the one in
    effect. *)
Definition _get_column_value (r : RID) (column_index : nat) : TM (option Z) :=
  let '(page_range_idx, page_idx, record_idx, page_type) := r in
  let is_base := bool_decide (page_type = base) in
  try_except
    (let page_identifier : PageId :=
       (if is_base then base else tail, page_range_idx, page_idx) in
     page_data <- get_page page_identifier ;;
     match columns page_data !! column_index ≫= (fun c => c !! record_idx) with
     | Some value => unpin_page page_identifier ;;; ret (Some value)
     | None =>
         unpin_page page_identifier ;;;
         tb <- get ;;
         page_range <- of_option IndexError (page_ranges tb !! page_range_idx) ;;
         page <- of_option IndexError
                   ((if is_base then base_pages page_range else tail_pages page_range)
                      !! page_idx) ;;
         match pages page !! column_index with
         | Some pp =>
             if decide (record_idx < pp_num_records pp)%nat
             then value <- of_option IndexError (pp_read pp record_idx) ;; ret (Some value)
             else ret None
         | None => ret None
         end
     end)
    (fun _ => ret None).


(** *** [select_version] *)

(** [for i, flag in enumerate(projection): if flag == 1:
      value = self._get_column_value(rid, i);
      projected_values.append(int(value) if value is not None else 0)] *)
Fixpoint read_projection (target : Indirection) (i : nat) (flags : list Z) : TM (list Z) :=
  match flags with
  | [] => ret []
  | flag :: flags' =>
      if decide (flag = 1)
      then r <- unpack_rid target ;;
           value <- _get_column_value r i ;;
           rest <- read_projection target (S i) flags' ;;
           ret (default 0 value :: rest)
      else read_projection target (S i) flags'
  end.

(** [[latest_record.columns[i] if flag == 1 else None for i, flag in
    enumerate(projection)]] with the [None]s filtered out afterwards. *)
Fixpoint project_record (cols : list Z) (i : nat) (flags : list Z) : Result (list Z) :=
  match flags with
  | [] => Ok []
  | flag :: flags' =>
      if decide (flag = 1)
      then match cols !! i with
           | Some v => match project_record cols (S i) flags' with
                       | Ok rest => Ok (v :: rest)
                       | Raise e => Raise e
                       end
           | None => Raise IndexError
           end
      else project_record cols (S i) flags'
  end.

(** [for prid, record in page_directory.items():
      if record.key == search_key and prid[3] == 't': ... break] *)
Definition find_tail_record (d : list (RID * Record_)) (search_key : Z)
    : option (RID * Record_) :=
  List.find (fun e => bool_decide (rec_key e.2 = search_key) && bool_decide (e.1.2 = tail)) d.

(** The [except] branch of [select_version]. *)
Fixpoint fallback_values (search_key : Z) (search_key_index : nat) (i : nat) (flags : list Z)
    : list Z :=
  match flags with
  | [] => []
  | flag :: flags' =>
      if decide (flag = 1)
      then (if decide (i = search_key_index) then search_key else 0)
             :: fallback_values search_key search_key_index (S i) flags'
      else fallback_values search_key search_key_index (S i) flags'
  end.

(** The body of the [try] block of [select_version]; every branch ends by
    appending one record to [result]. *)
Definition select_version_try (base_rid : RID) (search_key : Z)
    (projected_columns_index : list Z) (relative_version : Z) : TM Record_ :=
  if decide (relative_version = -1) then
    tb <- get ;;
    match dict_get (page_directory tb) base_rid with
    | Some record => ret record
    | None =>
        projected_values <- read_projection (IRid base_rid) 0 projected_columns_index ;;
        ret (mkRecord (IRid base_rid) search_key projected_values)
    end
  else if decide (relative_version = 0) then
    target_rid <- _safely_get_latest_version base_rid ;;
    tb <- get ;;
    match find_tail_record (page_directory tb) search_key with
    | Some (prid, latest_record) =>
        projected_values <-
          (fun s => (project_record (rec_columns latest_record) 0 projected_columns_index, s)) ;;
        ret (mkRecord (IRid prid) search_key projected_values)
    | None =>
        projected_values <- read_projection (IRid target_rid) 0 projected_columns_index ;;
        ret (mkRecord (IRid target_rid) search_key projected_values)
    end
  else
    latest_rid <- _safely_get_latest_version base_rid ;;
    target_rid <- (if decide (latest_rid ≠ base_rid)
                   then _safely_get_historical_version latest_rid base_rid
                          (Z.abs_nat relative_version)
                   else ret (IRid base_rid)) ;;
    projected_values <- read_projection target_rid 0 projected_columns_index ;;
    ret (mkRecord target_rid search_key projected_values).

(** [Query.select_version] *)
Definition select_version (search_key : Z) (search_key_index : nat)
    (projected_columns_index : list Z) (relative_version : Z) : QM (list Record_) :=
  lift
    (tb <- get ;;
     let rids := locate (index tb) search_key_index search_key in
     match rids with
     | [] => ret []
     | first_rid :: _ =>
         let base_rids := filter (fun r : RID => r.2 = base) rids in
         let base_rid := match base_rids with
                         | b :: _ => b
                         | [] => first_rid
                         end in
         try_except
           (record <- select_version_try base_rid search_key projected_columns_index
                        relative_version ;;
            ret [record])
           (fun _ =>
              ret [mkRecord (IRid base_rid) search_key
                     (fallback_values search_key search_key_index 0 projected_columns_index)])
     end).

(** *** [delete] *)

Definition delete_try (primary_key : Z) (r : RID) : TM bool :=
  let '(page_range_idx, page_idx, record_idx, _) := r in
  tb <- get ;;
  match page_ranges tb !! page_range_idx ≫= (fun pr => base_pages pr !! page_idx) with
  | None => ret false
  | Some base_page =>
      if decide (length (indirection base_page) <= record_idx)%nat then
        match dict_get (page_directory tb) r with
        | Some _ =>
            modify (fun tb => set_page_directory (dict_del (page_directory tb) r) tb) ;;;
            ret true
        | None => ret false
        end
      else
        modify_base_page page_range_idx page_idx
          (fun p => mkPage (pages p) (<[record_idx := IEmpty]> (indirection p)) (rid p)
                           (start_time p) (schema_encoding p) (num_records p)) ;;;
        (match dict_get (page_directory tb) r with
         | Some _ => modify (fun tb => set_page_directory (dict_del (page_directory tb) r) tb)
         | None => ret tt
         end) ;;;
        index_delete primary_key r ;;;
        ret true
  end.

(** [Query.delete] *)
Definition delete (primary_key : Z) : QM bool :=
  fun q =>
    match locate (index (table q)) (key (table q)) primary_key with
    | [] => (Ok false, q)
    | r :: _ =>
        match lock_guard primary_key LDelete q with
        | (false, q') => (Ok false, q')
        | (true, q') => lift (try_except (delete_try primary_key r) (fun _ => ret false)) q'
        end
    end.

(** *** [insert] *)

(** [Query.insert].  [now] is the value of
    [datetime.now().strftime("%Y%m%d%H%M%S")].  The subscript
    [columns[self.table.key]] is evaluated before the [try] block. *)
Definition insert (now : string) (cols : list Z) : QM bool :=
  fun q =>
    match cols !! key (table q) with
    | None => (Raise IndexError, q)
    | Some k =>
        match lock_guard k LInsert q with
        | (false, q') => (Ok false, q')
        | (true, q') =>
            match locate (index (table q')) (key (table q')) k with
            | _ :: _ => (Ok false, q')
            | [] =>
                let schema_encoding :=
                  string_of_list_ascii (replicate (num_columns (table q')) "0"%char) in
                lift (try_except (insert_record now schema_encoding cols)
                                 (fun _ => ret false)) q'
            end
        end
    end.


(** *** [update] *)

(** [schema = ["0"] * n; for i, col in enumerate(columns): if col is not
    None: schema[i] = "1"]; the assignment raises when [i] is out of range. *)
Fixpoint schema_loop (i : nat) (cols : list (option Z)) (schema : list ascii)
    : option (list ascii) :=
  match cols with
  | [] => Some schema
  | None :: cols' => schema_loop (S i) cols' schema
  | Some _ :: cols' =>
      if decide (i < length schema)%nat
      then schema_loop (S i) cols' (<[i := "1"%char]> schema)
      else None
  end.

(** The loop that builds [tail_page_columns]. *)
Definition build_tail_columns (n key_col : nat) (original_key : Z) (cols : list (option Z))
    (current_record : Record_) : list Z :=
  (fun i =>
     if decide (i = key_col) then original_key
     else match cols !! i with
          | Some (Some v) => v
          | _ => default 0 (rec_columns current_record !! i)
          end) <$> seq 0 n.

(** [for i, value in enumerate(tail_page_columns):
      tail_page_data["columns"][i].append(value)
      tail_page.pages[i].write(value)]
    The first line changes the local snapshot, the second the page object
    of the table. *)
Fixpoint write_tail_columns (page_range_idx tail_page_idx : nat) (i : nat)
    (values : list Z) (td_columns : list (list Z)) : TM (list (list Z)) :=
  match values with
  | [] => ret td_columns
  | value :: values' =>
      c <- of_option IndexError (td_columns !! i) ;;
      let td_columns' := <[i := c ++ [value]]> td_columns in
      tb <- get ;;
      tail_page <- of_option IndexError
                     (page_ranges tb !! page_range_idx ≫=
                        (fun pr => tail_pages pr !! tail_page_idx)) ;;
      pp <- of_option IndexError (pages tail_page !! i) ;;
      pp' <- of_option RuntimeError (pp_write value pp) ;;
      modify_tail_page page_range_idx tail_page_idx
        (fun p => mkPage (<[i := pp']> (pages p)) (indirection p) (rid p)
                         (start_time p) (schema_encoding p) (num_records p)) ;;;
      write_tail_columns page_range_idx tail_page_idx (S i) values' td_columns'
  end.

(** Modelled from the spec: [Table.trigger_merge] schedules the
    background consolidation; the merge itself is outside the query path. *)
Definition trigger_merge : TM unit :=
  modify (set_merge_scheduled true).

(** [if not page_range.tail_pages or not page_range.tail_pages[-1]
    .has_capacity(): page_range.add_tail_page(self.table.num_columns)] *)
Definition ensure_tail_page (page_range_idx : nat) (page_range : PageRange) : TM unit :=
  needs_page <- (match last (tail_pages page_range) with
                 | None => ret true
                 | Some p => c <- of_option IndexError (has_capacity p) ;; ret (negb c)
                 end) ;;
  if needs_page : bool
  then n <- gets num_columns ;; modify_page_range page_range_idx (add_tail_page n)
  else ret tt.

(** The [if new_key != primary_key:] block of [Query.update]. *)
Definition update_key_change (primary_key new_key : Z) (latest_rid tail_rid : RID)
    : TM unit :=
  if decide (new_key ≠ primary_key) then
    tb <- get ;;
    (match dict_get (page_directory tb) latest_rid with
     | Some _ =>
         modify (fun tb => set_page_directory (dict_del (page_directory tb) latest_rid) tb)
     | None => ret tt
     end) ;;;
    (match indices (index tb) !! key tb with
     | Some _ => index_delete primary_key latest_rid ;;; index_insert new_key tail_rid
     | None => ret tt
     end)
  else ret tt.

(** [self.table.merge_counter += 1; if self.table.merge_counter >=
    MERGE_THRESHOLD: self.table.merge_counter = 0; self.table.trigger_merge()] *)
Definition count_update : TM unit :=
  modify (fun tb => set_merge_counter (merge_counter tb + 1) tb) ;;;
  tb <- get ;;
  if decide (MERGE_THRESHOLD <= merge_counter tb)
  then modify (set_merge_counter 0) ;;; trigger_merge
  else ret tt.

(** The body of the [try] block of [Query.update]. *)
Definition update_try (now : string) (primary_key : Z) (cols : list (option Z))
    (base_rid : RID) : TM bool :=
  let '(page_range_idx, page_idx, record_idx, _) := base_rid in
  tb <- get ;;
  page_range <- of_option IndexError (page_ranges tb !! page_range_idx) ;;
  let base_page_id : PageId := (base, page_range_idx, page_idx) in
  base_page_data <- get_page base_page_id ;;
  latest_rid <- _get_latest_version base_rid ;;
  base_record <- of_option KeyError (dict_get (page_directory tb) base_rid) ;;
  let current_record := default base_record (dict_get (page_directory tb) latest_rid) in
  ensure_tail_page page_range_idx page_range ;;;
  tb1 <- get ;;
  page_range <- of_option IndexError (page_ranges tb1 !! page_range_idx) ;;
  let tail_page_idx := pred (length (tail_pages page_range)) in
  let tail_page_id : PageId := (tail, page_range_idx, tail_page_idx) in
  tail_page_data <- get_page tail_page_id ;;
  schema <- of_option IndexError
              (schema_loop 0 cols (replicate (num_columns tb) "0"%char)) ;;
  let schema_str := string_of_list_ascii schema in
  let tail_rid : RID :=
    (page_range_idx, tail_page_idx, length (d_rid tail_page_data), tail) in
  original_key <- of_option IndexError (rec_columns base_record !! key tb) ;;
  let tail_page_columns :=
    build_tail_columns (num_columns tb) (key tb) original_key cols current_record in
  td_columns <- write_tail_columns page_range_idx tail_page_idx 0 tail_page_columns
                  (columns tail_page_data) ;;
  let tail_page_data' :=
    mkPageData td_columns
               (d_rid tail_page_data ++ [tail_rid])
               (timestamp tail_page_data ++ [now])
               (d_schema_encoding tail_page_data ++ [schema_str])
               (d_indirection tail_page_data ++ [IRid latest_rid]) in
  modify_tail_page page_range_idx tail_page_idx
    (fun p => mkPage (pages p) (indirection p ++ [IRid latest_rid]) (rid p ++ [tail_rid])
                     (start_time p ++ [now]) (schema_encoding p ++ [schema_str])
                     (S (num_records p))) ;;;
  (if decide (record_idx < length (d_indirection base_page_data))%nat
   then ret tt else raise IndexError) ;;;
  let base_page_data' :=
    mkPageData (columns base_page_data) (d_rid base_page_data) (timestamp base_page_data)
               (d_schema_encoding base_page_data)
               (<[record_idx := IRid tail_rid]> (d_indirection base_page_data)) in
  set_page base_page_id base_page_data' ;;;
  set_page tail_page_id tail_page_data' ;;;
  let new_key := match cols !! key tb with
                 | Some (Some v) => if decide (v ≠ primary_key) then v else primary_key
                 | _ => primary_key
                 end in
  let new_record := mkRecord (IRid tail_rid) primary_key tail_page_columns in
  modify (fun tb => set_page_directory (dict_set (page_directory tb) tail_rid new_record) tb) ;;;
  update_key_change primary_key new_key latest_rid tail_rid ;;;
  unpin_page tail_page_id ;;;
  unpin_page base_page_id ;;;
  count_update ;;;
  ret true.

(** [Query.update].  [now] is the value of
    [datetime.now().strftime("%Y%m%d%H%M%S")]. *)
Definition update (now : string) (primary_key : Z) (cols : list (option Z)) : QM bool :=
  fun q =>
    match locate (index (table q)) (key (table q)) primary_key with
    | [] => (Ok false, q)
    | base_rid :: _ =>
        match lock_guard primary_key LUpdate q with
        | (false, q') => (Ok false, q')
        | (true, q') =>
            lift (try_except (update_try now primary_key cols base_rid)
                             (fun _ => ret false)) q'
        end
    end.

(** *** [sum] *)

(** The result of [sum]: [False] or an integer. *)
Inductive SumResult :=
| SumFalse
| SumInt (z : Z).

(** One iteration of the [for rid in rids] loop of [Query.sum], on the
    loop variables [(total_sum, processed_keys)].  The inner handler keeps
    the key that was added to [processed_keys] before the second read. *)
Definition sum_step (start_range end_range : Z) (aggregate_column_index : nat)
    (r : RID) (acc : Z * list Z) : TM (Z * list Z) :=
  try_except
    (latest_rid <- _get_latest_version r ;;
     k <- gets key ;;
     key_value <- _get_column_value latest_rid k ;;
     match key_value with
     | None => ret acc
     | Some kv =>
         if decide (kv < start_range \/ end_range < kv \/ kv ∈ acc.2)
         then ret acc
         else
           try_except
             (value <- _get_column_value latest_rid aggregate_column_index ;;
              match value with
              | Some v => ret (acc.1 + v, kv :: acc.2)
              | None => ret (acc.1, kv :: acc.2)
              end)
             (fun _ => ret (acc.1, kv :: acc.2))
     end)
    (fun _ => ret acc).

Fixpoint sum_loop (start_range end_range : Z) (aggregate_column_index : nat)
    (rids : list RID) (acc : Z * list Z) : TM (Z * list Z) :=
  match rids with
  | [] => ret acc
  | r :: rids' =>
      acc' <- sum_step start_range end_range aggregate_column_index r acc ;;
      sum_loop start_range end_range aggregate_column_index rids' acc'
  end.

(** [Query.sum] *)
Definition sum (start_range end_range : Z) (aggregate_column_index : nat) : QM SumResult :=
  lift
    (tb <- get ;;
     match locate_range (index tb) start_range end_range (key tb) with
     | [] => ret SumFalse
     | rids =>
         acc <- sum_loop start_range end_range aggregate_column_index rids (0, []) ;;
         ret (SumInt acc.1)
     end).

(** *** [sum_version] *)

(** The [while current != latest_rid] loop of
    [Query._build_indirection_chain] on [(chain, current, visited)].  A page
    is unpinned only when the loop goes on: the two [break]s in the [if] and
    the one in the handler leave it as it is.  The source loop has no
    iteration bound; [bound] bounds the model, and the bound of
    [_safely_get_latest_version] is enough for the call in [sum_version],
    whose [latest_rid] was reached within it
    (see [_build_indirection_chain_after_latest]). *)
Fixpoint chain_loop (bound : nat) (latest_rid current : RID) (visited chain : list RID)
    : TM (list RID) :=
  match bound with
  | O => ret chain
  | S n =>
      if decide (current = latest_rid) then ret chain
      else
        let '(page_range_idx, page_idx, record_idx, page_type) := current in
        let page_id : PageId := (page_type, page_range_idx, page_idx) in
        step <- try_except
                  (page_data <- get_page page_id ;;
                   let indirections := d_indirection page_data in
                   match indirections !! record_idx with
                   | Some (IRid next_rid) =>
                       if decide (next_rid ∈ visited) then ret None
                       else unpin_page page_id ;;; ret (Some next_rid)
                   | Some INone | Some IEmpty | None => ret None
                   end)
                  (fun _ => ret None) ;;
        match step with
        | None => ret chain
        | Some next_rid =>
            chain_loop n latest_rid next_rid (next_rid :: visited) (chain ++ [next_rid])
        end
  end.

(** [Query._build_indirection_chain] *)
Definition _build_indirection_chain (base_rid latest_rid : RID) : TM (list RID) :=
  chain_loop 1000 latest_rid base_rid [base_rid] [base_rid].

(** The value one record adds in [sum_version], after its key passed the
    range and duplicate tests. *)
Definition sum_version_value (relative_version : Z) (base_rid : RID) (key_value : Z)
    (aggregate_column_index : nat) : TM Z :=
  if decide (relative_version = 0) then
    target_rid <- _safely_get_latest_version base_rid ;;
    tb <- get ;;
    match find_tail_record (page_directory tb) key_value with
    | Some (_, latest_record) =>
        of_option IndexError (rec_columns latest_record !! aggregate_column_index)
    | None =>
        value <- _get_column_value target_rid aggregate_column_index ;;
        ret (default 0 value)
    end
  else if decide (relative_version = -1) then
    value <- _get_column_value base_rid aggregate_column_index ;;
    ret (default 0 value)
  else if decide (relative_version = -2) then
    latest_rid <- _safely_get_latest_version base_rid ;;
    target_rid <- (if decide (latest_rid ≠ base_rid) then
                     chain <- _build_indirection_chain base_rid latest_rid ;;
                     if decide (2 <= length chain)%nat
                     then of_option IndexError (chain !! (length chain - 2)%nat)
                     else ret base_rid
                   else ret base_rid) ;;
    value <- _get_column_value target_rid aggregate_column_index ;;
    ret (default 0 value)
  else
    latest_rid <- _safely_get_latest_version base_rid ;;
    if decide (latest_rid ≠ base_rid) then
      target <- _safely_get_historical_version latest_rid base_rid
                  (Z.abs_nat relative_version) ;;
      target_rid <- unpack_rid target ;;
      value <- _get_column_value target_rid aggregate_column_index ;;
      ret (default 0 value)
    else
      value <- _get_column_value base_rid aggregate_column_index ;;
      ret (default 0 value).

(** One iteration of the [for base_rid in rids] loop of [sum_version].
    Comparing a [None] key with the range raises, which skips the record. *)
Definition sum_version_step (start_range end_range : Z) (aggregate_column_index : nat)
    (relative_version : Z) (base_rid : RID) (acc : Z * list Z) : TM (Z * list Z) :=
  try_except
    (k <- gets key ;;
     key_value <- _get_column_value base_rid k ;;
     kv <- of_option TypeError key_value ;;
     if decide (kv < start_range \/ end_range < kv \/ kv ∈ acc.2)
     then ret acc
     else
       try_except
         (value <- sum_version_value relative_version base_rid kv aggregate_column_index ;;
          ret (acc.1 + value, kv :: acc.2))
         (fun _ => ret (acc.1, kv :: acc.2)))
    (fun _ => ret acc).

Fixpoint sum_version_loop (start_range end_range : Z) (aggregate_column_index : nat)
    (relative_version : Z) (rids : list RID) (acc : Z * list Z) : TM (Z * list Z) :=
  match rids with
  | [] => ret acc
  | base_rid :: rids' =>
      acc' <- sum_version_step start_range end_range aggregate_column_index
                relative_version base_rid acc ;;
      sum_version_loop start_range end_range aggregate_column_index relative_version
        rids' acc'
  end.

(** [Query.sum_version] *)
Definition sum_version (start_range end_range : Z) (aggregate_column_index : nat)
    (relative_version : Z) : QM Z :=
  lift
    (tb <- get ;;
     match locate_range (index tb) start_range end_range (key tb) with
     | [] => ret 0
     | rids =>
         acc <- sum_version_loop start_range end_range aggregate_column_index
                  relative_version rids (0, []) ;;
         ret acc.1
     end).

End Engine.

(** ** [_navigate_to_version], [select] and [increment] *)

Section Engine_select.
Context {env : Env}.

(** [Query._navigate_to_version]; the result is a RID or [None]. *)
Definition _navigate_to_version (base_rid : RID) (relative_version : Z) : TM Indirection :=
  try_except
    (if decide (relative_version = 0) then
       latest_rid <- _safely_get_latest_version base_rid ;;
       ret (IRid latest_rid)
     else if decide (relative_version < 0) then
       latest_rid <- _safely_get_latest_version base_rid ;;
       if decide (latest_rid = base_rid) then ret (IRid base_rid)
       else _safely_get_historical_version latest_rid base_rid (Z.abs_nat relative_version)
     else ret INone)
    (fun _ => ret INone).

(** *** [select] and [increment] *)

(** Modelled from the spec: [Table.find_record(search_key, rid,
    projection)] is absent from the sources, and the specification only says
    that [select] materializes one record for the resolved RID.  It is left
    open: any computation on the table that returns a record or raises. *)
Variable find_record : Z -> RID -> list Z -> TM Record_.

(** The part of the loop body of [Query.select] after the lock step, up
    to the record that is appended. *)
Definition select_record (search_key : Z) (projected_columns_index : list Z) (r : RID)
    : TM Record_ :=
  latest_rid <- _safely_get_latest_version r ;;
  tb <- get ;;
  match find_tail_record (page_directory tb) search_key with
  | Some (prid, latest_record) =>
      projected_values <-
        (fun s => (project_record (rec_columns latest_record) 0 projected_columns_index, s)) ;;
      ret (mkRecord (IRid prid) search_key projected_values)
  | None => find_record search_key latest_rid projected_columns_index
  end.

(** What one iteration of the loop does to [result]. *)
Inductive SelectStep :=
| SelectReturnEmpty
| SelectSkip
| SelectAppend (record : Record_).

(** One iteration of [for rid in rids] in [Query.select]: the lock step
    sits inside the [try]; a refused lock ends the query with [[]], an
    exception skips the RID. *)
Definition select_step (search_key : Z) (projected_columns_index : list Z) (r : RID)
    : QM SelectStep :=
  fun q =>
    match lock_guard search_key LRead q with
    | (false, q') => (Ok SelectReturnEmpty, q')
    | (true, q') =>
        lift (try_except
                (record <- select_record search_key projected_columns_index r ;;
                 ret (SelectAppend record))
                (fun _ => ret SelectSkip)) q'
    end.

Fixpoint select_loop (search_key : Z) (projected_columns_index : list Z) (rids : list RID)
    (result : list Record_) : QM (list Record_) :=
  match rids with
  | [] => ret result
  | r :: rids' =>
      step <- select_step search_key projected_columns_index r ;;
      match step with
      | SelectReturnEmpty => ret []
      | SelectSkip => select_loop search_key projected_columns_index rids' result
      | SelectAppend record =>
          select_loop search_key projected_columns_index rids' (result ++ [record])
      end
  end.

(** [Query.select] *)
Definition select (search_key : Z) (search_key_index : nat)
    (projected_columns_index : list Z) : QM (list Record_) :=
  q <- get ;;
  match locate (index (table q)) search_key_index search_key with
  | [] => ret []
  | rids => select_loop search_key projected_columns_index rids []
  end.

(** [Query.increment].  [now] is the time stamp [update] takes.  The two
    subscripts [r.columns[column]] and [updated_columns[column]] are outside
    any [try]. *)
Definition increment (now : string) (k : Z) (column : nat) : QM bool :=
  q <- get ;;
  r <- select k (key (table q)) (replicate (num_columns (table q)) 1) ;;
  match r with
  | [] => ret false
  | r0 :: _ =>
      q1 <- get ;;
      let updated_columns := replicate (num_columns (table q1)) (None : option Z) in
      value <- of_option IndexError (rec_columns r0 !! column) ;;
      if decide (column < length updated_columns)%nat
      then update now k (<[column := Some (value + 1)]> updated_columns)
      else raise IndexError
  end.

End Engine_select.

(** ** A concrete environment and [Database.create_table] *)

(** Modelled from the spec: the lock manager is absent from the sources.
    Per key, the transactions holding a lock and whether the lock is
    exclusive; a conflicting request is refused without blocking. *)
Definition lock_table : Type := gmap Z (list nat * bool).

Definition acquire_lock_2pl (lm : lock_table) (tx : nat) (k : Z) (mode : LockMode)
    : bool * lock_table :=
  let exclusive := match mode with LRead => false | _ => true end in
  match lm !! k with
  | None => (true, <[k := ([tx], exclusive)]> lm)
  | Some (holders, held_exclusive) =>
      if bool_decide (holders = [tx]) then (true, <[k := ([tx], held_exclusive || exclusive)]> lm)
      else if held_exclusive || exclusive then (false, lm)
      else (true, <[k := (if decide (tx ∈ holders) then holders else holders ++ [tx], false)]> lm)
  end.

(** The spec's default page capacity and base pages per range; the merge
    threshold is left to the implementer. *)
Global Instance default_env : Env := {|
  MERGE_THRESHOLD := 512;
  PAGE_CAPACITY := 512;
  RANGE_BASE_PAGES := 16;
  LockManager := lock_table;
  acquire_lock := acquire_lock_2pl;
|}.

(** [Database.create_table] of [db.py]: a fresh [Table] with an index on
    every column, on a database with an empty buffer pool. *)
Definition create_table (table_name : string) (n key_index : nat) : Table :=
  mkTable table_name key_index n [] []
          (foldr create_index (mkIndex ∅) (seq 0 n))
          0 false (mkBufferPool ∅ ∅) (∅ : lock_table).

(** Run a sequence of queries, dropping the results. *)
Definition exec {A} (m : QM A) (q : Query) : Query := (m q).2.


(** ** [Database] of [db.py] *)

(** The two exceptions [db.py] raises: [Exception(f"Table {name} already
    exists")] and [Exception(f"Table {name} does not exist")]. *)
Inductive DbError :=
| TableExists (table_name : string)
| TableMissing (table_name : string).

(** [Database]: its only attribute is the list [self.tables]. *)
Record Database := mkDatabase {
  tables : list Table;
}.

(** [Database.__init__] *)
Definition Database_init : Database := mkDatabase [].

(** Modelled from the spec: the constructor [Table(name, num_columns,
    key_index)] gives a table without pages, records or column indexes. *)
Definition Table_init (table_name : string) (n key_index : nat) : Table :=
  mkTable table_name key_index n [] [] (mkIndex ∅) 0 false (mkBufferPool ∅ ∅)
          (∅ : lock_table).

(** Modelled from the spec: [Index.drop_index(col)] removes the column's
    map. *)
Definition drop_index (col : nat) (ix : Index) : Index :=
  mkIndex (base.delete col (indices ix)).

(** [for table in self.tables: if table.name == name: return table] *)
Fixpoint find_table (table_name : string) (ts : list Table) : option Table :=
  match ts with
  | [] => None
  | tb :: ts' => if decide (name tb = table_name) then Some tb else find_table table_name ts'
  end.

(** [Database.create_table]: the duplicate check, the constructor, the
    [append], and [table.index.create_index(i)] for every column in
    ascending order.  The appended object is the one the loop changes, so the
    list holds the table with its indexes. *)
Definition Database_create_table (table_name : string) (n key_index : nat) (db : Database)
    : DbError + (Table * Database) :=
  match find_table table_name (tables db) with
  | Some _ => inl (TableExists table_name)
  | None =>
      let table0 := Table_init table_name n key_index in
      let table1 :=
        set_index (foldl (fun ix i => create_index i ix) (index table0) (seq 0 n)) table0 in
      inr (table1, mkDatabase (tables db ++ [table1]))
  end.

(** The loop of [Database.drop_table] on [self.tables]: at the first table
    with the name, every column index of that table is dropped and the table
    is popped.  The result is the popped table object as the loop leaves it
    (a [Query] that still holds the table sees this state) and the remaining
    list; [None] when the loop ends without a match. *)
Fixpoint drop_loop (table_name : string) (ts : list Table) : option (Table * list Table) :=
  match ts with
  | [] => None
  | tb :: ts' =>
      if decide (name tb = table_name)
      then Some (set_index
                   (foldl (fun ix col => drop_index col ix) (index tb)
                          (seq 0 (num_columns tb))) tb,
                 ts')
      else match drop_loop table_name ts' with
           | Some (dropped, rest) => Some (dropped, tb :: rest)
           | None => None
           end
  end.

(** [Database.drop_table]; Python's return value is [None], the popped
    table is given for the sake of the objects that still refer to it. *)
Definition Database_drop_table (table_name : string) (db : Database)
    : DbError + (Table * Database) :=
  match drop_loop table_name (tables db) with
  | Some (dropped, rest) => inr (dropped, mkDatabase rest)
  | None => inl (TableMissing table_name)
  end.

(** [Database.get_table] *)
Definition Database_get_table (table_name : string) (db : Database) : DbError + Table :=
  match find_table table_name (tables db) with
  | Some tb => inr tb
  | None => inl (TableMissing table_name)
  end.

(** The names of the registered tables, in order. *)
Definition table_names (db : Database) : list string := name <$> tables db.

(** A call of one of the two methods that change [self.tables]. *)
Inductive DbCall :=
| CreateTable (table_name : string) (n key_index : nat)
| DropTable (table_name : string).

(** The database after a call; a call that raises leaves it as it was. *)
Definition db_call (c : DbCall) (db : Database) : Database :=
  match c with
  | CreateTable table_name n key_index =>
      match Database_create_table table_name n key_index db with
      | inr (_, db') => db'
      | inl _ => db
      end
  | DropTable table_name =>
      match Database_drop_table table_name db with
      | inr (_, db') => db'
      | inl _ => db
      end
  end.

Definition db_calls (cs : list DbCall) (db : Database) : Database :=
  foldl (fun db c => db_call c db) db cs.


(** ** Scenarios *)

(** S1 to S3 of the specification: a table with three columns and key
    index 0, one insert and three updates of column 1. *)
Definition T3 : Query := mkQuery (create_table "T" 3 0) None.
Definition S1 : Query := exec (insert "t0" [100; 11; 12]) T3.
Definition S2 : Query := exec (update "t1" 100 [None; Some 22; None]) S1.
Definition S3 : Query :=
  exec (update "t3" 100 [None; Some 44; None])
       (exec (update "t2" 100 [None; Some 33; None]) S2).

(** A table with two columns and key index 0. *)
Definition T2 : Query := mkQuery (create_table "T" 2 0) None.

(** Key 5 inserted with value 10 and updated to 20, 30 and 40. *)
Definition H0 : Query := exec (insert "t0" [5; 10]) T2.
Definition H3 : Query :=
  exec (update "t3" 5 [None; Some 40])
       (exec (update "t2" 5 [None; Some 30])
             (exec (update "t1" 5 [None; Some 20]) H0)).

(** Key 1 inserted with value 10; then its key changed to 2, then to 3. *)
Definition K1 : Query := exec (insert "t0" [1; 10]) T2.
Definition K2 : Query := exec (update "t1" 1 [Some 2; None]) K1.
Definition K3 : Query := exec (update "t2" 2 [Some 3; None]) K2.

(** The pin count of a page in the table's buffer pool. *)
Definition pins (q : Query) (id : PageId) : Z := pin_count (bufferpool (table q)) id.

(** The page data the buffer pool holds for a page. *)
Definition page_data_of `{Env} (tb : Table) (id : PageId) : PageData :=
  default (empty_page_data (num_columns tb)) (frames (bufferpool tb) !! id).

(** The tail row as the specification words it: the supplied value when
    it is not null; otherwise the original key for the key column; otherwise
    the inherited value. *)
Definition claimed_tail_columns (n key_col : nat) (original_key : Z) (cols : list (option Z))
    (current_record : Record_) : list Z :=
  (fun i =>
     match cols !! i with
     | Some (Some v) => v
     | _ => if decide (i = key_col) then original_key
            else default 0 (rec_columns current_record !! i)
     end) <$> seq 0 n.

(** S1 updated with a value for every column. *)
Definition S1_full : Query := exec (update "t1" 100 [Some 100; Some 22; Some 12]) S1.

(** ** Definitions used to state the properties *)

Section Statements.
Context {env : Env}.

(** The columns a projection asks for, by position. *)
Definition flagged (i : nat) (flags : list Z) : list nat :=
  fst <$> filter (fun e : nat * Z => e.2 = 1) (imap (fun j flag => (i + j, flag)%nat) flags).

(** The table with other pin counts: readers change nothing else. *)
Definition with_pins (p : gmap PageId Z) (tb : Table) : Table :=
  set_bufferpool (mkBufferPool (frames (bufferpool tb)) p) tb.

(** The RID [_get_latest_version] resolves a RID to.  Like the code it
    reads the base page at the position of the RID whatever the type of the
    RID: for a base RID this is the forward pointer of the record's own slot
    (the RID itself when the slot holds none); for a tail RID it is the
    pointer of whichever record owns the base slot of that number. *)
Definition latest_of (tb : Table) (r : RID) : RID :=
  let '(page_range_idx, page_idx, record_idx, _) := r in
  match d_indirection (page_data_of tb (base, page_range_idx, page_idx)) !! record_idx with
  | Some (IRid forward) => forward
  | _ => r
  end.

(** The value stored for a column of a version: the buffer pool's copy,
    or else the page object's. *)
Definition stored_value (tb : Table) (r : RID) (c : nat) : option Z :=
  let '(page_range_idx, page_idx, record_idx, page_type) := r in
  match columns (page_data_of tb (page_type, page_range_idx, page_idx)) !! c
          ≫= (fun col => col !! record_idx) with
  | Some v => Some v
  | None =>
      prg ← page_ranges tb !! page_range_idx;
      page ← (match page_type with
              | base => base_pages prg
              | tail => tail_pages prg
              end) !! page_idx;
      pp ← pages page !! c;
      if decide (record_idx < pp_num_records pp)%nat then data pp !! record_idx else None
  end.

(** What one located RID contributes to [sum]: the key and the aggregate
    value of the version [latest_of] resolves it to, provided the key is
    readable and lies in the range. *)
Definition sum_entry (tb : Table) (lo hi : Z) (agg : nat) (r : RID) : option (Z * option Z) :=
  let latest := latest_of tb r in
  kv ← stored_value tb latest (key tb);
  if decide (lo <= kv /\ kv <= hi) then Some (kv, stored_value tb latest agg) else None.

(** Keep the first entry of every key. *)
Fixpoint first_per_key (seen : list Z) (es : list (Z * option Z)) : list (Z * option Z) :=
  match es with
  | [] => []
  | (k, v) :: es' =>
      if decide (k ∈ seen) then first_per_key seen es'
      else (k, v) :: first_per_key (k :: seen) es'
  end.

(** The loop of [sum] as a fold: no RID in range gives [False];
    otherwise the aggregate values of the entries of the located RIDs are
    added, the first entry of every key only, a null value counting as 0.
    The versions are those [latest_of] gives, so this is the code's own
    reading of the table, not the records' latest versions (see B2). *)
Definition sum_fold (tb : Table) (lo hi : Z) (agg : nat) : SumResult :=
  match locate_range (index tb) lo hi (key tb) with
  | [] => SumFalse
  | rids =>
      SumInt (foldr Z.add 0
                ((fun e : Z * option Z => default 0 e.2)
                   <$> first_per_key [] (omap (sum_entry tb lo hi agg) rids)))
  end.

(** One iteration of the loop of [sum] on [(total_sum, processed_keys)],
    as a function of the table. *)
Definition sum_step_pure (tb : Table) (lo hi : Z) (agg : nat) (acc : Z * list Z) (r : RID)
    : Z * list Z :=
  match sum_entry tb lo hi agg r with
  | Some (kv, v) =>
      if decide (kv ∈ acc.2) then acc else (acc.1 + default 0 v, kv :: acc.2)
  | None => acc
  end.

(** The base page object at the position of a RID: [delete] indexes
    [base_pages] whatever the RID's type is, so for a tail RID this is the
    page of other records. *)
Definition base_page_at (tb : Table) (r : RID) : option Page :=
  page_ranges tb !! r.1.1.1 ≫= (fun prg => base_pages prg !! r.1.1.2).

(** The tail page object at a position. *)
Definition tail_page_at (tb : Table) (i j : nat) : option Page :=
  page_ranges tb !! i ≫= (fun prg => tail_pages prg !! j).

(** Everything of a table except its page objects. *)
Definition same_but_pages (s s' : Table) : Prop :=
  s' = set_page_ranges (page_ranges s') s.

(** The key [update] files the record under: the supplied key when it is
    not null and differs from [primary_key], else [primary_key]. *)
Definition update_new_key (tb : Table) (pk : Z) (cols : list (option Z)) : Z :=
  match cols !! key tb with
  | Some (Some v) => if decide (v ≠ pk) then v else pk
  | _ => pk
  end.

End Statements.

(** ** Pointers, frames and alignment *)

Section Pointer_statements.
Context {env : Env}.

(** Two pin-count maps that give every page the same count. *)
Definition same_pins (p p' : gmap PageId Z) : Prop :=
  forall id, default 0 (p !! id) = default 0 (p' !! id).

(** The pointer the buffer pool holds in the indirection slot of a RID. *)
Definition forward (tb : Table) (r : RID) : option RID :=
  let '(page_range_idx, page_idx, record_idx, page_type) := r in
  match d_indirection (page_data_of tb (page_type, page_range_idx, page_idx)) !! record_idx with
  | Some (IRid next_rid) => Some next_rid
  | _ => None
  end.

(** Every RID of the list is followed by the one its slot points at. *)
Fixpoint links (tb : Table) (path : list RID) : Prop :=
  match path with
  | a :: (b :: _) as rest => forward tb a = Some b /\ links tb rest
  | _ => True
  end.

(** The value the page object of a version holds in its indirection
    slot: [_safely_get_historical_version] reads the page objects, not the
    buffer pool. *)
Definition backward (tb : Table) (v : Indirection) : option Indirection :=
  match v with
  | IRid (page_range_idx, page_idx, record_idx, page_type) =>
      prg ← page_ranges tb !! page_range_idx;
      page ← (match page_type with
              | base => base_pages prg
              | tail => tail_pages prg
              end) !! page_idx;
      indirection page !! record_idx
  | _ => None
  end.

(** Every entry of the list is followed by the value its slot holds. *)
Fixpoint back_links (tb : Table) (chain : list Indirection) : Prop :=
  match chain with
  | a :: (b :: _) as rest => backward tb a = Some b /\ back_links tb rest
  | _ => True
  end.

(** What one iteration of the loop of [select] does when the page
    directory holds a tail record of the key: it appends the projected
    record, or nothing when the projection raises. *)
Definition tail_record_step (k : Z) (proj : list Z) (prid : RID) (record : Record_)
    : SelectStep :=
  match project_record (rec_columns record) 0 proj with
  | Ok values => SelectAppend (mkRecord (IRid prid) k values)
  | Raise _ => SelectSkip
  end.

End Pointer_statements.

Section Frame_statements.
Context {env : Env}.

(** Everything of a table except its pin counts and the page objects of
    its tail pages. *)
Definition same_data (s s' : Table) : Prop :=
  s' = set_page_ranges (page_ranges s') (with_pins (pin_counts (bufferpool s')) s) /\
  base_pages <$> page_ranges s' = base_pages <$> page_ranges s.

End Frame_statements.

Section Alignment_statements.
Context {env : Env}.

(** The vectors of every tail page in the buffer pool have one entry per
    record: the slot of a RID is its position in each of them. *)
Definition aligned (tb : Table) : Prop :=
  (forall i j,
     length (d_indirection (page_data_of tb (tail, i, j)))
     = length (d_rid (page_data_of tb (tail, i, j))) /\
     length (columns (page_data_of tb (tail, i, j))) = num_columns tb /\
     Forall (fun c => length c = length (d_rid (page_data_of tb (tail, i, j))))
            (columns (page_data_of tb (tail, i, j)))) /\
  (forall i j s,
     is_Some (dict_get (page_directory tb) (i, j, s, tail)) ->
     (s < length (d_rid (page_data_of tb (tail, i, j))))%nat).

(** The value [update] writes into column [c] of the tail row, for the
    RID [b] the index gave it: the key column of the page directory's record
    of [b] for the key column, else the supplied value, else the value of the
    page directory's record of [latest_of tb b] (of [b] when it has none). *)
Definition tail_value (tb : Table) (b : RID) (cols : list (option Z)) (c : nat) : Z :=
  if decide (c = key tb)
  then default 0 (dict_get (page_directory tb) b ≫= (fun rec => rec_columns rec !! key tb))
  else match cols !! c with
       | Some (Some v) => v
       | _ => default 0
                (rec_columns
                   (default (default (mkRecord INone 0 []) (dict_get (page_directory tb) b))
                            (dict_get (page_directory tb) (latest_of tb b))) !! c)
       end.

(** The versions [ts] of the record of [b], oldest first, as [update]
    links them: the base slot points at the newest, every version at the one
    it replaced, the oldest at the base record.  Without versions the base
    slot holds no pointer. *)
Definition version_chain (tb : Table) (b : RID) (ts : list RID) : Prop :=
  match ts with
  | [] => forward tb b = None
  | _ => links tb (b :: reverse ts ++ [b]) /\ NoDup (b :: ts)
  end.

(** Successive updates of one key, each of which succeeds and leaves the
    key as it is. *)
Fixpoint update_all (k : Z) (us : list (string * list (option Z))) (q : Query)
    : option Query :=
  match us with
  | [] => Some q
  | (now, cols) :: us' =>
      if decide (update_new_key (table q) k cols = k) then
        match update now k cols q with
        | (Ok true, q') => update_all k us' q'
        | _ => None
        end
      else None
  end.

(** The row [update] appends. *)
Definition tail_row (tb : Table) (b : RID) (cols : list (option Z)) : list Z :=
  tail_value tb b cols <$> seq 0 (num_columns tb).

End Alignment_statements.

(** S5: five keys with value 10 sum to 50; after [update(3, None, 99)]
    the sum is 139; a range without keys gives [False]. *)
Definition S5 : Query :=
  exec (insert "t5" [5; 10])
    (exec (insert "t4" [4; 10])
       (exec (insert "t3" [3; 10])
          (exec (insert "t2" [2; 10])
             (exec (insert "t1" [1; 10]) T2)))).

(** ** More scenarios *)

(** Modelled from the spec: a [Table.find_record] that does what step 3
    of the description of [select] says for a record without a page
    directory entry: read the projected columns of the resolved RID through
    the buffer pool, 0 for an unreadable value. *)
Definition find_record_by_columns (search_key : Z) (r : RID) (projection : list Z)
    : TM Record_ :=
  projected_values <- read_projection (IRid r) 0 projection ;;
  ret (mkRecord (IRid r) search_key projected_values).

(** Two tables registered in a fresh database. *)
Definition DB2 : Database :=
  db_calls [CreateTable "T" 3 0; CreateTable "U" 2 0] Database_init.

(** S6: transaction 1 has updated key 100 of S1 and holds its lock;
    transaction 2 queries the same table. *)
Definition S6_tx1 : Query :=
  exec (update "t1" 100 [None; Some 22; None])
       (mkQuery (table S1) (Some (mkTransaction 1 []))).
Definition S6_tx2 : Query := mkQuery (table S6_tx1) (Some (mkTransaction 2 [])).

(** B2: keys 7 and 1 are inserted (base slots 0 and 1 of base page 0);
    the key of the second record is changed from 1 to 2, which files its
    tail RID [(0, 0, 0, tail)] under key 2; then key 7 is updated.  B3: after
    that, [update(2, None, None)]. *)
Definition B0 : Query := exec (insert "t1" [1; 10]) (exec (insert "t0" [7; 70]) T2).
Definition B1 : Query := exec (update "t2" 1 [Some 2; None]) B0.
Definition B2 : Query := exec (update "t3" 7 [None; Some 99]) B1.
Definition B3 : Query := exec (update "t4" 2 [None; None]) B2.

(** A2: keys 1 and 7 are inserted (base slots 0 and 1); the key of the
    first record is changed from 1 to 2 and from 2 to 3, so key 3 is filed
    under the tail RID [(0, 0, 1, tail)]. *)
Definition A0 : Query := exec (insert "t1" [7; 70]) (exec (insert "t0" [1; 10]) T2).
Definition A1 : Query := exec (update "t2" 1 [Some 2; None]) A0.
Definition A2 : Query := exec (update "t3" 2 [Some 3; None]) A1.

(** Key 1 updated to value 20, then its key changed to 2: key 2 is filed
    under the tail RID [(0, 0, 1, tail)], whose slot 1 lies beyond the one
    slot of base page 0. *)
Definition K2u : Query :=
  exec (update "t2" 1 [Some 2; None]) (exec (update "t1" 1 [None; Some 20]) K1).

(** The three updates that lead from S1 to S3. *)
Definition S3_updates : list (string * list (option Z)) :=
  [("t1"%string, [None; Some 22; None]);
   ("t2"%string, [None; Some 33; None]);
   ("t3"%string, [None; Some 44; None])].

(** * Properties *)

(** Reduce projections of updated tables, and nothing else. *)
Ltac table_simpl :=
  cbn [name key num_columns page_ranges page_directory index merge_counter merge_scheduled
       bufferpool lock_manager frames pin_counts table transaction
       set_page_ranges set_page_directory set_index set_merge_counter set_merge_scheduled
       set_bufferpool set_lock_manager fst snd mbind option_bind] in *.

Section Monad_facts.
Context {S A B : Type}.

Lemma bind_Ok (m : M S A) (k : A -> M S B) s b s' :
  bind m k s = (Ok b, s') ->
  exists a s1, m s = (Ok a, s1) /\ k a s1 = (Ok b, s').
Proof.
  unfold bind. destruct (m s) as [[a|e] s1]; [eauto | discriminate].
Qed.

Lemma of_option_Ok e (o : option A) (s : S) a s' :
  of_option e o s = (Ok a, s') -> o = Some a /\ s' = s.
Proof.
  destruct o; cbv; intros [=]; subst; auto.
Qed.

End Monad_facts.

Section Select_version_facts.
Context {env : Env}.

Lemma fallback_values_flagged search_key search_key_index flags i :
  fallback_values search_key search_key_index i flags =
  (fun j => if decide (j = search_key_index) then search_key else 0) <$> flagged i flags.
Proof.
  revert i. induction flags as [|flag flags IH]; intros i; [reflexivity|].
  unfold flagged in *. cbn [fallback_values imap].
  rewrite filter_cons. cbn [snd]. rewrite Nat.add_0_r.
  assert (Hshift : imap ((fun j flag0 => ((i + j)%nat, flag0)) ∘ S) flags
                   = imap (fun j flag0 => ((S i + j)%nat, flag0)) flags).
  { apply imap_ext. intros j x _. cbn. f_equal. lia. }
  rewrite Hshift. destruct (decide (flag = 1)); cbn; rewrite IH; reflexivity.
Qed.

(** C10: when the index lookup finds at least one RID, [select_version]
    returns a list of exactly one record and never raises, whatever the
    version and however many RIDs match; the RID used is the first base RID
    (or the first RID when none is a base RID).  The record is the one the
    [try] block materializes for this RID; when that block raises, the one
    record is built on this RID, carries the search key as its key, and its
    columns are, for each projected column in order, the search key at the
    search column and 0 elsewhere. *)
Theorem select_version_one_record (search_key : Z) (search_key_index : nat)
    (projection : list Z) (relative_version : Z) (q : Query) :
  locate (index (table q)) search_key_index search_key <> [] ->
  exists base_rid record q',
    head (filter (fun r : RID => r.2 = base)
                 (locate (index (table q)) search_key_index search_key)
          ++ locate (index (table q)) search_key_index search_key) = Some base_rid /\
    select_version search_key search_key_index projection relative_version q
      = (Ok [record], q') /\
    (forall record' tb',
        select_version_try base_rid search_key projection relative_version (table q)
          = (Ok record', tb') ->
        record = record') /\
    (forall e tb',
        select_version_try base_rid search_key projection relative_version (table q)
          = (Raise e, tb') ->
        record = mkRecord (IRid base_rid) search_key
                   ((fun j => if decide (j = search_key_index) then search_key else 0)
                      <$> flagged 0 projection)).
Proof.
  intros Hrids. unfold select_version, lift, bind, get, try_except.
  destruct (locate (index (table q)) search_key_index search_key) as [|r0 rids] eqn:Hloc;
    [congruence|].
  set (base_rid := match filter (fun r : RID => r.2 = base) (r0 :: rids) with
                   | [] => r0
                   | b :: _ => b
                   end).
  assert (Hhead : head (filter (fun r : RID => r.2 = base) (r0 :: rids) ++ r0 :: rids)
                  = Some base_rid).
  { subst base_rid. destruct (filter _ (r0 :: rids)); reflexivity. }
  destruct (select_version_try base_rid search_key projection relative_version (table q))
    as [[record|e] tb'] eqn:Htry.
  - exists base_rid, record, (mkQuery tb' (transaction q)).
    split; [exact Hhead|]. split; [reflexivity|].
    split; intros ? ? ?; congruence.
  - eexists base_rid, _, (mkQuery tb' (transaction q)).
    split; [exact Hhead|]. split; [reflexivity|]. split.
    + intros ? ? ?; congruence.
    + intros _ _ _. rewrite fallback_values_flagged. reflexivity.
Qed.

End Select_version_facts.

(** In state S2 a projection of four columns makes the version-0 branch
    raise, and the fallback record is returned. *)
Lemma select_version_one_record_witness :
  exists base_rid record q',
    head (filter (fun r : RID => r.2 = base) (locate (index (table S2)) 0 100)
          ++ locate (index (table S2)) 0 100) = Some base_rid /\
    select_version 100 0 [1; 1; 1; 1] 0 S2 = (Ok [record], q') /\
    (forall record' tb',
        select_version_try base_rid 100 [1; 1; 1; 1] 0 (table S2) = (Ok record', tb') ->
        record = record') /\
    (forall e tb',
        select_version_try base_rid 100 [1; 1; 1; 1] 0 (table S2) = (Raise e, tb') ->
        record = mkRecord (IRid base_rid) 100
                   ((fun j => if decide (j = 0%nat) then 100 else 0)
                      <$> flagged 0 [1; 1; 1; 1])).
Proof.
  apply (select_version_one_record 100 0 [1; 1; 1; 1] 0 S2).
  vm_compute. discriminate.
Defined.

Example select_version_fallback_S2 :
  (select_version_try (0, 0, 0, base)%nat 100 [1; 1; 1; 1] 0 (table S2)).1
  = Raise IndexError /\
  (select_version 100 0 [1; 1; 1; 1] 0 S2).1
  = Ok [mkRecord (IRid (0, 0, 0, base)%nat) 100 [100; 0; 0; 0]].
Proof. vm_compute. auto. Qed.

(** ** The scenarios of the specification on the code *)

Example S1_to_S3_succeed :
  (insert "t0" [100; 11; 12] T3).1 = Ok true /\
  (update "t1" 100 [None; Some 22; None] S1).1 = Ok true /\
  (update "t2" 100 [None; Some 33; None] S2).1 = Ok true /\
  (update "t3" 100 [None; Some 44; None]
     (exec (update "t2" 100 [None; Some 33; None]) S2)).1 = Ok true.
Proof. vm_compute. auto. Qed.

(** After one update the latest and the base version are as S2 says. *)
Example S2_select_version :
  (select_version 100 0 [1; 1; 1] 0 S2).1
    = Ok [mkRecord (IRid (0, 0, 0, tail)%nat) 100 [100; 22; 12]] /\
  (select_version 100 0 [1; 1; 1] (-1) S2).1
    = Ok [mkRecord (IRid (0, 0, 0, base)%nat) 100 [100; 11; 12]].
Proof. vm_compute. auto. Qed.

(** C3: after insert(100, 11, 12) and the three updates of column 1 to 22,
    33 and 44, the code answers version 0 with the image of the FIRST update
    [100, 22, 12] (the claim: [100, 44, 12]), version -1 with the base image
    [100, 11, 12] (as claimed) and version -2 with the base image again (the
    claim: [100, 33, 12]). *)
Theorem S3_select_version :
  (select_version 100 0 [1; 1; 1] 0 S3).1
    = Ok [mkRecord (IRid (0, 0, 0, tail)%nat) 100 [100; 22; 12]] /\
  (select_version 100 0 [1; 1; 1] (-1) S3).1
    = Ok [mkRecord (IRid (0, 0, 0, base)%nat) 100 [100; 11; 12]] /\
  (select_version 100 0 [1; 1; 1] (-2) S3).1
    = Ok [mkRecord (IRid (0, 0, 0, base)%nat) 100 [100; 11; 12]].
Proof. vm_compute. auto. Qed.

(** The state the three updates leave behind: the buffer pool's base slot
    points at the newest tail record, each tail record points at the version
    it replaced, and the walk of [_safely_get_latest_version] therefore ends
    on the oldest tail record. *)
Example S3_chain :
  d_indirection (page_data_of (table S3) (base, 0, 0)%nat) = [IRid (0, 0, 2, tail)%nat] /\
  d_indirection (page_data_of (table S3) (tail, 0, 0)%nat)
    = [IRid (0, 0, 0, base)%nat; IRid (0, 0, 0, tail)%nat; IRid (0, 0, 1, tail)%nat] /\
  (_safely_get_latest_version (0, 0, 0, base)%nat (table S3)).1 = Ok (0, 0, 0, tail)%nat.
Proof. vm_compute. auto. Qed.

(** C2: key 5 is inserted with value 10 and updated to 20, 30 and 40, so
    three steps lie behind the latest version [5, 40] and the base is not
    within two steps of it.  For version -2 the code nevertheless
    materializes the base image [5, 10]; two steps back from the latest is
    the first update [5, 20] (and [5, 30] if the latest counts as the first
    node, as in scenario S3), both still held by the page directory. *)
Theorem H3_select_version_minus_2 :
  (select_version 5 0 [1; 1] (-2) H3).1
    = Ok [mkRecord (IRid (0, 0, 0, base)%nat) 5 [5; 10]] /\
  (rec_columns <$> (snd <$> page_directory (table H3)))
    = [[5; 10]; [5; 20]; [5; 30]; [5; 40]].
Proof. vm_compute. auto. Qed.

(** C8: [insert] evaluates [columns[self.table.key]] before its [try]
    block, so a call with too few columns raises [IndexError] to the caller
    instead of returning [False]. *)
Theorem insert_too_few_columns `{Env} (now : string) (cols : list Z) (q : Query) :
  (length cols <= key (table q))%nat ->
  insert now cols q = (Raise IndexError, q).
Proof.
  intros Hlen. unfold insert.
  rewrite (lookup_ge_None_2 cols (key (table q))) by exact Hlen. reflexivity.
Qed.

Lemma insert_too_few_columns_witness :
  insert "t0" [] T3 = (Raise IndexError, T3).
Proof.
  apply (insert_too_few_columns "t0" [] T3). cbn. lia.
Defined.

(** C9: in a table of two columns holding key 1, [update(1, None, 5, 7)]
    raises inside the [try] block while it builds the schema encoding, after
    both [get_page] calls; the handler returns [False] without unpinning, and
    the base page and the tail page stay pinned. *)
Theorem update_leaves_pages_pinned :
  (update "t1" 1 [None; Some 5; Some 7] K1).1 = Ok false /\
  pins K1 (base, 0, 0)%nat = 0 /\
  pins (exec (update "t1" 1 [None; Some 5; Some 7]) K1) (base, 0, 0)%nat = 1 /\
  pins K1 (tail, 0, 0)%nat = 0 /\
  pins (exec (update "t1" 1 [None; Some 5; Some 7]) K1) (tail, 0, 0)%nat = 1.
Proof. vm_compute. auto 10. Qed.

(** The same leak with calls of the right arity: after a key change the
    index hands [update] a tail RID whose slot lies beyond the base page's
    indirection vector, and the assignment to that slot raises. *)
Example update_leaves_pages_pinned_after_key_change :
  let q := exec (update "t2" 1 [Some 2; None]) (exec (update "t1" 1 [None; Some 20]) K1) in
  (update "t3" 2 [None; Some 30] q).1 = Ok false /\
  pins q (base, 0, 0)%nat = 0 /\
  pins (exec (update "t3" 2 [None; Some 30]) q) (base, 0, 0)%nat = 1 /\
  pins (exec (update "t3" 2 [None; Some 30]) q) (tail, 0, 0)%nat = 1.
Proof. vm_compute. auto 10. Qed.

(** ** What the readers return *)

Section Reader_facts.
Context {env : Env}.

Lemma with_pins_id tb : with_pins (pin_counts (bufferpool tb)) tb = tb.
Proof. destruct tb as [? ? ? ? ? ? ? ? [? ?] ?]. reflexivity. Qed.

Lemma pin_unpin_count (p : gmap PageId Z) (id id' : PageId) :
  default 0 (<[id := default 0 (<[id := default 0 (p !! id) + 1]> p !! id) - 1]>
               (<[id := default 0 (p !! id) + 1]> p) !! id')
  = default 0 (p !! id').
Proof.
  destruct (decide (id = id')) as [<-|Hne].
  - rewrite !lookup_insert_eq. cbn. lia.
  - rewrite !lookup_insert_ne by exact Hne. reflexivity.
Qed.

Lemma _get_latest_version_reads r tb p :
  exists p',
    _get_latest_version r (with_pins p tb) = (Ok (latest_of tb r), with_pins p' tb) /\
    forall id, default 0 (p' !! id) = default 0 (p !! id).
Proof.
  destruct r as [[[pr pi] ri] ty].
  unfold _get_latest_version, latest_of, page_data_of, try_finally, try_except, bind,
    get_page, unpin_page, modify, ret, with_pins, pin_count.
  table_simpl.
  destruct (d_indirection _ !! ri) as [[| |fw]|];
    (eexists; split; [reflexivity | intros id; apply pin_unpin_count]).
Qed.

Lemma _get_column_value_reads r c tb p :
  exists p', _get_column_value r c (with_pins p tb) = (Ok (stored_value tb r c), with_pins p' tb).
Proof.
  destruct r as [[[pr pi] ri] ty].
  unfold _get_column_value, stored_value, page_data_of, try_except, bind,
    get_page, unpin_page, modify, get, of_option, raise, ret, pp_read, with_pins.
  assert (Hty : (if bool_decide (ty = base) then base else tail) = ty)
    by (destruct ty; reflexivity).
  rewrite Hty. table_simpl.
  destruct (columns _ !! c ≫= _) as [v|]; [eexists; reflexivity|].
  table_simpl.
  destruct (page_ranges tb !! pr) as [prg|]; table_simpl; [|eexists; reflexivity].
  assert (Hpages : (if bool_decide (ty = base) then base_pages prg else tail_pages prg)
                   = match ty with base => base_pages prg | tail => tail_pages prg end)
    by (destruct ty; reflexivity).
  rewrite Hpages.
  destruct (_ !! pi) as [page|]; table_simpl; [|eexists; reflexivity].
  destruct (pages page !! c) as [pp|]; table_simpl; [|eexists; reflexivity].
  destruct (decide (ri < pp_num_records pp)%nat); table_simpl; [|eexists; reflexivity].
  destruct (data pp !! ri); eexists; reflexivity.
Qed.

End Reader_facts.

(** ** [sum] *)

Section Sum_facts.
Context {env : Env}.

Lemma sum_step_reads lo hi agg r acc tb p :
  exists p', sum_step lo hi agg r acc (with_pins p tb)
             = (Ok (sum_step_pure tb lo hi agg acc r), with_pins p' tb).
Proof.
  unfold sum_step, sum_step_pure, sum_entry, try_except, bind.
  destruct (_get_latest_version_reads r tb p) as [p1 [-> _]].
  unfold gets at 1. cbn [key with_pins set_bufferpool].
  destruct (_get_column_value_reads (latest_of tb r) (key tb) tb p1) as [p2 ->].
  destruct (stored_value tb (latest_of tb r) (key tb)) as [kv|]; cbn [mbind option_bind];
    [|eexists; reflexivity].
  destruct (decide (kv < lo \/ hi < kv \/ kv ∈ acc.2)) as [Hskip|Hkeep].
  - destruct (decide (lo <= kv /\ kv <= hi)) as [Hin|Hout]; [|eexists; reflexivity].
    destruct (decide (kv ∈ acc.2)); [eexists; reflexivity|].
    exfalso. destruct Hskip as [?|[?|?]]; [lia | lia | contradiction].
  - destruct (decide (lo <= kv /\ kv <= hi)) as [Hin|Hout];
      [|exfalso; apply Hkeep; destruct (decide (kv < lo)); [tauto | right; left; lia]].
    destruct (decide (kv ∈ acc.2)); [exfalso; tauto|].
    destruct (_get_column_value_reads (latest_of tb r) agg tb p2) as [p3 ->].
    destruct (stored_value tb (latest_of tb r) agg) as [v|]; cbn [default];
      [eexists; reflexivity|].
    rewrite Z.add_0_r. eexists; reflexivity.
Qed.

Lemma sum_loop_reads lo hi agg rids acc tb p :
  exists p', sum_loop lo hi agg rids acc (with_pins p tb)
             = (Ok (foldl (sum_step_pure tb lo hi agg) acc rids), with_pins p' tb).
Proof.
  revert acc p. induction rids as [|r rids IH]; intros acc p; [eexists; reflexivity|].
  cbn [sum_loop foldl]. unfold bind.
  destruct (sum_step_reads lo hi agg r acc tb p) as [p1 ->].
  apply IH.
Qed.

Lemma sum_fold_first_per_key tb lo hi agg rids total seen :
  (foldl (sum_step_pure tb lo hi agg) (total, seen) rids).1
  = total + foldr Z.add 0
              ((fun e : Z * option Z => default 0 e.2)
                 <$> first_per_key seen (omap (sum_entry tb lo hi agg) rids)).
Proof.
  revert total seen. induction rids as [|r rids IH]; intros total seen.
  - cbn. lia.
  - cbn [foldl omap list_omap]. unfold sum_step_pure at 2.
    destruct (sum_entry tb lo hi agg r) as [[kv v]|]; [|apply IH].
    cbn [first_per_key fst snd].
    destruct (decide (kv ∈ seen)); [apply IH|].
    rewrite IH. cbn. lia.
Qed.

(** [sum] computes [sum_fold]: it never raises and only touches pin
    counts. *)
Lemma sum_is_fold (lo hi : Z) (agg : nat) (q : Query) :
  exists p',
    sum lo hi agg q
    = (Ok (sum_fold (table q) lo hi agg), mkQuery (with_pins p' (table q)) (transaction q)).
Proof.
  unfold sum, sum_fold, lift, bind, get.
  destruct (locate_range (index (table q)) lo hi (key (table q))) as [|r rids] eqn:Hloc.
  - exists (pin_counts (bufferpool (table q))). rewrite with_pins_id. reflexivity.
  - destruct (sum_loop_reads lo hi agg (r :: rids) (0, []) (table q)
                (pin_counts (bufferpool (table q)))) as [p' Hloop].
    rewrite with_pins_id in Hloop. rewrite Hloop.
    exists p'. unfold ret. rewrite sum_fold_first_per_key. reflexivity.
Qed.

End Sum_facts.

Example S5_sum :
  (sum 1 5 1 S5).1 = Ok (SumInt 50) /\
  (update "t6" 3 [None; Some 99] S5).1 = Ok true /\
  (sum 1 5 1 (exec (update "t6" 3 [None; Some 99]) S5)).1 = Ok (SumInt 139) /\
  (sum 7 9 1 S5).1 = Ok SumFalse.
Proof. vm_compute. auto. Qed.

(** ** [delete] *)

Section Delete_facts.
Context {env : Env}.

Lemma dict_get_dict_del {V} (d : list (RID * V)) (k : RID) :
  dict_get (dict_del d k) k = None.
Proof.
  unfold dict_del. induction d as [|[k' v] d IH]; [reflexivity|].
  rewrite filter_cons. cbn [fst]. destruct (decide (k' ≠ k)) as [Hne|Heq]; [|exact IH].
  cbn [dict_get]. destruct (decide (k' = k)); [contradiction | exact IH].
Qed.

Lemma locate_index_delete_col (ix : Index) (col : nat) (value : Z) (r : RID) :
  locate (index_delete_col col value r ix) col value
  = filter (fun r' => r' ≠ r) (locate ix col value).
Proof.
  unfold locate, index_delete_col.
  destruct (indices ix !! col) as [m|] eqn:Hcol; [|rewrite Hcol; reflexivity].
  destruct (m !! value) as [old|] eqn:Hval.
  - cbn [indices]. rewrite lookup_insert_eq, lookup_insert_eq. reflexivity.
  - rewrite Hcol, Hval. reflexivity.
Qed.

Lemma base_page_at_alter (prs : list PageRange) (i j : nat) (f : Page -> Page) :
  alter (fun pr => mkPageRange (alter f j (base_pages pr)) (tail_pages pr)) i prs !! i
    ≫= (fun prg => base_pages prg !! j)
  = f <$> (prs !! i ≫= (fun prg => base_pages prg !! j)).
Proof.
  rewrite list_lookup_alter_eq. destruct (prs !! i) as [prg|]; [|reflexivity].
  cbn. rewrite list_lookup_alter_eq. reflexivity.
Qed.

Lemma lock_guard_table (k : Z) (mode : LockMode) (q q1 : Query) (ok : bool) :
  lock_guard k mode q = (ok, q1) ->
  exists lm, table q1 = set_lock_manager lm (table q).
Proof.
  unfold lock_guard. destruct (transaction q) as [tx|].
  - destruct (acquire_lock _ _ _ _) as [[|] lm]; intros [= <- <-]; exists lm; reflexivity.
  - intros [= <- <-]. exists (lock_manager (table q)).
    destruct (table q); reflexivity.
Qed.

(** What [delete] does at the RID the index gives, whatever the type of
    that RID: [delete] returns [False] and changes nothing when the
    key index has no RID for the key.  A delete that returns [True] acted on
    the first RID [r] of the key, a base page object lies at its position, and
    afterwards [r] is not in the page directory.  When the slot of [r] lies
    within that page's indirection vector, the slot holds the tombstone, and
    the key's index entry is the old one without [r], hence empty when [r]
    was the key's only RID.  When the slot lies beyond the vector, [r] was in
    the page directory and neither the pages nor the index are changed. *)
Lemma delete_at_located (primary_key : Z) (q : Query) :
  (locate (index (table q)) (key (table q)) primary_key = [] ->
   delete primary_key q = (Ok false, q)) /\
  (forall q',
   delete primary_key q = (Ok true, q') ->
   exists r rest base_page,
     locate (index (table q)) (key (table q)) primary_key = r :: rest /\
     base_page_at (table q) r = Some base_page /\
     dict_get (page_directory (table q')) r = None /\
     ((r.1.2 < length (indirection base_page))%nat ->
        (exists base_page',
            base_page_at (table q') r = Some base_page' /\
            indirection base_page' = <[r.1.2 := IEmpty]> (indirection base_page) /\
            indirection base_page' !! r.1.2 = Some IEmpty) /\
        locate (index (table q')) (key (table q')) primary_key
          = filter (fun r' => r' ≠ r) rest /\
        (rest = [] -> locate (index (table q')) (key (table q')) primary_key = [])) /\
     ((length (indirection base_page) <= r.1.2)%nat ->
        is_Some (dict_get (page_directory (table q)) r) /\
        page_ranges (table q') = page_ranges (table q) /\
        index (table q') = index (table q))).
Proof.
  unfold delete.
  destruct (locate (index (table q)) (key (table q)) primary_key) as [|r rest] eqn:Hloc.
  { split; [reflexivity | discriminate]. }
  split; [discriminate|]. intros q' Hdel.
  destruct (lock_guard primary_key LDelete q) as [[|] q1] eqn:Hlock; [|discriminate].
  destruct (lock_guard_table _ _ _ _ _ Hlock) as [lm Hq1].
  unfold lift in Hdel. rewrite Hq1 in Hdel.
  destruct r as [[[pr pi] ri] ty].
  unfold try_except, delete_try, bind, get, modify_base_page, modify_page_range, modify,
    index_delete, ret in Hdel.
  table_simpl.
  exists (pr, pi, ri, ty), rest.
  unfold base_page_at. cbn [fst snd].
  destruct (page_ranges (table q) !! pr ≫= (fun prg => base_pages prg !! pi))
    as [base_page|] eqn:Hpage; [|discriminate].
  exists base_page. split; [reflexivity|]. split; [reflexivity|].
  destruct (decide (length (indirection base_page) <= ri)%nat) as [Hout|Hin].
  - destruct (dict_get (page_directory (table q)) (pr, pi, ri, ty)) as [rec|] eqn:Hdir;
      table_simpl; [|discriminate].
    injection Hdel as <-. table_simpl.
    split; [apply dict_get_dict_del|]. split; [intros; lia|].
    intros _. split; [eauto | split; reflexivity].
  - assert (Hdir' : dict_get (page_directory (table q')) (pr, pi, ri, ty) = None
                    /\ page_ranges (table q')
                       = alter (fun prg =>
                                  mkPageRange
                                    (alter (fun p => mkPage (pages p)
                                                       (<[ri := IEmpty]> (indirection p))
                                                       (rid p) (start_time p)
                                                       (schema_encoding p) (num_records p))
                                           pi (base_pages prg))
                                    (tail_pages prg)) pr (page_ranges (table q))
                    /\ index (table q')
                       = index_delete_col (key (table q)) primary_key (pr, pi, ri, ty)
                           (index (table q))
                    /\ key (table q') = key (table q)).
    { destruct (dict_get (page_directory (table q)) (pr, pi, ri, ty)) as [rec|] eqn:Hdir;
        table_simpl; injection Hdel as <-; table_simpl;
        (split; [first [apply dict_get_dict_del | exact Hdir] | auto]). }
    destruct Hdir' as (Hgone & Hprs & Hix & Hkey).
    split; [exact Hgone|]. split; [|intros; lia].
    intros _. rewrite Hprs, Hix, Hkey, base_page_at_alter, Hpage, locate_index_delete_col, Hloc.
    rewrite filter_cons. case_decide; [congruence|].
    split; [|split; [reflexivity | intros ->; reflexivity]].
    eexists. split; [reflexivity|]. cbn [indirection]. split; [reflexivity|].
    apply list_lookup_insert_eq. lia.
Qed.

(** [delete] never reads or writes the buffer pool: the tombstone goes
    into the page object only. *)
Lemma delete_leaves_bufferpool (primary_key : Z) (q q' : Query) (res : Result bool) :
  delete primary_key q = (res, q') ->
  bufferpool (table q') = bufferpool (table q).
Proof.
  unfold delete. intros Hdel.
  destruct (locate (index (table q)) (key (table q)) primary_key) as [|r rest].
  { injection Hdel as <- <-. reflexivity. }
  destruct (lock_guard primary_key LDelete q) as [ok q1] eqn:Hlock.
  destruct (lock_guard_table _ _ _ _ _ Hlock) as [lm Hq1].
  destruct ok; [|injection Hdel as <- <-; rewrite Hq1; reflexivity].
  unfold lift in Hdel. rewrite Hq1 in Hdel.
  destruct r as [[[pr pi] ri] ty].
  unfold try_except, delete_try, bind, get, modify_base_page, modify_page_range, modify,
    index_delete, ret in Hdel.
  table_simpl.
  destruct (page_ranges (table q) !! pr ≫= _) as [base_page|]; table_simpl;
    [|injection Hdel as <- <-; reflexivity].
  destruct (decide _);
    destruct (dict_get (page_directory (table q)) (pr, pi, ri, ty));
    table_simpl; injection Hdel as <- <-; reflexivity.
Qed.

End Delete_facts.

(** S4: delete succeeds once, then the key is gone. *)
Example S4_delete :
  (delete 100 S1).1 = Ok true /\
  (select_version 100 0 [1; 1; 1] (-1) (exec (delete 100) S1)).1 = Ok [] /\
  (delete 100 (exec (delete 100) S1)).1 = Ok false.
Proof. vm_compute. auto. Qed.

(** After the key of a record was changed twice, the
    index entry of key 3 is a tail RID whose slot (1) lies beyond the one
    slot of base page 0.  [delete(3)] returns [True], yet it writes no
    tombstone and the index still locates the RID. *)
Lemma delete_without_tombstone :
  (delete 3 K3).1 = Ok true /\
  locate (index (table (exec (delete 3) K3))) 0 3 = [(0, 0, 1, tail)%nat] /\
  page_ranges (table (exec (delete 3) K3)) = page_ranges (table K3) /\
  (indirection <$> base_page_at (table (exec (delete 3) K3)) (0, 0, 1, tail)%nat)
    = Some [INone].
Proof. vm_compute. auto. Qed.

(** ** [update] *)

Section Update_facts.
Context {env : Env}.

Lemma same_but_pages_refl s : same_but_pages s s.
Proof. unfold same_but_pages. destruct s; reflexivity. Qed.

Lemma tail_page_at_alter (prs : list PageRange) (i j : nat) (f : Page -> Page) :
  alter (fun pr => mkPageRange (base_pages pr) (alter f j (tail_pages pr))) i prs !! i
    ≫= (fun prg => tail_pages prg !! j)
  = f <$> (prs !! i ≫= (fun prg => tail_pages prg !! j)).
Proof.
  rewrite list_lookup_alter_eq. destruct (prs !! i) as [prg|]; [|reflexivity].
  cbn. rewrite list_lookup_alter_eq. reflexivity.
Qed.

Lemma base_pages_alter_tail (prs : list PageRange) (i : nat) (f : list Page -> list Page) :
  base_pages <$> alter (fun pr => mkPageRange (base_pages pr) (f (tail_pages pr))) i prs
  = base_pages <$> prs.
Proof.
  revert i. induction prs as [|prg prs IH]; intros [|i]; cbn; f_equal; auto.
Qed.

(** The loop that writes the tail row: every written column gets its value
    appended in the snapshot, the other columns are untouched, and in the
    table only the physical pages of the one tail page change. *)
Lemma write_tail_columns_Ok pr tp values : forall i cols cols' s s',
  write_tail_columns pr tp i values cols s = (Ok cols', s') ->
  same_but_pages s s' /\
  base_pages <$> page_ranges s' = base_pages <$> page_ranges s /\
  indirection <$> tail_page_at s' pr tp = indirection <$> tail_page_at s pr tp /\
  rid <$> tail_page_at s' pr tp = rid <$> tail_page_at s pr tp /\
  length cols' = length cols /\
  (forall j, (j < i)%nat -> cols' !! j = cols !! j) /\
  (forall k v, values !! k = Some v ->
     exists c, cols !! (i + k)%nat = Some c /\ cols' !! (i + k)%nat = Some (c ++ [v])).
Proof.
  induction values as [|value values IH]; intros i cols cols' s s' Hrun.
  - injection Hrun as <- <-. repeat split; auto using same_but_pages_refl.
    intros k v Hk. rewrite lookup_nil in Hk. discriminate.
  - cbn [write_tail_columns] in Hrun.
    apply bind_Ok in Hrun as (c & s1 & Hc & Hrun). apply of_option_Ok in Hc as [Hc ->].
    apply bind_Ok in Hrun as (tb & s1 & Hget & Hrun). injection Hget as <- <-.
    apply bind_Ok in Hrun as (tail_page & s1 & Htp & Hrun).
    apply of_option_Ok in Htp as [Htp ->].
    apply bind_Ok in Hrun as (pp & s1 & Hpp & Hrun). apply of_option_Ok in Hpp as [Hpp ->].
    apply bind_Ok in Hrun as (pp' & s1 & Hpp' & Hrun). apply of_option_Ok in Hpp' as [Hpp' ->].
    apply bind_Ok in Hrun as ([] & s1 & Hmod & Hrun).
    unfold modify_tail_page, modify_page_range, modify in Hmod. injection Hmod as <-.
    apply IH in Hrun as (Hsame & Hbase & Hind & Hrid & Hlen & Hbelow & Hwritten).
    table_simpl. unfold tail_page_at in *. table_simpl.
    rewrite tail_page_at_alter in Hind, Hrid.
    rewrite (base_pages_alter_tail _ pr (alter _ tp)) in Hbase.
    rewrite length_insert in Hlen.
    split; [|split; [exact Hbase|split; [|split; [|split; [exact Hlen|split]]]]].
    + unfold same_but_pages in *. rewrite Hsame. reflexivity.
    + rewrite Hind. destruct (_ ≫= _); reflexivity.
    + rewrite Hrid. destruct (_ ≫= _); reflexivity.
    + intros j Hj. rewrite Hbelow by lia. apply list_lookup_insert_ne. lia.
    + intros [|k] v Hk.
      * injection Hk as ->. rewrite Nat.add_0_r. exists c. split; [exact Hc|].
        rewrite Hbelow by lia. apply list_lookup_insert_eq. eapply lookup_lt_Some, Hc.
      * cbn in Hk. destruct (Hwritten k v Hk) as (c0 & Hc0 & Hc0').
        replace (i + S k)%nat with (S i + k)%nat by lia.
        exists c0. split; [|exact Hc0'].
        rewrite list_lookup_insert_ne in Hc0 by lia. exact Hc0.
Qed.

Lemma get_page_Ok id tb v s :
  get_page id tb = (Ok v, s) ->
  v = page_data_of tb id /\
  s = with_pins (<[id := pin_count (bufferpool tb) id + 1]> (pin_counts (bufferpool tb))) tb.
Proof. intros [= <- <-]. split; reflexivity. Qed.

Lemma _get_latest_version_Ok r p tb v s :
  _get_latest_version r (with_pins p tb) = (Ok v, s) ->
  v = latest_of tb r /\
  exists p', s = with_pins p' tb /\ forall id, default 0 (p' !! id) = default 0 (p !! id).
Proof.
  destruct (_get_latest_version_reads r tb p) as [p' [-> Hp']]. intros [= <- <-]. eauto.
Qed.

Lemma dict_del_absent {V} (d : list (RID * V)) (k : RID) :
  dict_get d k = None -> dict_del d k = d.
Proof.
  unfold dict_del. induction d as [|[k' v] d IH]; [reflexivity|].
  cbn [dict_get]. destruct (decide (k' = k)) as [->|Hne]; [discriminate|].
  intros Hd. rewrite filter_cons. cbn [fst]. rewrite decide_True by exact Hne.
  f_equal. exact (IH Hd).
Qed.

(** After [ensure_tail_page] the range has a last tail page, which is
    either a page that was there or a fresh one; nothing but the page range
    changed. *)
Lemma ensure_tail_page_Ok pr page_range s s1 :
  page_ranges s !! pr = Some page_range ->
  ensure_tail_page pr page_range s = (Ok tt, s1) ->
  exists page_range' tail_page,
    same_but_pages s s1 /\
    page_ranges s1 !! pr = Some page_range' /\
    base_pages <$> page_ranges s1 = base_pages <$> page_ranges s /\
    tail_pages page_range' !! pred (length (tail_pages page_range')) = Some tail_page /\
    (tail_page_at s pr (pred (length (tail_pages page_range'))) = Some tail_page \/
     tail_page = new_page (num_columns s)).
Proof.
  intros Hpr Hrun. unfold ensure_tail_page in Hrun.
  apply bind_Ok in Hrun as (needs_page & s0 & Hneeds & Hrun).
  assert (Hs0 : s0 = s /\ (needs_page = false -> exists p, last (tail_pages page_range) = Some p)).
  { destruct (last (tail_pages page_range)) as [p|] eqn:Hlast.
    - apply bind_Ok in Hneeds as (c & s' & Hc & Hneeds). apply of_option_Ok in Hc as [_ ->].
      injection Hneeds as <- <-. eauto.
    - injection Hneeds as <- <-. split; [reflexivity | discriminate]. }
  destruct Hs0 as [-> Hlast]. destruct needs_page.
  - apply bind_Ok in Hrun as (n & s0 & Hn & Hrun). injection Hn as <- <-.
    unfold modify_page_range, modify in Hrun. injection Hrun as <-.
    exists (add_tail_page (num_columns s) page_range), (new_page (num_columns s)).
    table_simpl. split; [reflexivity|]. rewrite list_lookup_alter_eq, Hpr.
    split; [reflexivity|]. split.
    { apply (base_pages_alter_tail _ pr (fun l => l ++ [new_page (num_columns s)])). }
    cbn [add_tail_page tail_pages]. rewrite length_app, Nat.add_1_r. cbn [pred].
    split; [|right; reflexivity].
    rewrite lookup_app_r by lia. rewrite Nat.sub_diag. reflexivity.
  - injection Hrun as <-. destruct (Hlast eq_refl) as [p Hp].
    exists page_range, p. split; [apply same_but_pages_refl|]. split; [exact Hpr|].
    split; [reflexivity|]. rewrite last_lookup in Hp. split; [exact Hp|].
    left. unfold tail_page_at. rewrite Hpr. exact Hp.
Qed.

Lemma update_key_change_Ok pk new_key latest tail_rid s s' :
  update_key_change pk new_key latest tail_rid s = (Ok tt, s') ->
  s' = set_index (index s') (set_page_directory (page_directory s') s) /\
  page_directory s'
  = (if decide (new_key ≠ pk) then dict_del (page_directory s) latest else page_directory s) /\
  index s'
  = (if decide (new_key ≠ pk)
     then match indices (index s) !! key s with
          | Some _ => index_insert_col (key s) new_key tail_rid
                        (index_delete_col (key s) pk latest (index s))
          | None => index s
          end
     else index s).
Proof.
  unfold update_key_change. destruct (decide (new_key ≠ pk)) as [Hne|Heq].
  - intros Hrun.
    apply bind_Ok in Hrun as (tb & s0 & Hget & Hrun). injection Hget as <- <-.
    apply bind_Ok in Hrun as ([] & s1 & Hdel & Hrun).
    assert (Hs1 : s1 = set_page_directory (dict_del (page_directory s) latest) s).
    { destruct (dict_get (page_directory s) latest) eqn:Hd.
      - injection Hdel as <-. reflexivity.
      - injection Hdel as <-. rewrite dict_del_absent by exact Hd. destruct s; reflexivity. }
    subst s1.
    destruct (indices (index s) !! key s).
    + apply bind_Ok in Hrun as ([] & s1 & Hd & Hrun).
      unfold index_delete, modify in Hd. injection Hd as <-.
      unfold index_insert, modify in Hrun. injection Hrun as <-.
      table_simpl. repeat split.
    + injection Hrun as <-. table_simpl. repeat split.
  - intros [= <-]. repeat split. destruct s; reflexivity.
Qed.

Lemma count_update_Ok s s' :
  count_update s = (Ok tt, s') ->
  s' = set_merge_scheduled (merge_scheduled s') (set_merge_counter (merge_counter s') s).
Proof.
  unfold count_update. intros Hrun.
  apply bind_Ok in Hrun as ([] & s0 & Hm & Hrun). unfold modify in Hm. injection Hm as <-.
  apply bind_Ok in Hrun as (tb & s0 & Hget & Hrun). injection Hget as <- <-.
  destruct (decide _).
  - apply bind_Ok in Hrun as ([] & s0 & Hm & Hrun). unfold modify in Hm. injection Hm as <-.
    unfold trigger_merge, modify in Hrun. injection Hrun as <-. reflexivity.
  - injection Hrun as <-. destruct s; reflexivity.
Qed.


(** What a successful run of the [try] block of [update] leaves behind,
    in terms of the table it started from. *)
Lemma update_try_Ok now pk cols pr pi ri ty tb tb' :
  update_try now pk cols (pr, pi, ri, ty) tb = (Ok true, tb') ->
  exists page_range base_record original_key tail_page_idx td_columns schema tail_page,
    let base_rid : RID := (pr, pi, ri, ty) in
    let bd := page_data_of tb (base, pr, pi) in
    let td := page_data_of tb (tail, pr, tail_page_idx) in
    let latest := latest_of tb base_rid in
    let tail_rid : RID := (pr, tail_page_idx, length (d_rid td), tail) in
    let row := build_tail_columns (num_columns tb) (key tb) original_key cols
                 (default base_record (dict_get (page_directory tb) latest)) in
    let new_key := update_new_key tb pk cols in
    let directory := dict_set (page_directory tb) tail_rid (mkRecord (IRid tail_rid) pk row) in
    page_ranges tb !! pr = Some page_range /\
    dict_get (page_directory tb) base_rid = Some base_record /\
    rec_columns base_record !! key tb = Some original_key /\
    (ri < length (d_indirection bd))%nat /\
    frames (bufferpool tb')
    = <[(tail, pr, tail_page_idx) :=
          mkPageData td_columns (d_rid td ++ [tail_rid]) (timestamp td ++ [now])
                     (d_schema_encoding td ++ [schema]) (d_indirection td ++ [IRid latest])]>
        (<[(base, pr, pi) :=
             mkPageData (columns bd) (d_rid bd) (timestamp bd) (d_schema_encoding bd)
                        (<[ri := IRid tail_rid]> (d_indirection bd))]>
           (frames (bufferpool tb))) /\
    length td_columns = length (columns td) /\
    (forall k v, row !! k = Some v ->
       exists c, columns td !! k = Some c /\ td_columns !! k = Some (c ++ [v])) /\
    page_directory tb'
    = (if decide (new_key ≠ pk) then dict_del directory latest else directory) /\
    index tb'
    = (if decide (new_key ≠ pk)
       then match indices (index tb) !! key tb with
            | Some _ => index_insert_col (key tb) new_key tail_rid
                          (index_delete_col (key tb) pk latest (index tb))
            | None => index tb
            end
       else index tb) /\
    base_pages <$> page_ranges tb' = base_pages <$> page_ranges tb /\
    key tb' = key tb /\ num_columns tb' = num_columns tb /\
    (tail_page_at tb pr tail_page_idx = Some tail_page \/
     tail_page = new_page (num_columns tb)) /\
    indirection <$> tail_page_at tb' pr tail_page_idx
    = Some (indirection tail_page ++ [IRid latest]) /\
    rid <$> tail_page_at tb' pr tail_page_idx = Some (rid tail_page ++ [tail_rid]) /\
    forall id, pin_count (bufferpool tb') id = pin_count (bufferpool tb) id.
Proof.
  intros Hrun. unfold update_try in Hrun.
  apply bind_Ok in Hrun as (tb0 & ? & Hget & Hrun). injection Hget as <- <-.
  apply bind_Ok in Hrun as (page_range & ? & Hpr & Hrun). apply of_option_Ok in Hpr as [Hpr ->].
  apply bind_Ok in Hrun as (bd & ? & Hbd & Hrun). apply get_page_Ok in Hbd as [-> ->].
  apply bind_Ok in Hrun as (latest & ? & Hlatest & Hrun).
  apply _get_latest_version_Ok in Hlatest as [-> [p1 [-> Hpin1]]].
  apply bind_Ok in Hrun as (base_record & ? & Hrec & Hrun).
  apply of_option_Ok in Hrec as [Hrec ->].
  apply bind_Ok in Hrun as ([] & s1 & Hensure & Hrun).
  apply ensure_tail_page_Ok in Hensure
    as (page_range' & tail_page & Hs1 & Hpr' & Hbase1 & Hlast & Htail); [|exact Hpr].
  apply bind_Ok in Hrun as (tb1 & ? & Hget & Hrun). injection Hget as <- <-.
  apply bind_Ok in Hrun as (page_range1 & ? & Hpr1 & Hrun).
  apply of_option_Ok in Hpr1 as [Hpr1 ->].
  rewrite Hpr' in Hpr1. injection Hpr1 as <-.
  set (tail_page_idx := pred (length (tail_pages page_range'))) in *.
  apply bind_Ok in Hrun as (td & ? & Htd & Hrun). apply get_page_Ok in Htd as [-> ->].
  apply bind_Ok in Hrun as (schema & ? & Hschema & Hrun).
  apply of_option_Ok in Hschema as [Hschema ->].
  apply bind_Ok in Hrun as (original_key & ? & Hkey & Hrun).
  apply of_option_Ok in Hkey as [Hkey ->].
  apply bind_Ok in Hrun as (td_columns & s2 & Hwrite & Hrun).
  apply write_tail_columns_Ok in Hwrite as (Hs2 & Hbase2 & Hind2 & Hrid2 & Hlen & _ & Hwritten).
  apply bind_Ok in Hrun as ([] & ? & Hmod & Hrun).
  unfold modify_tail_page, modify_page_range, modify in Hmod. injection Hmod as <-.
  apply bind_Ok in Hrun as ([] & ? & Hri & Hrun).
  destruct (decide (ri < length _)%nat) as [Hri'|]; [|discriminate]. injection Hri as <-.
  apply bind_Ok in Hrun as ([] & ? & Hset1 & Hrun).
  unfold set_page, modify in Hset1. injection Hset1 as <-.
  apply bind_Ok in Hrun as ([] & ? & Hset2 & Hrun).
  unfold set_page, modify in Hset2. injection Hset2 as <-.
  apply bind_Ok in Hrun as ([] & ? & Hdir & Hrun).
  unfold modify in Hdir. injection Hdir as <-.
  apply bind_Ok in Hrun as ([] & s3 & Hchange & Hrun).
  apply update_key_change_Ok in Hchange as (Hs3 & Hdir3 & Hix3).
  apply bind_Ok in Hrun as ([] & ? & Hunpin1 & Hrun).
  unfold unpin_page, modify in Hunpin1. injection Hunpin1 as <-.
  apply bind_Ok in Hrun as ([] & ? & Hunpin2 & Hrun).
  unfold unpin_page, modify in Hunpin2. injection Hunpin2 as <-.
  apply bind_Ok in Hrun as ([] & s4 & Hcount & Hrun).
  apply count_update_Ok in Hcount. injection Hrun as <-.
  unfold same_but_pages in Hs1, Hs2.
  assert (Hp1 : bufferpool s1 = bufferpool (with_pins p1 tb)
                /\ page_directory s1 = page_directory tb /\ index s1 = index tb
                /\ key s1 = key tb /\ num_columns s1 = num_columns tb)
    by (rewrite Hs1; repeat split).
  destruct Hp1 as (Hbp1 & Hdir1 & Hix1 & Hkey1 & Hn1).
  assert (Hpd1 : forall id, page_data_of s1 id = page_data_of tb id)
    by (intros id; unfold page_data_of; rewrite Hbp1, Hn1; reflexivity).
  rewrite !Hpd1 in *.
  assert (Hp2 : frames (bufferpool s2) = frames (bufferpool tb)
                /\ page_directory s2 = page_directory tb /\ index s2 = index tb
                /\ key s2 = key tb /\ num_columns s2 = num_columns tb
                /\ pin_counts (bufferpool s2)
                   = <[(tail, pr, tail_page_idx) :=
                         default 0 (p1 !! (tail, pr, tail_page_idx)) + 1]> p1).
  { rewrite Hs2. table_simpl. unfold with_pins. table_simpl. rewrite Hbp1.
    repeat split; auto. }
  destruct Hp2 as (Hf2 & Hdir2 & Hix2 & Hkey2 & Hn2 & Hpins2).
  rewrite Hf2, Hdir2 in *. table_simpl.
  assert (Hp3 : frames (bufferpool s3)
                = <[(tail, pr, tail_page_idx) :=
                      mkPageData td_columns
                        (d_rid (page_data_of tb (tail, pr, tail_page_idx))
                           ++ [(pr, tail_page_idx,
                                length (d_rid (page_data_of tb (tail, pr, tail_page_idx))),
                                tail)])
                        (timestamp (page_data_of tb (tail, pr, tail_page_idx)) ++ [now])
                        (d_schema_encoding (page_data_of tb (tail, pr, tail_page_idx))
                           ++ [string_of_list_ascii schema])
                        (d_indirection (page_data_of tb (tail, pr, tail_page_idx))
                           ++ [IRid (latest_of tb (pr, pi, ri, ty))])]>
                    (<[(base, pr, pi) :=
                         mkPageData (columns (page_data_of tb (base, pr, pi)))
                           (d_rid (page_data_of tb (base, pr, pi)))
                           (timestamp (page_data_of tb (base, pr, pi)))
                           (d_schema_encoding (page_data_of tb (base, pr, pi)))
                           (<[ri := IRid (pr, tail_page_idx,
                                          length (d_rid (page_data_of tb
                                                           (tail, pr, tail_page_idx))),
                                          tail)]>
                              (d_indirection (page_data_of tb (base, pr, pi))))]>
                       (frames (bufferpool tb)))
                /\ key s3 = key tb /\ num_columns s3 = num_columns tb
                /\ page_ranges s3
                   = alter (fun prg =>
                              mkPageRange (base_pages prg)
                                (alter (fun p =>
                                          mkPage (pages p)
                                            (indirection p
                                               ++ [IRid (latest_of tb (pr, pi, ri, ty))])
                                            (rid p
                                               ++ [(pr, tail_page_idx,
                                                    length (d_rid (page_data_of tb
                                                              (tail, pr, tail_page_idx))),
                                                    tail)])
                                            (start_time p ++ [now])
                                            (schema_encoding p ++ [string_of_list_ascii schema])
                                            (S (num_records p)))
                                       tail_page_idx (tail_pages prg)))
                           pr (page_ranges s2)
                /\ pin_counts (bufferpool s3) = pin_counts (bufferpool s2)).
  { rewrite Hs3. table_simpl. rewrite Hkey2, Hn2. repeat split. }
  destruct Hp3 as (Hf3 & Hkey3 & Hn3 & Hprs3 & Hpins3).
  assert (Hp4 : frames (bufferpool s4) = frames (bufferpool s3)
                /\ page_directory s4 = page_directory s3 /\ index s4 = index s3
                /\ key s4 = key s3 /\ num_columns s4 = num_columns s3
                /\ page_ranges s4 = page_ranges s3
                /\ pin_counts (bufferpool s4)
                   = <[(base, pr, pi) :=
                         default 0 (<[(tail, pr, tail_page_idx) :=
                                        default 0 (pin_counts (bufferpool s3)
                                                     !! (tail, pr, tail_page_idx)) - 1]>
                                      (pin_counts (bufferpool s3)) !! (base, pr, pi)) - 1]>
                       (<[(tail, pr, tail_page_idx) :=
                            default 0 (pin_counts (bufferpool s3)
                                         !! (tail, pr, tail_page_idx)) - 1]>
                          (pin_counts (bufferpool s3))))
    by (rewrite Hcount; repeat split).
  destruct Hp4 as (Hf4 & Hdir4 & Hix4 & Hkey4 & Hn4 & Hprs4 & Hpins4).
  exists page_range, base_record, original_key, tail_page_idx, td_columns,
    (string_of_list_ascii schema), tail_page.
  cbn zeta. unfold update_new_key.
  rewrite Hf4, Hdir4, Hix4, Hkey4, Hn4, Hf3, Hdir3, Hix3, Hkey3, Hn3.
  table_simpl. rewrite Hix2, Hkey2.
  split; [exact Hpr|]. split; [exact Hrec|]. split; [exact Hkey|]. split; [exact Hri'|].
  split; [reflexivity|]. split; [exact Hlen|]. split; [exact Hwritten|].
  split; [reflexivity|]. split; [reflexivity|].
  unfold tail_page_at in *. rewrite Hprs4, Hprs3.
  rewrite (base_pages_alter_tail _ pr (alter _ tail_page_idx)).
  rewrite tail_page_at_alter.
  split; [rewrite Hbase2; exact Hbase1|]. split; [reflexivity|]. split; [reflexivity|].
  split; [exact Htail|].
  assert (Htp2 : indirection <$> (page_ranges s2 !! pr ≫= (fun prg => tail_pages prg !! tail_page_idx))
                 = Some (indirection tail_page)
                 /\ rid <$> (page_ranges s2 !! pr ≫= (fun prg => tail_pages prg !! tail_page_idx))
                 = Some (rid tail_page)).
  { rewrite Hind2, Hrid2. unfold with_pins. table_simpl. rewrite Hpr'. cbn. rewrite Hlast.
    split; reflexivity. }
  destruct Htp2 as [Hi Hr].
  destruct (page_ranges s2 !! pr ≫= _) as [tp2|]; [|discriminate].
  injection Hi as Hi. injection Hr as Hr. cbn. rewrite Hi, Hr.
  split; [reflexivity|]. split; [reflexivity|].
  intros page_id. unfold pin_count. rewrite Hpins4, Hpins3, Hpins2.
  assert (Hbt : (base, pr, pi) ≠ (tail, pr, tail_page_idx)) by discriminate.
  assert (Htb : (tail, pr, tail_page_idx) ≠ (base, pr, pi)) by discriminate.
  destruct (decide ((base, pr, pi) = page_id)) as [<-|Hb];
    [|destruct (decide ((tail, pr, tail_page_idx) = page_id)) as [<-|Ht]];
    repeat first [rewrite lookup_insert_eq | rewrite lookup_insert_ne by assumption
                 | progress cbn [default from_option]];
    rewrite ?Hpin1;
    repeat first [rewrite lookup_insert_eq | rewrite lookup_insert_ne by assumption
                 | progress cbn [default from_option]];
    unfold pin_count, id; lia.
Qed.

(** A successful [update] found a RID, passed the lock step and ran its
    [try] block to the end. *)
Lemma update_Ok now pk cols q q' :
  update now pk cols q = (Ok true, q') ->
  exists base_rid rest lm,
    locate (index (table q)) (key (table q)) pk = base_rid :: rest /\
    update_try now pk cols base_rid (set_lock_manager lm (table q)) = (Ok true, table q').
Proof.
  unfold update. intros Hrun.
  destruct (locate (index (table q)) (key (table q)) pk) as [|base_rid rest]; [discriminate|].
  destruct (lock_guard pk LUpdate q) as [[|] q1] eqn:Hlock; [|discriminate].
  destruct (lock_guard_table _ _ _ _ _ Hlock) as [lm Hq1].
  exists base_rid, rest, lm. split; [reflexivity|].
  unfold lift, try_except in Hrun. rewrite Hq1 in Hrun.
  destruct (update_try now pk cols base_rid (set_lock_manager lm (table q)))
    as [[[|]|e] tb'] eqn:Htry.
  - injection Hrun as <-. reflexivity.
  - discriminate.
  - discriminate.
Qed.

Lemma build_tail_columns_lookup n key_col original_key cols current_record c :
  (c < n)%nat ->
  build_tail_columns n key_col original_key cols current_record !! c
  = Some (if decide (c = key_col) then original_key
          else match cols !! c with
               | Some (Some v) => v
               | _ => default 0 (rec_columns current_record !! c)
               end).
Proof.
  intros Hc. unfold build_tail_columns.
  rewrite list_lookup_fmap, lookup_seq_lt by exact Hc. reflexivity.
Qed.

(** On the success path every page that [update] pinned is unpinned again:
    the pin counts are what they were. *)
Lemma update_success_unpins now pk cols q q' :
  update now pk cols q = (Ok true, q') ->
  forall page_id,
    pin_count (bufferpool (table q')) page_id = pin_count (bufferpool (table q)) page_id.
Proof.
  intros Hrun page_id.
  apply update_Ok in Hrun as ([[[pr pi] ri] ty] & rest & lm & Hloc & Htry).
  apply update_try_Ok in Htry
    as (? & ? & ? & ? & ? & ? & ?
        & _ & _ & _ & _ & _ & _ & _ & _ & _ & _ & _ & _ & _ & _ & _ & Hpins).
  rewrite Hpins. reflexivity.
Qed.

(** [update] and [delete] hand every exception of their [try] block to a
    handler that returns [False]: they never raise. *)
Lemma update_never_raises now pk cols q :
  exists res q', update now pk cols q = (Ok res, q').
Proof.
  unfold update.
  destruct (locate (index (table q)) (key (table q)) pk) as [|base_rid rest];
    [eexists _, _; reflexivity|].
  destruct (lock_guard pk LUpdate q) as [[|] q1]; [|eexists _, _; reflexivity].
  unfold lift, try_except.
  destruct (update_try now pk cols base_rid (table q1)) as [[res|e] tb'];
    eexists _, _; reflexivity.
Qed.

Lemma delete_never_raises pk q :
  exists res q', delete pk q = (Ok res, q').
Proof.
  unfold delete.
  destruct (locate (index (table q)) (key (table q)) pk) as [|r rest];
    [eexists _, _; reflexivity|].
  destruct (lock_guard pk LDelete q) as [[|] q1]; [|eexists _, _; reflexivity].
  unfold lift, try_except.
  destruct (delete_try pk r (table q1)) as [[res|e] tb']; eexists _, _; reflexivity.
Qed.

(** What a successful [update] links, at the RID [b] the index gives for
    the key, whatever the type of [b]: the buffer pool's tail page has one
    more record, whose RID is the new tail RID and whose indirection entry is
    the pointer held by the base slot at the position of [b], or [b] itself
    when that slot holds none (or the tombstone); that base slot receives the
    new tail RID; and the tail page object received the same two entries.
    For a base RID [b] these are the record's own slot and its latest
    version. *)
Lemma update_links_versions (now : string) (primary_key : Z) (cols : list (option Z))
    (q q' : Query) :
  update now primary_key cols q = (Ok true, q') ->
  exists page_range_idx page_idx record_idx page_type rest tail_page_idx new_base new_tail
         tail_page,
    let b : RID := (page_range_idx, page_idx, record_idx, page_type) in
    let old_base := page_data_of (table q) (base, page_range_idx, page_idx) in
    let old_tail := page_data_of (table q) (tail, page_range_idx, tail_page_idx) in
    let latest := match d_indirection old_base !! record_idx with
                  | Some (IRid forward) => forward
                  | _ => b
                  end in
    let tail_rid : RID := (page_range_idx, tail_page_idx, length (d_rid old_tail), tail) in
    locate (index (table q)) (key (table q)) primary_key = b :: rest /\
    frames (bufferpool (table q')) !! (base, page_range_idx, page_idx) = Some new_base /\
    frames (bufferpool (table q')) !! (tail, page_range_idx, tail_page_idx) = Some new_tail /\
    d_rid new_tail = d_rid old_tail ++ [tail_rid] /\
    d_indirection new_tail = d_indirection old_tail ++ [IRid latest] /\
    (length (d_indirection old_tail) = length (d_rid old_tail) ->
     d_indirection new_tail !! length (d_rid old_tail) = Some (IRid latest)) /\
    d_indirection new_base = <[record_idx := IRid tail_rid]> (d_indirection old_base) /\
    d_indirection new_base !! record_idx = Some (IRid tail_rid) /\
    tail_page_at (table q') page_range_idx tail_page_idx = Some tail_page /\
    last (rid tail_page) = Some tail_rid /\
    last (indirection tail_page) = Some (IRid latest).
Proof.
  intros Hrun. apply update_Ok in Hrun as ([[[pr pi] ri] ty] & rest & lm & Hloc & Htry).
  apply update_try_Ok in Htry
    as (page_range & base_record & original_key & tail_page_idx & td_columns & schema & tp0
        & _ & _ & _ & Hri & Hframes & _ & _ & _ & _ & _ & _ & _ & _ & Hind & Hrid & _).
  cbn zeta in *.
  change (page_data_of (set_lock_manager lm (table q))) with (page_data_of (table q)) in *.
  change (latest_of (set_lock_manager lm (table q)) (pr, pi, ri, ty))
    with (match d_indirection (page_data_of (table q) (base, pr, pi)) !! ri with
          | Some (IRid forward) => forward
          | _ => (pr, pi, ri, ty)
          end) in *.
  destruct (tail_page_at (table q') pr tail_page_idx) as [tail_page|] eqn:Htp;
    [|discriminate].
  injection Hind as Hind. injection Hrid as Hrid.
  exists pr, pi, ri, ty, rest, tail_page_idx. eexists _, _, tail_page.
  split; [exact Hloc|].
  split; [rewrite Hframes; rewrite lookup_insert_ne by discriminate;
          apply lookup_insert_eq|].
  split; [rewrite Hframes; apply lookup_insert_eq|].
  cbn [d_rid d_indirection].
  split; [reflexivity|]. split; [reflexivity|].
  split; [intros Hlen; rewrite lookup_app_r by lia; rewrite Hlen, Nat.sub_diag; reflexivity|].
  split; [reflexivity|].
  split; [apply list_lookup_insert_eq; exact Hri|].
  split; [exact Htp|].
  rewrite Hind, Hrid, !last_snoc. split; reflexivity.
Qed.

(** The row a successful [update] appends, at the RID [b] the index gives
    for the key, whatever the type of [b]: each of the [num_columns] columns
    receives one value, which is the key column of the page directory's
    record of [b] for the key column (whatever value the caller supplied for
    it), the supplied value for another column that is not null, and
    otherwise the value of that column in the page directory's record of
    [latest_of (table q) b], or of [b] when it has none (0 when that record
    has no such column). *)
Lemma update_tail_row_located (now : string) (primary_key : Z) (cols : list (option Z))
    (q q' : Query) :
  update now primary_key cols q = (Ok true, q') ->
  exists b rest base_record original_key tail_page_idx new_tail,
    let current_record :=
      default base_record (dict_get (page_directory (table q)) (latest_of (table q) b)) in
    let old_tail := page_data_of (table q) (tail, b.1.1.1, tail_page_idx) in
    locate (index (table q)) (key (table q)) primary_key = b :: rest /\
    dict_get (page_directory (table q)) b = Some base_record /\
    rec_columns base_record !! key (table q) = Some original_key /\
    frames (bufferpool (table q')) !! (tail, b.1.1.1, tail_page_idx) = Some new_tail /\
    length (columns new_tail) = length (columns old_tail) /\
    (num_columns (table q) <= length (columns new_tail))%nat /\
    forall c, (c < num_columns (table q))%nat ->
      exists col,
        columns old_tail !! c = Some col /\
        columns new_tail !! c
        = Some (col ++ [if decide (c = key (table q)) then original_key
                        else match cols !! c with
                             | Some (Some v) => v
                             | _ => default 0 (rec_columns current_record !! c)
                             end]).
Proof.
  intros Hrun. apply update_Ok in Hrun as ([[[pr pi] ri] ty] & rest & lm & Hloc & Htry).
  apply update_try_Ok in Htry
    as (page_range & base_record & original_key & tail_page_idx & td_columns & schema & tp0
        & _ & Hrec & Hkey & _ & Hframes & Hlen & Hwritten & _).
  cbn zeta in *.
  change (page_data_of (set_lock_manager lm (table q))) with (page_data_of (table q)) in *.
  change (latest_of (set_lock_manager lm (table q))) with (latest_of (table q)) in *.
  table_simpl.
  exists (pr, pi, ri, ty), rest, base_record, original_key, tail_page_idx. eexists.
  split; [exact Hloc|]. split; [exact Hrec|]. split; [exact Hkey|].
  split; [rewrite Hframes; apply lookup_insert_eq|].
  cbn [columns]. split; [exact Hlen|].
  assert (Hcol : forall c, (c < num_columns (table q))%nat ->
            exists col,
              columns (page_data_of (table q) (tail, pr, tail_page_idx)) !! c = Some col /\
              td_columns !! c
              = Some (col ++ [if decide (c = key (table q)) then original_key
                              else match cols !! c with
                                   | Some (Some v) => v
                                   | _ => default 0
                                            (rec_columns
                                               (default base_record
                                                  (dict_get (page_directory (table q))
                                                     (latest_of (table q) (pr, pi, ri, ty))))
                                               !! c)
                                   end])).
  { intros c Hc. apply Hwritten. apply build_tail_columns_lookup. exact Hc. }
  split; [|exact Hcol].
  destruct (num_columns (table q)) as [|n] eqn:Hn; [lia|].
  destruct (Hcol n ltac:(lia)) as (col & _ & Hlast).
  apply lookup_lt_Some in Hlast. lia.
Qed.

Lemma latest_loop_reads n : forall current visited tb p,
  exists v p', latest_loop n current visited (with_pins p tb) = (Ok v, with_pins p' tb).
Proof.
  induction n as [|n IH]; intros [[[pr pi] ri] ty] visited tb p.
  - eexists _, _. reflexivity.
  - cbn [latest_loop]. unfold bind, get_page, unpin_page, modify, ret, with_pins.
    table_simpl.
    destruct (d_indirection _ !! ri) as [[| |next_rid]|]; try (eexists _, _; reflexivity).
    destruct (decide (next_rid ∈ visited)); [eexists _, _; reflexivity|].
    table_simpl. apply (IH next_rid (next_rid :: visited) tb).
Qed.

Lemma _safely_get_latest_version_reads r tb p :
  exists v p', _safely_get_latest_version r (with_pins p tb) = (Ok v, with_pins p' tb).
Proof.
  unfold _safely_get_latest_version, try_except, bind.
  destruct (latest_loop_reads 1000 r [r] tb p) as (v & p' & ->).
  destruct v; eexists _, _; reflexivity.
Qed.

Lemma dict_get_dict_set_ne {V} (d : list (RID * V)) (k k' : RID) (v : V) :
  k ≠ k' -> dict_get (dict_set d k v) k' = dict_get d k'.
Proof.
  intros Hne. induction d as [|[k0 v0] d IH]; cbn [dict_set dict_get].
  - rewrite decide_False by exact Hne. reflexivity.
  - destruct (decide (k0 = k)) as [->|Hk0]; cbn [dict_get].
    + rewrite !decide_False by exact Hne. reflexivity.
    + destruct (decide (k0 = k')); [reflexivity | exact IH].
Qed.

Lemma find_dict_set_fresh {V} (P : RID * V -> bool) (d : list (RID * V)) (k : RID) (v : V) :
  List.find P d = None -> P (k, v) = true -> List.find P (dict_set d k v) = Some (k, v).
Proof.
  intros Hnone HP. induction d as [|[k0 v0] d IH]; cbn [dict_set List.find].
  - rewrite HP. reflexivity.
  - cbn [List.find] in Hnone. destruct (P (k0, v0)) eqn:HP0; [discriminate|].
    destruct (decide (k0 = k)); cbn [List.find].
    + rewrite HP. reflexivity.
    + rewrite HP0. exact (IH Hnone).
Qed.

Lemma select_version_base_rid (rids : list RID) (r : RID) (rest : list RID) :
  rids = r :: rest -> r.2 = base ->
  match filter (fun r0 : RID => r0.2 = base) rids with
  | [] => r
  | b :: _ => b
  end = r.
Proof.
  intros -> Hr. rewrite filter_cons. rewrite decide_True by exact Hr. reflexivity.
Qed.

Lemma select_version_minus_1 k ski projection q r rest record :
  locate (index (table q)) ski k = r :: rest ->
  r.2 = base ->
  dict_get (page_directory (table q)) r = Some record ->
  (select_version k ski projection (-1) q).1 = Ok [record].
Proof.
  intros Hloc Hr Hrec. unfold select_version, lift, bind, get. rewrite Hloc.
  rewrite filter_cons, decide_True by exact Hr.
  unfold try_except, select_version_try, bind, get.
  rewrite decide_True by reflexivity. rewrite Hrec. reflexivity.
Qed.

Lemma select_version_0_directory k ski projection q r rest prid record values :
  locate (index (table q)) ski k = r :: rest ->
  find_tail_record (page_directory (table q)) k = Some (prid, record) ->
  project_record (rec_columns record) 0 projection = Ok values ->
  (select_version k ski projection 0 q).1 = Ok [mkRecord (IRid prid) k values].
Proof.
  intros Hloc Hfind Hproj. unfold select_version, lift, bind, get. rewrite Hloc.
  set (base_rid := match filter _ (r :: rest) with [] => r | b :: _ => b end).
  unfold try_except, select_version_try, bind, get.
  rewrite decide_False by discriminate. rewrite decide_True by reflexivity.
  destruct (_safely_get_latest_version_reads base_rid (table q)
              (pin_counts (bufferpool (table q)))) as (v & p' & Hlatest).
  rewrite with_pins_id in Hlatest. rewrite Hlatest.
  unfold with_pins. table_simpl. rewrite Hfind, Hproj. reflexivity.
Qed.

Lemma project_record_all_ones (pre row : list Z) :
  project_record (pre ++ row) (length pre) (replicate (length row) 1) = Ok row.
Proof.
  revert pre. induction row as [|v row IH]; intros pre; [reflexivity|].
  cbn [length replicate project_record]. rewrite decide_True by reflexivity.
  rewrite lookup_app_r by lia. rewrite Nat.sub_diag. cbn [lookup list_lookup].
  specialize (IH (pre ++ [v])). rewrite <- app_assoc, length_app, Nat.add_1_r in IH.
  cbn [app] in IH. rewrite IH. reflexivity.
Qed.

(** C7 (amended): for a key whose first index RID [r] is a base RID, a
    successful [update] that does not change the key leaves the base image
    alone: [select_version] for version -1 returns the page directory's base
    record before and after, the base page objects are unchanged, and in the
    buffer pool no base page changes except that [indirection[s]] of the
    record's page now holds the new tail RID.  If moreover the page
    directory held no tail record of the key before, and the update supplies
    every column with the base record's key in the key column, then
    [select_version] for version 0 afterwards returns the provided row (its
    projection). *)
Theorem update_preserves_base_image (now : string) (k : Z) (cols : list (option Z))
    (q q' : Query) (r : RID) (rest : list RID) :
  locate (index (table q)) (key (table q)) k = r :: rest ->
  r.2 = base ->
  update_new_key (table q) k cols = k ->
  update now k cols q = (Ok true, q') ->
  (exists base_record,
      dict_get (page_directory (table q)) r = Some base_record /\
      forall projection,
        (select_version k (key (table q)) projection (-1) q).1 = Ok [base_record] /\
        (select_version k (key (table q)) projection (-1) q').1 = Ok [base_record]) /\
  base_pages <$> page_ranges (table q') = base_pages <$> page_ranges (table q) /\
  (forall i j, (i, j) ≠ (r.1.1.1, r.1.1.2) ->
     frames (bufferpool (table q')) !! (base, i, j)
     = frames (bufferpool (table q)) !! (base, i, j)) /\
  (exists tail_rid : RID,
      let old_base := page_data_of (table q) (base, r.1.1.1, r.1.1.2) in
      tail_rid.2 = tail /\
      frames (bufferpool (table q')) !! (base, r.1.1.1, r.1.1.2)
      = Some (mkPageData (columns old_base) (d_rid old_base) (timestamp old_base)
                         (d_schema_encoding old_base)
                         (<[r.1.2 := IRid tail_rid]> (d_indirection old_base))) /\
      (find_tail_record (page_directory (table q)) k = None ->
       forall row projection values,
         cols = Some <$> row ->
         length row = num_columns (table q) ->
         (rec_columns <$> dict_get (page_directory (table q)) r)
           ≫= (fun c => c !! key (table q)) = row !! key (table q) ->
         project_record row 0 projection = Ok values ->
         (select_version k (key (table q)) projection 0 q').1
         = Ok [mkRecord (IRid tail_rid) k values])).
Proof.
  intros Hloc Hr Hsame Hrun.
  apply update_Ok in Hrun as (r0 & rest0 & lm & Hloc0 & Htry).
  rewrite Hloc in Hloc0. injection Hloc0 as <- <-.
  destruct r as [[[pr pi] ri] ty]. cbn [fst snd] in *. subst ty.
  apply update_try_Ok in Htry
    as (page_range & base_record & original_key & tail_page_idx & td_columns & schema & tp0
        & _ & Hrec & Hkey & _ & Hframes & _ & _ & Hdir & Hix & Hbase & Hkey' & Hn & _).
  cbn zeta in *.
  change (page_data_of (set_lock_manager lm (table q))) with (page_data_of (table q)) in *.
  change (latest_of (set_lock_manager lm (table q))) with (latest_of (table q)) in *.
  change (update_new_key (set_lock_manager lm (table q))) with (update_new_key (table q)) in *.
  table_simpl. rewrite Hsame in Hdir, Hix.
  rewrite decide_False in Hdir by (intros Hne; apply Hne; reflexivity).
  rewrite decide_False in Hix by (intros Hne; apply Hne; reflexivity).
  set (tail_rid := (pr, tail_page_idx,
                    length (d_rid (page_data_of (table q) (tail, pr, tail_page_idx))),
                    tail) : RID) in *.
  assert (Hloc' : locate (index (table q')) (key (table q)) k = (pr, pi, ri, base) :: rest)
    by (rewrite Hix; exact Hloc).
  split.
  { exists base_record. split; [exact Hrec|]. intros projection. split.
    - eapply select_version_minus_1; [exact Hloc | reflexivity | exact Hrec].
    - eapply select_version_minus_1; [exact Hloc' | reflexivity |].
      rewrite Hdir, dict_get_dict_set_ne by discriminate. exact Hrec. }
  split; [exact Hbase|].
  split.
  { intros i j Hij. rewrite Hframes.
    rewrite lookup_insert_ne by discriminate.
    rewrite lookup_insert_ne by congruence. reflexivity. }
  exists tail_rid. split; [reflexivity|].
  split.
  { rewrite Hframes. rewrite lookup_insert_ne by discriminate. apply lookup_insert_eq. }
  intros Hfresh row projection values Hcols Hlen Hrowkey Hproj.
  eapply select_version_0_directory; [exact Hloc' | |].
  - rewrite Hdir. apply find_dict_set_fresh; [exact Hfresh|].
    cbn. rewrite !bool_decide_eq_true_2 by reflexivity. reflexivity.
  - cbn [rec_columns].
    assert (Hrow : build_tail_columns (num_columns (table q)) (key (table q)) original_key cols
                     (default base_record
                        (dict_get (page_directory (table q))
                           (latest_of (table q) (pr, pi, ri, base)))) = row).
    { apply list_eq. intros c.
      destruct (decide (c < num_columns (table q))%nat) as [Hc|Hc].
      - rewrite build_tail_columns_lookup by exact Hc.
        destruct (decide (c = key (table q))) as [->|Hck].
        + rewrite Hrec in Hrowkey. cbn in Hrowkey. rewrite Hkey in Hrowkey. exact Hrowkey.
        + rewrite Hcols, list_lookup_fmap.
          destruct (row !! c) as [v|] eqn:Hv; [reflexivity|].
          apply lookup_ge_None in Hv. lia.
      - rewrite (lookup_ge_None_2 row c) by lia.
        apply lookup_ge_None_2. unfold build_tail_columns.
        rewrite length_fmap, length_seq. lia. }
    rewrite Hrow. exact Hproj.
Qed.

End Update_facts.

(** The chain of S3, link by link: every update stores the version that
    was latest before it in the new tail record and the new tail RID in the
    base slot of the buffer pool's page.  The base page object itself is not
    written by [update]: its slot keeps the value of the insert. *)
Example S3_links :
  d_indirection (page_data_of (table S2) (base, 0, 0)%nat) = [IRid (0, 0, 0, tail)%nat] /\
  d_indirection (page_data_of (table S2) (tail, 0, 0)%nat) = [IRid (0, 0, 0, base)%nat] /\
  d_indirection (page_data_of (table S3) (base, 0, 0)%nat) = [IRid (0, 0, 2, tail)%nat] /\
  d_indirection (page_data_of (table S3) (tail, 0, 0)%nat)
    = [IRid (0, 0, 0, base)%nat; IRid (0, 0, 0, tail)%nat; IRid (0, 0, 1, tail)%nat] /\
  (indirection <$> base_page_at (table S3) (0, 0, 0, base)%nat) = Some [INone].
Proof. vm_compute. auto 10. Qed.

(** C4 as stated fails: [update(1, 2, None)] supplies 2 for the key
    column, and the appended row still carries the original key 1, where the
    specification's rule gives [2, 10]. *)
Lemma update_keeps_original_key :
  (update "t1" 1 [Some 2; None] K1).1 = Ok true /\
  dict_get (page_directory (table K2)) (0, 0, 0, tail)%nat
    = Some (mkRecord (IRid (0, 0, 0, tail)%nat) 1 [1; 10]) /\
  columns (page_data_of (table K2) (tail, 0, 0)%nat) = [[1]; [10]] /\
  claimed_tail_columns 2 0 1 [Some 2; None] (mkRecord (IRid (0, 0, 0, base)%nat) 1 [1; 10])
    = [2; 10].
Proof. vm_compute. auto. Qed.

(** C7 as stated fails: an update that changes the key removes the base
    record from the page directory and the key from the index, so version -1
    of key 1 is the base record before the update and nothing after it. *)
Lemma key_change_drops_base_image :
  (update "t1" 1 [Some 2; None] K1).1 = Ok true /\
  (select_version 1 0 [1; 1] (-1) K1).1
    = Ok [mkRecord (IRid (0, 0, 0, base)%nat) 1 [1; 10]] /\
  (select_version 1 0 [1; 1] (-1) K2).1 = Ok [].
Proof. vm_compute. auto. Qed.

Lemma update_preserves_base_image_witness :
  (exists base_record,
      dict_get (page_directory (table S1)) (0, 0, 0, base)%nat = Some base_record /\
      forall projection,
        (select_version 100 (key (table S1)) projection (-1) S1).1 = Ok [base_record] /\
        (select_version 100 (key (table S1)) projection (-1) S1_full).1 = Ok [base_record]) /\
  base_pages <$> page_ranges (table S1_full) = base_pages <$> page_ranges (table S1) /\
  (forall i j, (i, j) ≠ (0, 0)%nat ->
     frames (bufferpool (table S1_full)) !! (base, i, j)
     = frames (bufferpool (table S1)) !! (base, i, j)) /\
  (exists tail_rid : RID,
      let old_base := page_data_of (table S1) (base, 0, 0)%nat in
      tail_rid.2 = tail /\
      frames (bufferpool (table S1_full)) !! (base, 0, 0)%nat
      = Some (mkPageData (columns old_base) (d_rid old_base) (timestamp old_base)
                         (d_schema_encoding old_base)
                         (<[0%nat := IRid tail_rid]> (d_indirection old_base))) /\
      (find_tail_record (page_directory (table S1)) 100 = None ->
       forall row projection values,
         [Some 100; Some 22; Some 12] = Some <$> row ->
         length row = num_columns (table S1) ->
         (rec_columns <$> dict_get (page_directory (table S1)) (0, 0, 0, base)%nat)
           ≫= (fun c => c !! key (table S1)) = row !! key (table S1) ->
         project_record row 0 projection = Ok values ->
         (select_version 100 (key (table S1)) projection 0 S1_full).1
         = Ok [mkRecord (IRid tail_rid) 100 values])).
Proof.
  apply (update_preserves_base_image "t1" 100 [Some 100; Some 22; Some 12] S1 S1_full
           (0, 0, 0, base)%nat []).
  - vm_compute. reflexivity.
  - reflexivity.
  - vm_compute. reflexivity.
  - vm_compute. reflexivity.
Defined.

(** The round trip of the specification on S1: the provided row comes back
    as version 0 and the base image as version -1. *)
Example S1_full_round_trip :
  (select_version 100 0 [1; 1; 1] 0 S1_full).1
    = Ok [mkRecord (IRid (0, 0, 0, tail)%nat) 100 [100; 22; 12]] /\
  (select_version 100 0 [1; 1; 1] (-1) S1_full).1
    = Ok [mkRecord (IRid (0, 0, 0, base)%nat) 100 [100; 11; 12]].
Proof. vm_compute. auto. Qed.

(** ** [sum_version] beside [select_version] *)

Section Chain_facts.
Context {env : Env}.

(** When [_safely_get_latest_version] has reached [latest_rid] within its
    bound, the loop of [_build_indirection_chain] follows the same pointers,
    reaches [latest_rid] within the same bound, takes none of its [break]s
    and so unpins every page it pinned. *)
Lemma get_page_with_pins id p tb :
  get_page id (with_pins p tb)
  = (Ok (page_data_of tb id), with_pins (<[id := default 0 (p !! id) + 1]> p) tb).
Proof. reflexivity. Qed.

Lemma unpin_page_with_pins id p tb :
  unpin_page id (with_pins p tb)
  = (Ok tt, with_pins (<[id := default 0 (p !! id) - 1]> p) tb).
Proof. reflexivity. Qed.

Lemma chain_loop_reaches_latest n : forall current visited chain tb p latest_rid s,
  latest_loop n current visited (with_pins p tb) = (Ok (Some latest_rid), s) ->
  exists chain' p',
    chain_loop n latest_rid current visited chain (with_pins p tb)
    = (Ok (chain ++ chain'), with_pins p' tb) /\
    last (current :: chain') = Some latest_rid /\
    forall page_id, default 0 (p' !! page_id) = default 0 (p !! page_id).
Proof.
  induction n as [|n IH]; intros [[[pr pi] ri] ty] visited chain tb p latest_rid s Hlatest.
  - discriminate.
  - cbn [chain_loop]. case_decide as Hne.
    { subst latest_rid. exists [], p. rewrite app_nil_r.
      split; [reflexivity|]. split; reflexivity. }
    cbn [latest_loop] in Hlatest.
    unfold bind, try_except in Hlatest |- *.
    rewrite get_page_with_pins in Hlatest |- *. lazy beta iota in Hlatest |- *.
    destruct (d_indirection _ !! ri) as [[| |next_rid]|];
      try (rewrite unpin_page_with_pins in Hlatest; injection Hlatest as Hcur _; congruence).
    destruct (decide (next_rid ∈ visited));
      [rewrite unpin_page_with_pins in Hlatest; injection Hlatest as Hcur _; congruence|].
    rewrite unpin_page_with_pins in Hlatest |- *. unfold ret at 1 2.
    lazy beta iota in Hlatest |- *.
    destruct (IH next_rid (next_rid :: visited) (chain ++ [next_rid]) tb _ latest_rid s
                Hlatest) as (chain' & p' & Hchain & Hlast & Hpins).
    exists (next_rid :: chain'), p'.
    rewrite Hchain, <- app_assoc. split; [reflexivity|]. split; [exact Hlast|].
    intros page_id. rewrite Hpins. apply pin_unpin_count.
Qed.

(** The walk of [_safely_get_latest_version] does not read pin counts. *)
Lemma latest_loop_pins n : forall current visited tb p p',
  (latest_loop n current visited (with_pins p tb)).1
  = (latest_loop n current visited (with_pins p' tb)).1.
Proof.
  induction n as [|n IH]; intros [[[pr pi] ri] ty] visited tb p p'; [reflexivity|].
  cbn [latest_loop]. unfold bind. rewrite !get_page_with_pins. lazy beta iota.
  destruct (d_indirection _ !! ri) as [[| |next_rid]|];
    try (rewrite !unpin_page_with_pins; reflexivity).
  destruct (decide (next_rid ∈ visited)); rewrite !unpin_page_with_pins; lazy beta iota;
    [reflexivity | apply IH].
Qed.

(** The call of [_build_indirection_chain] in [sum_version]: with the
    [latest_rid] that [_safely_get_latest_version] returned for [base_rid],
    and different from it, the chain runs from [base_rid] to [latest_rid] and
    the pin counts are what they were. *)
Lemma _build_indirection_chain_after_latest base_rid latest_rid tb p p1 s :
  _safely_get_latest_version base_rid (with_pins p tb) = (Ok latest_rid, s) ->
  latest_rid ≠ base_rid ->
  exists chain p',
    _build_indirection_chain base_rid latest_rid (with_pins p1 tb)
    = (Ok chain, with_pins p' tb) /\
    head chain = Some base_rid /\
    last chain = Some latest_rid /\
    forall page_id, default 0 (p' !! page_id) = default 0 (p1 !! page_id).
Proof.
  intros Hlatest Hne.
  unfold _safely_get_latest_version, try_except, bind in Hlatest.
  pose proof (latest_loop_pins 1000 base_rid [base_rid] tb p p1) as Hpins.
  destruct (latest_loop 1000 base_rid [base_rid] (with_pins p tb)) as [[[l|]|e] s0];
    injection Hlatest as Hl _; try congruence. subst l.
  destruct (latest_loop 1000 base_rid [base_rid] (with_pins p1 tb)) as [r1 s1] eqn:Hloop.
  cbn [fst] in Hpins. subst r1.
  destruct (chain_loop_reaches_latest 1000 base_rid [base_rid] [base_rid] tb p1 latest_rid s1
              Hloop) as (chain' & p' & Hchain & Hlast & Hcount).
  exists ([base_rid] ++ chain'), p'. unfold _build_indirection_chain.
  split; [exact Hchain|]. split; [reflexivity|]. split; [exact Hlast | exact Hcount].
Qed.

End Chain_facts.

(** On the chain of S3, [sum_version] with version -2 sums the image one
    step behind the newest one (33, the value scenario S3 names for -2): it
    rebuilds the chain with [_build_indirection_chain] and takes the entry
    before the one [_safely_get_latest_version] stopped on.  [select_version]
    with the same version does not, and answers with the base image. *)
Example S3_sum_version :
  (sum_version 100 100 1 (-2) S3).1 = Ok 33 /\
  (sum_version 100 100 1 (-1) S3).1 = Ok 11 /\
  (_build_indirection_chain (0, 0, 0, base)%nat (0, 0, 0, tail)%nat (table S3)).1
    = Ok [(0, 0, 0, base); (0, 0, 2, tail); (0, 0, 1, tail); (0, 0, 0, tail)]%nat /\
  (select_version 100 0 [1; 1; 1] (-2) S3).1
    = Ok [mkRecord (IRid (0, 0, 0, base)%nat) 100 [100; 11; 12]].
Proof. vm_compute. auto. Qed.

(** * Further properties of the engine and of [Database] *)

Section Database_facts.

Lemma find_table_None table_name ts :
  find_table table_name ts = None <-> table_name ∉ name <$> ts.
Proof.
  induction ts as [|tb ts IH]; cbn [find_table fmap list_fmap].
  - split; [intros _; apply not_elem_of_nil | reflexivity].
  - rewrite not_elem_of_cons. destruct (decide (name tb = table_name)) as [Heq|Hne].
    + split; [discriminate | intros [Hne _]; congruence].
    + rewrite IH. split; [intros H; split; [congruence | exact H] | intros [_ H]; exact H].
Qed.

Lemma find_table_Some table_name ts tb :
  find_table table_name ts = Some tb -> tb ∈ ts /\ name tb = table_name.
Proof.
  induction ts as [|tb0 ts IH]; cbn [find_table]; [discriminate|].
  destruct (decide (name tb0 = table_name)) as [Heq|Hne].
  - intros [= <-]. split; [apply list_elem_of_here | exact Heq].
  - intros H. destruct (IH H) as [Hin Hn]. split; [apply list_elem_of_further, Hin | exact Hn].
Qed.

Lemma find_table_app table_name ts ts' :
  find_table table_name (ts ++ ts')
  = match find_table table_name ts with
    | Some tb => Some tb
    | None => find_table table_name ts'
    end.
Proof.
  induction ts as [|tb ts IH]; cbn [find_table app]; [reflexivity|].
  destruct (decide (name tb = table_name)); [reflexivity | exact IH].
Qed.

Lemma indices_create_loop (l : list nat) (ix : Index) (c : nat) :
  indices (foldl (fun ix i => create_index i ix) ix l) !! c
  = if decide (c ∈ l) then Some ∅ else indices ix !! c.
Proof.
  revert ix. induction l as [|i l IH]; intros ix; cbn [foldl].
  - rewrite decide_False by apply not_elem_of_nil. reflexivity.
  - rewrite IH. unfold create_index. cbn [indices].
    destruct (decide (c ∈ l)) as [Hin|Hout].
    + rewrite decide_True by (apply list_elem_of_further, Hin). reflexivity.
    + destruct (decide (c = i)) as [->|Hne].
      * rewrite decide_True by apply list_elem_of_here. apply lookup_insert_eq.
      * rewrite decide_False by (rewrite elem_of_cons; tauto).
        apply lookup_insert_ne. congruence.
Qed.

Lemma indices_drop_loop (l : list nat) (ix : Index) (c : nat) :
  indices (foldl (fun ix i => drop_index i ix) ix l) !! c
  = if decide (c ∈ l) then None else indices ix !! c.
Proof.
  revert ix. induction l as [|i l IH]; intros ix; cbn [foldl].
  - rewrite decide_False by apply not_elem_of_nil. reflexivity.
  - rewrite IH. unfold drop_index. cbn [indices].
    destruct (decide (c ∈ l)) as [Hin|Hout].
    + rewrite decide_True by (apply list_elem_of_further, Hin). reflexivity.
    + destruct (decide (c = i)) as [->|Hne].
      * rewrite decide_True by apply list_elem_of_here. apply lookup_delete_eq.
      * rewrite decide_False by (rewrite elem_of_cons; tauto).
        apply lookup_delete_ne. congruence.
Qed.

Lemma indices_create_foldr (l : list nat) (ix : Index) (c : nat) :
  indices (foldr create_index ix l) !! c
  = if decide (c ∈ l) then Some ∅ else indices ix !! c.
Proof.
  induction l as [|i l IH]; cbn [foldr].
  - rewrite decide_False by apply not_elem_of_nil. reflexivity.
  - unfold create_index at 1. cbn [indices]. destruct (decide (c = i)) as [->|Hne].
    + rewrite decide_True by apply list_elem_of_here. apply lookup_insert_eq.
    + rewrite lookup_insert_ne by congruence. rewrite IH.
      destruct (decide (c ∈ l)) as [Hin|Hout].
      * rewrite decide_True by (apply list_elem_of_further, Hin). reflexivity.
      * rewrite decide_False by (rewrite elem_of_cons; tauto). reflexivity.
Qed.

Lemma create_loop_order (l : list nat) (ix : Index) :
  foldl (fun ix i => create_index i ix) ix l = foldr create_index ix l.
Proof.
  assert (Hext : forall a b : Index, indices a = indices b -> a = b)
    by (intros [a] [b]; cbn; congruence).
  apply Hext, map_eq. intros c. rewrite indices_create_loop, indices_create_foldr. reflexivity.
Qed.

Lemma drop_loop_None table_name ts :
  drop_loop table_name ts = None <-> find_table table_name ts = None.
Proof.
  induction ts as [|tb ts IH]; cbn [drop_loop find_table]; [tauto|].
  destruct (decide (name tb = table_name)); [split; discriminate|].
  destruct (drop_loop table_name ts) as [[dropped rest]|].
  - split; [discriminate|]. intros H. apply IH in H. discriminate.
  - split; [intros _; apply IH; reflexivity | reflexivity].
Qed.

Lemma drop_loop_Some table_name ts dropped rest :
  drop_loop table_name ts = Some (dropped, rest) ->
  exists before tb after,
    ts = before ++ tb :: after /\ rest = before ++ after /\
    (table_name ∉ name <$> before) /\ name tb = table_name /\
    dropped = set_index (foldl (fun ix col => drop_index col ix) (index tb)
                               (seq 0 (num_columns tb))) tb.
Proof.
  revert dropped rest. induction ts as [|tb ts IH]; intros dropped rest; cbn [drop_loop];
    [discriminate|].
  destruct (decide (name tb = table_name)) as [Heq|Hne].
  - intros [= <- <-]. exists [], tb, ts. cbn.
    repeat split; [apply not_elem_of_nil | exact Heq].
  - destruct (drop_loop table_name ts) as [[dropped0 rest0]|] eqn:Hloop; [|discriminate].
    intros [= <- <-].
    destruct (IH _ _ eq_refl)
      as (before & tb0 & after & Hts & Hrest & Hbefore & Hname & Hdropped).
    exists (tb :: before), tb0, after. cbn [app fmap list_fmap].
    split; [f_equal; exact Hts|]. split; [f_equal; exact Hrest|].
    split; [rewrite not_elem_of_cons; split; [congruence | exact Hbefore]|].
    split; [exact Hname | exact Hdropped].
Qed.

Lemma find_table_unique ts tb :
  NoDup (name <$> ts) -> tb ∈ ts -> find_table (name tb) ts = Some tb.
Proof.
  induction ts as [|tb0 ts IH]; cbn [fmap list_fmap find_table]; intros Hnd Hin.
  - apply elem_of_nil in Hin. contradiction.
  - apply NoDup_cons in Hnd as [Hfresh Hnd].
    apply elem_of_cons in Hin as [->|Hin]; [rewrite decide_True by reflexivity; reflexivity|].
    rewrite decide_False; [exact (IH Hnd Hin)|].
    intros Heq. apply Hfresh. rewrite Heq. apply list_elem_of_fmap_2. exact Hin.
Qed.

Lemma db_call_unique c db :
  NoDup (table_names db) -> NoDup (table_names (db_call c db)).
Proof.
  unfold table_names. intros Hnd. destruct c as [table_name n key_index|table_name];
    cbn [db_call].
  - unfold Database_create_table.
    destruct (find_table table_name (tables db)) eqn:Hfind; [exact Hnd|].
    cbn [tables]. rewrite fmap_app. apply NoDup_app. split; [exact Hnd|].
    split; [|apply NoDup_singleton].
    intros x Hx Hx'. cbn in Hx'. apply list_elem_of_singleton in Hx'. subst x.
    apply find_table_None in Hfind. contradiction.
  - unfold Database_drop_table.
    destruct (drop_loop table_name (tables db)) as [[dropped rest]|] eqn:Hloop; [|exact Hnd].
    apply drop_loop_Some in Hloop as (before & tb & after & Hts & -> & _).
    cbn [tables]. rewrite Hts, fmap_app, fmap_cons in Hnd. rewrite fmap_app.
    apply NoDup_app in Hnd as (Hb & Hdisj & Ha). apply NoDup_cons in Ha as [_ Ha].
    apply NoDup_app. split; [exact Hb|]. split; [|exact Ha].
    intros x Hx Hx'. apply (Hdisj x Hx). apply list_elem_of_further, Hx'.
Qed.

End Database_facts.

(** X1: when [create_table] succeeds, the database had no table of that
    name ([get_table] raised), and afterwards [get_table] returns the very
    table that was created: it carries the name, the key index and the column
    count, has no page range and no record, and has an empty index on each of
    its columns and on no other.  The tables registered before stay where
    they were, other names resolve as before, and a second [create_table] of
    the name raises. *)
Theorem create_table_get_table (table_name : string) (n key_index : nat)
    (db db' : Database) (tb : Table) :
  Database_create_table table_name n key_index db = inr (tb, db') ->
  Database_get_table table_name db = inl (TableMissing table_name) /\
  Database_get_table table_name db' = inr tb /\
  tables db' = tables db ++ [tb] /\
  (forall other, other <> table_name ->
     Database_get_table other db' = Database_get_table other db) /\
  tb = create_table table_name n key_index /\
  name tb = table_name /\ key tb = key_index /\ num_columns tb = n /\
  page_ranges tb = [] /\ page_directory tb = [] /\
  (forall c, indices (index tb) !! c = if decide (c < n)%nat then Some ∅ else None) /\
  (forall c v, locate (index tb) c v = []) /\
  (forall n' key_index',
     Database_create_table table_name n' key_index' db' = inl (TableExists table_name)).
Proof.
  unfold Database_create_table, Database_get_table.
  destruct (find_table table_name (tables db)) as [|] eqn:Hfind; [discriminate|].
  intros [= <- <-]. cbn [tables].
  assert (Hix : forall c,
            indices (foldl (fun ix i => create_index i ix) (mkIndex ∅) (seq 0 n)) !! c
            = if decide (c < n)%nat then Some ∅ else None).
  { intros c. rewrite indices_create_loop. cbn [indices]. rewrite lookup_empty.
    destruct (decide (c < n)%nat) as [Hc|Hc].
    - rewrite decide_True by (apply elem_of_seq; lia). reflexivity.
    - rewrite decide_False by (rewrite elem_of_seq; lia). reflexivity. }
  split; [reflexivity|].
  split; [rewrite find_table_app, Hfind; cbn; rewrite decide_True by reflexivity; reflexivity|].
  split; [reflexivity|].
  split.
  { intros other Hother. rewrite find_table_app.
    destruct (find_table other (tables db)); [reflexivity|].
    cbn. rewrite decide_False by congruence. reflexivity. }
  split.
  { unfold Table_init, create_table, set_index. cbn [index]. rewrite create_loop_order.
    reflexivity. }
  do 5 (split; [reflexivity|]).
  split; [exact Hix|].
  split.
  { intros c v. unfold locate. cbn [index set_index Table_init]. rewrite Hix.
    destruct (decide (c < n)%nat); [rewrite lookup_empty|]; reflexivity. }
  intros n' key_index'. rewrite find_table_app, Hfind. cbn.
  rewrite decide_True by reflexivity. reflexivity.
Qed.

(** X2: whatever calls of [create_table] and [drop_table] a fresh
    database has seen, the raising ones included, no two registered tables
    share a name, and [get_table] with the name of a registered table returns
    that table. *)
Theorem table_names_unique (cs : list DbCall) :
  NoDup (table_names (db_calls cs Database_init)) /\
  forall tb,
    tb ∈ tables (db_calls cs Database_init) ->
    Database_get_table (name tb) (db_calls cs Database_init) = inr tb.
Proof.
  assert (Hnd : forall db, NoDup (table_names db) -> NoDup (table_names (db_calls cs db))).
  { unfold db_calls. induction cs as [|c cs IH]; intros db Hdb; [exact Hdb|].
    cbn [foldl]. apply IH, db_call_unique, Hdb. }
  specialize (Hnd Database_init (NoDup_nil_2 : NoDup (table_names Database_init))).
  split; [exact Hnd|]. intros tb Htb. unfold Database_get_table.
  rewrite (find_table_unique _ _ Hnd Htb). reflexivity.
Qed.

(** X3: when the registered names are distinct and [drop_table]
    succeeds, the table it removed is the one [get_table] gave for the name.
    Afterwards [get_table] and a second [drop_table] of the name raise, other
    names resolve as before and the list is one table shorter.  The removed
    table object keeps its pages and its page directory but has lost the
    index of every column: a [Query] that still holds it locates nothing, so
    (the key column being one of its columns) its [update] and [delete]
    return [False] for every key and change nothing. *)
Theorem drop_table_removes (table_name : string) (db db' : Database) (dropped : Table) :
  NoDup (table_names db) ->
  Database_drop_table table_name db = inr (dropped, db') ->
  (exists tb,
      Database_get_table table_name db = inr tb /\
      name dropped = table_name /\
      num_columns dropped = num_columns tb /\
      page_ranges dropped = page_ranges tb /\
      page_directory dropped = page_directory tb) /\
  Database_get_table table_name db' = inl (TableMissing table_name) /\
  Database_drop_table table_name db' = inl (TableMissing table_name) /\
  (forall other, other <> table_name ->
     Database_get_table other db' = Database_get_table other db) /\
  (length (tables db') + 1 = length (tables db))%nat /\
  (forall c v, (c < num_columns dropped)%nat -> locate (index dropped) c v = []) /\
  (forall lo hi c, (c < num_columns dropped)%nat -> locate_range (index dropped) lo hi c = []) /\
  ((key dropped < num_columns dropped)%nat ->
   forall tx primary_key,
     (forall now cols,
        update now primary_key cols (mkQuery dropped tx) = (Ok false, mkQuery dropped tx)) /\
     delete primary_key (mkQuery dropped tx) = (Ok false, mkQuery dropped tx)).
Proof.
  unfold table_names, Database_drop_table, Database_get_table. intros Hnd Hdrop.
  destruct (drop_loop table_name (tables db)) as [[dropped0 rest]|] eqn:Hloop; [|discriminate].
  injection Hdrop as <- <-.
  apply drop_loop_Some in Hloop as (before & tb & after & Hts & -> & Hbefore & Hname & ->).
  cbn [tables]. rewrite Hts in *. clear Hts.
  rewrite fmap_app, fmap_cons in Hnd.
  apply NoDup_app in Hnd as (Hb & Hdisj & Ha). apply NoDup_cons in Ha as [Hafter Ha].
  rewrite Hname in Hafter.
  assert (Hfb : find_table table_name before = None) by (apply find_table_None, Hbefore).
  assert (Hfa : find_table table_name after = None) by (apply find_table_None, Hafter).
  assert (Hix : forall c, (c < num_columns tb)%nat ->
            indices (foldl (fun ix col => drop_index col ix) (index tb)
                           (seq 0 (num_columns tb))) !! c = None).
  { intros c Hc. rewrite indices_drop_loop.
    rewrite decide_True by (apply elem_of_seq; lia). reflexivity. }
  split.
  { exists tb. rewrite find_table_app, Hfb. cbn [find_table].
    rewrite decide_True by exact Hname. repeat split. exact Hname. }
  split; [rewrite find_table_app, Hfb, Hfa; reflexivity|].
  split.
  { destruct (drop_loop table_name (before ++ after)) as [[? ?]|] eqn:Hloop; [|reflexivity].
    assert (Hnone : drop_loop table_name (before ++ after) = None)
      by (apply drop_loop_None; rewrite find_table_app, Hfb, Hfa; reflexivity).
    congruence. }
  split.
  { intros other Hother. rewrite !find_table_app. cbn [find_table].
    rewrite (decide_False (P := name tb = other)) by congruence. reflexivity. }
  split; [rewrite !length_app; cbn; lia|].
  split.
  { intros c v Hc. unfold locate. cbn [index set_index num_columns] in *.
    rewrite Hix by exact Hc. reflexivity. }
  split.
  { intros lo hi c Hc. unfold locate_range. cbn [index set_index num_columns] in *.
    rewrite Hix by exact Hc. reflexivity. }
  intros Hkey tx primary_key.
  assert (Hloc : locate (index (set_index
                    (foldl (fun ix col => drop_index col ix) (index tb)
                           (seq 0 (num_columns tb))) tb))
                   (key tb) primary_key = []).
  { unfold locate. cbn [index set_index]. rewrite Hix by exact Hkey. reflexivity. }
  split; [intros now cols; unfold update | unfold delete];
    cbn [table key set_index]; rewrite Hloc; reflexivity.
Qed.

Section Reader_balance.
Context {env : Env}.

Lemma same_pins_refl p : same_pins p p.
Proof. intros id. reflexivity. Qed.

Lemma same_pins_trans p1 p2 p3 : same_pins p1 p2 -> same_pins p2 p3 -> same_pins p1 p3.
Proof. intros H1 H2 id. rewrite H1. apply H2. Qed.

Lemma same_pins_pin_unpin (p : gmap PageId Z) (id : PageId) :
  same_pins (<[id := default 0 (<[id := default 0 (p !! id) + 1]> p !! id) - 1]>
               (<[id := default 0 (p !! id) + 1]> p)) p.
Proof. intros id'. apply pin_unpin_count. Qed.

Lemma forward_with_pins p tb r : forward (with_pins p tb) r = forward tb r.
Proof. destruct r as [[[pr pi] ri] ty]. reflexivity. Qed.

(** The walk of [_safely_get_latest_version], with the pins and the path. *)
Lemma latest_loop_walk n : forall current visited tb p,
  exists res p' path,
    latest_loop n current visited (with_pins p tb) = (Ok res, with_pins p' tb) /\
    same_pins p' p /\
    links tb (current :: path) /\ NoDup path /\ (forall x, x ∈ path -> x ∉ visited) /\
    match res with
    | Some v =>
        last (current :: path) = Some v /\ (length path < n)%nat /\
        (forward tb v = None \/
         exists next_rid, forward tb v = Some next_rid /\ next_rid ∈ path ++ visited)
    | None => length path = n
    end.
Proof.
  induction n as [|n IH]; intros [[[pr pi] ri] ty] visited tb p.
  - exists None, p, []. cbn. repeat split; auto using same_pins_refl, NoDup_nil_2.
    intros x Hx. apply elem_of_nil in Hx. contradiction.
  - cbn [latest_loop]. unfold bind. rewrite get_page_with_pins. lazy beta iota.
    assert (Hstop : forall fw : option RID,
              forward tb (pr, pi, ri, ty) = fw ->
              (fw = None \/ exists next_rid, fw = Some next_rid /\ next_rid ∈ visited) ->
              exists (res : option RID) p' path,
                (Ok (Some (pr, pi, ri, ty)),
                 with_pins (<[(ty, pr, pi) :=
                                default 0 (<[(ty, pr, pi) :=
                                               default 0 (p !! (ty, pr, pi)) + 1]> p
                                             !! (ty, pr, pi)) - 1]>
                              (<[(ty, pr, pi) := default 0 (p !! (ty, pr, pi)) + 1]> p)) tb)
                = (Ok res, with_pins p' tb) /\
                same_pins p' p /\
                links tb ((pr, pi, ri, ty) :: path) /\ NoDup path /\
                (forall x, x ∈ path -> x ∉ visited) /\
                match res with
                | Some v =>
                    last ((pr, pi, ri, ty) :: path) = Some v /\ (length path < S n)%nat /\
                    (forward tb v = None \/
                     exists next_rid, forward tb v = Some next_rid /\ next_rid ∈ path ++ visited)
                | None => length path = S n
                end).
    { intros fw Hfw Hend. eexists (Some _), _, []. split; [reflexivity|].
      split; [apply same_pins_pin_unpin|]. split; [exact I|]. split; [apply NoDup_nil_2|].
      split; [intros x Hx; apply elem_of_nil in Hx; contradiction|].
      split; [reflexivity|]. split; [cbn; lia|]. rewrite Hfw. exact Hend. }
    unfold forward in Hstop.
    destruct (d_indirection (page_data_of tb (ty, pr, pi)) !! ri) as [[| |next_rid]|] eqn:Hslot;
      rewrite ?unpin_page_with_pins; unfold ret at 1;
      try (apply (Hstop None eq_refl); left; reflexivity).
    destruct (decide (next_rid ∈ visited)) as [Hin|Hout]; rewrite unpin_page_with_pins.
    + unfold ret. apply (Hstop (Some next_rid) eq_refl). right. eauto.
    + lazy beta iota.
      destruct (IH next_rid (next_rid :: visited) tb
                  (<[(ty, pr, pi) :=
                       default 0 (<[(ty, pr, pi) := default 0 (p !! (ty, pr, pi)) + 1]> p
                                    !! (ty, pr, pi)) - 1]>
                     (<[(ty, pr, pi) := default 0 (p !! (ty, pr, pi)) + 1]> p)))
        as (res & p' & path & Hrun & Hpins & Hlinks & Hnodup & Hfresh & Hres).
      exists res, p', (next_rid :: path). split; [exact Hrun|].
      split; [eapply same_pins_trans; [exact Hpins | apply same_pins_pin_unpin]|].
      split; [split; [unfold forward; rewrite Hslot; reflexivity | exact Hlinks]|].
      split.
      { apply NoDup_cons_2; [|exact Hnodup]. intros Hx. apply (Hfresh _ Hx).
        apply list_elem_of_here. }
      split.
      { intros x Hx. apply elem_of_cons in Hx as [->|Hx]; [exact Hout|].
        intros Hv. apply (Hfresh _ Hx). apply list_elem_of_further, Hv. }
      destruct res as [v|].
      * destruct Hres as (Hlast & Hlen & Hend). split; [exact Hlast|]. split; [cbn; lia|].
        destruct Hend as [Hend|(nx & Hnx & Hin)]; [left; exact Hend|].
        right. exists nx. split; [exact Hnx|].
        rewrite elem_of_app in Hin. rewrite elem_of_app, !elem_of_cons.
        rewrite elem_of_cons in Hin. tauto.
      * cbn. lia.
Qed.

Lemma _safely_get_latest_version_balanced r tb p :
  exists v p',
    _safely_get_latest_version r (with_pins p tb) = (Ok v, with_pins p' tb) /\ same_pins p' p.
Proof.
  unfold _safely_get_latest_version, try_except, bind.
  destruct (latest_loop_walk 1000 r [r] tb p) as (res & p' & path & -> & Hpins & _).
  destruct res; eexists _, _; (split; [reflexivity | exact Hpins]).
Qed.

Lemma _get_column_value_balanced r c tb p :
  exists p',
    _get_column_value r c (with_pins p tb) = (Ok (stored_value tb r c), with_pins p' tb) /\
    same_pins p' p.
Proof.
  destruct r as [[[pr pi] ri] ty].
  unfold _get_column_value, stored_value, try_except, bind.
  assert (Hty : (if bool_decide (ty = base) then base else tail) = ty)
    by (destruct ty; reflexivity).
  rewrite Hty, get_page_with_pins. lazy beta iota.
  destruct (columns _ !! c ≫= _) as [v|]; rewrite unpin_page_with_pins;
    [eexists; split; [reflexivity | apply same_pins_pin_unpin]|].
  unfold get, of_option, raise, ret, pp_read, with_pins. table_simpl.
  destruct (page_ranges tb !! pr) as [prg|]; table_simpl;
    [|eexists; split; [reflexivity | apply same_pins_pin_unpin]].
  assert (Hpages : (if bool_decide (ty = base) then base_pages prg else tail_pages prg)
                   = match ty with base => base_pages prg | tail => tail_pages prg end)
    by (destruct ty; reflexivity).
  rewrite Hpages.
  destruct (_ !! pi) as [page|]; table_simpl;
    [|eexists; split; [reflexivity | apply same_pins_pin_unpin]].
  destruct (pages page !! c) as [pp|]; table_simpl;
    [|eexists; split; [reflexivity | apply same_pins_pin_unpin]].
  destruct (decide (ri < pp_num_records pp)%nat); table_simpl;
    [|eexists; split; [reflexivity | apply same_pins_pin_unpin]].
  destruct (data pp !! ri); eexists; (split; [reflexivity | apply same_pins_pin_unpin]).
Qed.

End Reader_balance.

Section Reader_theorems.
Context {env : Env}.

(** X4: [_safely_get_latest_version] never raises and changes nothing
    but the pin-count map, where it leaves every page with the count it had.
    The RID it returns is the end of a path of distinct RIDs that starts at
    the given RID and follows the indirection slots held by the buffer pool:
    the walk stops at a slot that holds no RID, or that points back into the
    path.  After 1000 hops without either it returns the RID it was
    given. *)
Theorem _safely_get_latest_version_path (r : RID) (tb : Table) :
  exists v p' path,
    _safely_get_latest_version r tb = (Ok v, with_pins p' tb) /\
    (forall id, default 0 (p' !! id) = pin_count (bufferpool tb) id) /\
    head path = Some r /\ NoDup path /\ links tb path /\
    ((length path <= 1000)%nat /\ last path = Some v /\
     (forward tb v = None \/
      exists next_rid, forward tb v = Some next_rid /\ next_rid ∈ path)
     \/ length path = 1001%nat /\ v = r).
Proof.
  unfold _safely_get_latest_version, try_except, bind.
  destruct (latest_loop_walk 1000 r [r] tb (pin_counts (bufferpool tb)))
    as (res & p' & path & Hrun & Hpins & Hlinks & Hnodup & Hfresh & Hres).
  rewrite with_pins_id in Hrun. rewrite Hrun.
  assert (Hnd : NoDup (r :: path)).
  { apply NoDup_cons_2; [|exact Hnodup]. intros Hr. apply (Hfresh _ Hr), list_elem_of_here. }
  destruct res as [v|].
  - destruct Hres as (Hlast & Hlen & Hend).
    exists v, p', (r :: path). split; [reflexivity|]. split; [exact Hpins|].
    split; [reflexivity|]. split; [exact Hnd|]. split; [exact Hlinks|].
    left. split; [cbn; lia|]. split; [exact Hlast|].
    destruct Hend as [Hend|(nx & Hnx & Hin)]; [left; exact Hend|].
    right. exists nx. split; [exact Hnx|].
    rewrite elem_of_app, list_elem_of_singleton in Hin. rewrite elem_of_cons. tauto.
  - exists r, p', (r :: path). split; [reflexivity|]. split; [exact Hpins|].
    split; [reflexivity|]. split; [exact Hnd|]. split; [exact Hlinks|].
    right. split; [cbn; lia | reflexivity].
Qed.

(** X5: [_get_column_value] (the second definition, the one in force)
    never raises and leaves every page with the pin count it had.  It returns
    the value the buffer pool holds for the column at the slot of the RID
    whenever there is one; the page object is read only when the buffer pool
    has none. *)
Theorem _get_column_value_stored (r : RID) (column_index : nat) (tb : Table) :
  exists p',
    _get_column_value r column_index tb
    = (Ok (stored_value tb r column_index), with_pins p' tb) /\
    (forall id, default 0 (p' !! id) = pin_count (bufferpool tb) id) /\
    (forall v,
       columns (page_data_of tb (r.2, r.1.1.1, r.1.1.2)) !! column_index
         ≫= (fun c => c !! r.1.2) = Some v ->
       stored_value tb r column_index = Some v).
Proof.
  destruct (_get_column_value_balanced r column_index tb (pin_counts (bufferpool tb)))
    as (p' & Hrun & Hpins).
  rewrite with_pins_id in Hrun. exists p'. split; [exact Hrun|]. split; [exact Hpins|].
  destruct r as [[[pr pi] ri] ty]. cbn [fst snd]. intros v Hv.
  unfold stored_value. rewrite Hv. reflexivity.
Qed.

End Reader_theorems.

Section Sum_balance.
Context {env : Env}.

Lemma sum_step_balanced lo hi agg r acc tb p :
  exists p', sum_step lo hi agg r acc (with_pins p tb)
             = (Ok (sum_step_pure tb lo hi agg acc r), with_pins p' tb) /\
             same_pins p' p.
Proof.
  unfold sum_step, sum_step_pure, sum_entry, try_except, bind.
  destruct (_get_latest_version_reads r tb p) as [p1 [-> Hp1]].
  unfold gets at 1. cbn [key with_pins set_bufferpool].
  destruct (_get_column_value_balanced (latest_of tb r) (key tb) tb p1) as (p2 & -> & Hp2).
  assert (Hp2' : same_pins p2 p) by (eapply same_pins_trans; [exact Hp2 | exact Hp1]).
  destruct (stored_value tb (latest_of tb r) (key tb)) as [kv|]; cbn [mbind option_bind];
    [|eexists; split; [reflexivity | exact Hp2']].
  destruct (decide (kv < lo \/ hi < kv \/ kv ∈ acc.2)) as [Hskip|Hkeep].
  - destruct (decide (lo <= kv /\ kv <= hi)) as [Hin|Hout];
      [|eexists; split; [reflexivity | exact Hp2']].
    destruct (decide (kv ∈ acc.2)); [eexists; split; [reflexivity | exact Hp2']|].
    exfalso. destruct Hskip as [?|[?|?]]; [lia | lia | contradiction].
  - destruct (decide (lo <= kv /\ kv <= hi)) as [Hin|Hout];
      [|exfalso; apply Hkeep; destruct (decide (kv < lo)); [tauto | right; left; lia]].
    destruct (decide (kv ∈ acc.2)); [exfalso; tauto|].
    destruct (_get_column_value_balanced (latest_of tb r) agg tb p2) as (p3 & -> & Hp3).
    assert (Hp3' : same_pins p3 p) by (eapply same_pins_trans; [exact Hp3 | exact Hp2']).
    destruct (stored_value tb (latest_of tb r) agg) as [v|]; cbn [default];
      [eexists; split; [reflexivity | exact Hp3']|].
    rewrite Z.add_0_r. eexists; split; [reflexivity | exact Hp3'].
Qed.

Lemma sum_loop_balanced lo hi agg rids acc tb p :
  exists p', sum_loop lo hi agg rids acc (with_pins p tb)
             = (Ok (foldl (sum_step_pure tb lo hi agg) acc rids), with_pins p' tb) /\
             same_pins p' p.
Proof.
  revert acc p. induction rids as [|r rids IH]; intros acc p;
    [eexists; split; [reflexivity | apply same_pins_refl]|].
  cbn [sum_loop foldl]. unfold bind.
  destruct (sum_step_balanced lo hi agg r acc tb p) as (p1 & -> & Hp1).
  destruct (IH (sum_step_pure tb lo hi agg acc r) p1) as (p2 & Hrun & Hp2).
  exists p2. split; [exact Hrun | eapply same_pins_trans; [exact Hp2 | exact Hp1]].
Qed.

(** X6: [sum] never raises and changes nothing of the query but the
    pin-count map, where every page ends with the count it had: each pin
    taken while reading is released. *)
Theorem sum_unpins (start_range end_range : Z) (aggregate_column_index : nat) (q : Query) :
  exists res p',
    sum start_range end_range aggregate_column_index q
    = (Ok res, mkQuery (with_pins p' (table q)) (transaction q)) /\
    forall id, default 0 (p' !! id) = pin_count (bufferpool (table q)) id.
Proof.
  unfold sum, lift, bind, get.
  destruct (locate_range (index (table q)) start_range end_range (key (table q)))
    as [|r rids] eqn:Hloc.
  - exists SumFalse, (pin_counts (bufferpool (table q))). rewrite with_pins_id.
    split; reflexivity.
  - destruct (sum_loop_balanced start_range end_range aggregate_column_index (r :: rids)
                (0, []) (table q) (pin_counts (bufferpool (table q)))) as (p' & Hloop & Hp').
    rewrite with_pins_id in Hloop. rewrite Hloop.
    eexists _, p'. split; [reflexivity | exact Hp'].
Qed.

End Sum_balance.

Section Historical_facts.
Context {env : Env}.

Lemma historical_loop_chain tb base_rid n : forall current visited remaining v,
  historical_loop tb base_rid n current visited = Ok (remaining, v) ->
  exists chain,
    back_links tb (current :: chain) /\ last (current :: chain) = Some v /\
    (length chain + remaining = n)%nat /\ (current <> INone -> v <> INone).
Proof.
  induction n as [|n IH]; intros current visited remaining v Hrun; cbn [historical_loop] in Hrun.
  - injection Hrun as <- <-. exists []. repeat split; auto.
  - assert (Hstop : Ok (S n, current) = Ok (remaining, v) ->
              exists chain,
                back_links tb (current :: chain) /\ last (current :: chain) = Some v /\
                (length chain + remaining = S n)%nat /\ (current <> INone -> v <> INone)).
    { intros [= <- <-]. exists []. repeat split; auto. }
    destruct (decide (current = IRid base_rid)); [auto|].
    destruct current as [| |[[[pr pi] ri] ty]]; try discriminate.
    destruct (page_ranges tb !! pr) as [prg|] eqn:Hprg; [|auto].
    destruct (match ty with base => base_pages prg | tail => tail_pages prg end !! pi)
      as [page|] eqn:Hpage; [|auto].
    destruct (indirection page !! ri) as [prev|] eqn:Hprev; [|auto].
    destruct (decide (prev = IRid (pr, pi, ri, ty) \/ prev = INone)) as [|Hgo]; [auto|].
    destruct (decide (prev ∈ visited)); [auto|].
    apply IH in Hrun as (chain & Hlinks & Hlast & Hlen & Hnone).
    exists (prev :: chain). split.
    { split; [|exact Hlinks]. cbn [backward]. rewrite Hprg. cbn. rewrite Hpage. cbn.
      exact Hprev. }
    split; [exact Hlast|]. split; [cbn; lia|].
    intros _. apply Hnone. tauto.
Qed.

Lemma historical_loop_with_pins p tb base_rid n : forall current visited,
  historical_loop (with_pins p tb) base_rid n current visited
  = historical_loop tb base_rid n current visited.
Proof.
  induction n as [|n IH]; intros current visited; cbn [historical_loop]; [reflexivity|].
  destruct (decide (current = IRid base_rid)); [reflexivity|].
  destruct current as [| |[[[pr pi] ri] ty]]; try reflexivity.
  change (page_ranges (with_pins p tb)) with (page_ranges tb).
  destruct (page_ranges tb !! pr) as [prg|]; [|reflexivity].
  destruct (_ !! pi) as [page|]; [|reflexivity].
  destruct (indirection page !! ri) as [prev|]; [|reflexivity].
  destruct (decide _); [reflexivity|]. destruct (decide _); [reflexivity|]. apply IH.
Qed.

Lemma _safely_get_historical_version_pure current_rid base_rid steps_back tb :
  exists v,
    _safely_get_historical_version current_rid base_rid steps_back tb = (Ok v, tb) /\
    v <> INone /\
    (v = IRid base_rid \/
     exists chain,
       length chain = steps_back /\ back_links tb (IRid current_rid :: chain) /\
       last (IRid current_rid :: chain) = Some v).
Proof.
  destruct steps_back as [|n].
  - exists (IRid current_rid). split; [reflexivity|]. split; [discriminate|].
    right. exists []. repeat split.
  - unfold _safely_get_historical_version, try_except, bind, get.
    destruct (historical_loop tb base_rid (S n) (IRid current_rid) [IRid current_rid])
      as [[remaining v]|e] eqn:Hloop.
    + apply historical_loop_chain in Hloop as (chain & Hlinks & Hlast & Hlen & Hnone).
      destruct (decide (0 < remaining)%nat).
      * exists (IRid base_rid). split; [reflexivity|]. split; [discriminate|]. left. reflexivity.
      * exists v. split; [reflexivity|]. split; [apply Hnone; discriminate|].
        right. exists chain. split; [lia|]. split; assumption.
    + exists (IRid base_rid). split; [reflexivity|]. split; [discriminate|]. left. reflexivity.
Qed.

Lemma _safely_get_historical_version_with_pins current_rid base_rid steps_back p tb :
  _safely_get_historical_version current_rid base_rid steps_back (with_pins p tb)
  = ((_safely_get_historical_version current_rid base_rid steps_back tb).1, with_pins p tb).
Proof.
  destruct steps_back as [|n]; [reflexivity|].
  unfold _safely_get_historical_version, try_except, bind, get.
  rewrite historical_loop_with_pins.
  destruct (historical_loop tb base_rid (S n) (IRid current_rid) [IRid current_rid])
    as [[remaining v]|e]; [|reflexivity].
  destruct (decide (0 < remaining)%nat); reflexivity.
Qed.

(** X7: [_safely_get_historical_version] never raises, changes nothing
    and never returns [None].  With [steps_back = 0] it returns the current
    RID.  In general it returns either the base RID, or the entry that
    exactly [steps_back] hops along the indirection slots of the page objects
    lead to from the current RID. *)
Theorem _safely_get_historical_version_steps (current_rid base_rid : RID)
    (steps_back : nat) (tb : Table) :
  exists v,
    _safely_get_historical_version current_rid base_rid steps_back tb = (Ok v, tb) /\
    v <> INone /\
    (steps_back = 0%nat -> v = IRid current_rid) /\
    (v = IRid base_rid \/
     exists chain,
       length chain = steps_back /\ back_links tb (IRid current_rid :: chain) /\
       last (IRid current_rid :: chain) = Some v).
Proof.
  destruct (_safely_get_historical_version_pure current_rid base_rid steps_back tb)
    as (v & Hrun & Hnone & Hchain).
  exists v. split; [exact Hrun|]. split; [exact Hnone|]. split; [|exact Hchain].
  intros ->. cbn in Hrun. injection Hrun as <-. reflexivity.
Qed.

(** X8: [_navigate_to_version] never raises and leaves every page with
    the pin count it had.  It returns [None] exactly for a positive version.
    For version 0 it returns the RID [_safely_get_latest_version] gives for
    the base RID; for a negative version the base RID when that RID is the
    base RID itself, and otherwise what [_safely_get_historical_version]
    gives for [abs(relative_version)] steps back from it. *)
Theorem _navigate_to_version_result (base_rid : RID) (relative_version : Z) (tb : Table) :
  exists v p' latest_rid s,
    _navigate_to_version base_rid relative_version tb = (Ok v, with_pins p' tb) /\
    (forall id, default 0 (p' !! id) = pin_count (bufferpool tb) id) /\
    _safely_get_latest_version base_rid tb = (Ok latest_rid, s) /\
    (v = INone <-> 0 < relative_version) /\
    (relative_version = 0 -> v = IRid latest_rid) /\
    (relative_version < 0 -> latest_rid = base_rid -> v = IRid base_rid) /\
    (relative_version < 0 -> latest_rid <> base_rid ->
     (_safely_get_historical_version latest_rid base_rid (Z.abs_nat relative_version) tb).1
     = Ok v).
Proof.
  destruct (_safely_get_latest_version_balanced base_rid tb (pin_counts (bufferpool tb)))
    as (latest_rid & p1 & Hlatest & Hp1).
  rewrite with_pins_id in Hlatest.
  unfold _navigate_to_version, try_except, bind.
  destruct (decide (relative_version = 0)) as [->|Hnz].
  - rewrite Hlatest. exists (IRid latest_rid), p1, latest_rid, (with_pins p1 tb).
    split; [reflexivity|]. split; [exact Hp1|]. split; [reflexivity|].
    split; [split; [discriminate | lia]|]. split; [reflexivity|]. split; intros; lia.
  - destruct (decide (relative_version < 0)) as [Hneg|Hpos].
    + rewrite Hlatest. destruct (decide (latest_rid = base_rid)) as [->|Hne].
      * exists (IRid base_rid), p1, base_rid, (with_pins p1 tb).
        split; [reflexivity|]. split; [exact Hp1|]. split; [reflexivity|].
        split; [split; [discriminate | lia]|]. split; [intros; lia|].
        split; [reflexivity | congruence].
      * rewrite _safely_get_historical_version_with_pins.
        destruct (_safely_get_historical_version_pure latest_rid base_rid
                    (Z.abs_nat relative_version) tb) as (v & Hrun & Hnone & _).
        rewrite Hrun. exists v, p1, latest_rid, (with_pins p1 tb).
        split; [reflexivity|]. split; [exact Hp1|]. split; [reflexivity|].
        split; [split; [congruence | lia]|]. split; [intros; lia|].
        split; [congruence | intros _ _; rewrite Hrun; reflexivity].
    + exists INone, (pin_counts (bufferpool tb)), latest_rid, (with_pins p1 tb).
      rewrite with_pins_id. split; [reflexivity|]. split; [reflexivity|].
      split; [exact Hlatest|]. split; [split; [lia | reflexivity]|].
      split; [intros; lia|]. split; intros; lia.
Qed.

End Historical_facts.

Section Select_facts.
Context {env : Env}.
Variable find_record : Z -> RID -> list Z -> TM Record_.

Lemma select_step_Ok k proj r q :
  exists step q', select_step find_record k proj r q = (Ok step, q').
Proof.
  unfold select_step. destruct (lock_guard k LRead q) as [[|] q1]; [|eexists _, _; reflexivity].
  unfold lift, try_except.
  destruct (bind (select_record find_record k proj r) _ (table q1)) as [[step|e] tb'];
    eexists _, _; reflexivity.
Qed.

Lemma select_loop_Ok k proj rids : forall result q,
  exists res q',
    select_loop find_record k proj rids result q = (Ok res, q') /\
    (length res <= length result + length rids)%nat.
Proof.
  induction rids as [|r rids IH]; intros result q.
  - exists result, q. split; [reflexivity | lia].
  - cbn [select_loop]. unfold bind.
    destruct (select_step_Ok k proj r q) as (step & q1 & ->).
    destruct step as [| |record].
    + exists [], q1. split; [reflexivity | cbn; lia].
    + destruct (IH result q1) as (res & q' & -> & Hlen). exists res, q'.
      split; [reflexivity | cbn; lia].
    + destruct (IH (result ++ [record]) q1) as (res & q' & -> & Hlen). exists res, q'.
      split; [reflexivity|]. rewrite length_app in Hlen. cbn in *. lia.
Qed.

(** X9: whatever [Table.find_record] does, [select] never raises.  It
    returns at most one record per located RID, and when the index has no RID
    for the key it returns [[]] and changes nothing. *)
Theorem select_never_raises (search_key : Z) (search_key_index : nat)
    (projected_columns_index : list Z) (q : Query) :
  exists res q',
    select find_record search_key search_key_index projected_columns_index q = (Ok res, q') /\
    (length res <= length (locate (index (table q)) search_key_index search_key))%nat /\
    (locate (index (table q)) search_key_index search_key = [] -> q' = q).
Proof.
  unfold select, bind, get.
  destruct (locate (index (table q)) search_key_index search_key) as [|r rids].
  - exists [], q. split; [reflexivity|]. split; [cbn; lia | reflexivity].
  - destruct (select_loop_Ok search_key projected_columns_index (r :: rids) [] q)
      as (res & q' & Hrun & Hlen).
    exists res, q'. split; [exact Hrun|]. split; [exact Hlen | discriminate].
Qed.

Lemma select_step_tail_record k proj r tb p prid record :
  find_tail_record (page_directory tb) k = Some (prid, record) ->
  exists p',
    select_step find_record k proj r (mkQuery (with_pins p tb) None)
    = (Ok (tail_record_step k proj prid record), mkQuery (with_pins p' tb) None) /\
    same_pins p' p.
Proof.
  intros Hfind. unfold select_step, lock_guard. cbn [transaction].
  unfold lift, try_except, bind, select_record, bind. cbn [table transaction].
  destruct (_safely_get_latest_version_balanced r tb p) as (v & p1 & -> & Hp1).
  unfold get. change (page_directory (with_pins p1 tb)) with (page_directory tb).
  rewrite Hfind. unfold tail_record_step.
  destruct (project_record (rec_columns record) 0 proj) as [values|e];
    exists p1; (split; [reflexivity | exact Hp1]).
Qed.

Lemma select_loop_tail_record k proj tb prid record rids : forall result p,
  find_tail_record (page_directory tb) k = Some (prid, record) ->
  exists p',
    select_loop find_record k proj rids result (mkQuery (with_pins p tb) None)
    = (Ok (result ++ match project_record (rec_columns record) 0 proj with
                     | Ok values => replicate (length rids) (mkRecord (IRid prid) k values)
                     | Raise _ => []
                     end),
       mkQuery (with_pins p' tb) None) /\
    same_pins p' p.
Proof.
  induction rids as [|r rids IH]; intros result p Hfind.
  - exists p. split; [|apply same_pins_refl]. cbn [select_loop length replicate].
    destruct (project_record _ _ _); rewrite app_nil_r; reflexivity.
  - cbn [select_loop]. unfold bind.
    destruct (select_step_tail_record k proj r tb p prid record Hfind) as (p1 & -> & Hp1).
    unfold tail_record_step.
    destruct (project_record (rec_columns record) 0 proj) as [values|e] eqn:Hproj.
    + destruct (IH (result ++ [mkRecord (IRid prid) k values]) p1 Hfind) as (p2 & -> & Hp2).
      exists p2. split; [|eapply same_pins_trans; [exact Hp2 | exact Hp1]].
      rewrite <- app_assoc. reflexivity.
    + destruct (IH result p1 Hfind) as (p2 & -> & Hp2).
      exists p2. split; [reflexivity | eapply same_pins_trans; [exact Hp2 | exact Hp1]].
Qed.

Lemma select_with_tail_record (search_key : Z) (search_key_index : nat)
    (projected_columns_index : list Z) (q : Query) (prid : RID) (record : Record_) :
  transaction q = None ->
  find_tail_record (page_directory (table q)) search_key = Some (prid, record) ->
  exists p',
    select find_record search_key search_key_index projected_columns_index q
    = (Ok match project_record (rec_columns record) 0 projected_columns_index with
          | Ok values =>
              replicate (length (locate (index (table q)) search_key_index search_key))
                        (mkRecord (IRid prid) search_key values)
          | Raise _ => []
          end,
       mkQuery (with_pins p' (table q)) None) /\
    forall id, default 0 (p' !! id) = pin_count (bufferpool (table q)) id.
Proof.
  intros Htx Hfind. destruct q as [tb tx]. cbn [table transaction] in *. subst tx.
  unfold select, bind, get. cbn [table].
  destruct (locate (index tb) search_key_index search_key) as [|r rids] eqn:Hloc.
  - exists (pin_counts (bufferpool tb)). rewrite with_pins_id.
    split; [|reflexivity]. destruct (project_record _ _ _); reflexivity.
  - destruct (select_loop_tail_record search_key projected_columns_index tb prid record
                (r :: rids) [] (pin_counts (bufferpool tb)) Hfind) as (p' & Hrun & Hp').
    rewrite with_pins_id in Hrun. exists p'. split; [exact Hrun | exact Hp'].
Qed.

(** X10: outside a transaction, when the page directory holds a tail
    record with the search key, [select] uses neither the version it resolved
    nor [Table.find_record]: for each located RID it returns the first such
    tail record of the page directory, under that record's RID and with its
    projected columns (nothing, when the projection reaches past the
    record's columns).  Every page ends with the pin count it had. *)
Theorem select_first_tail_record (search_key : Z) (search_key_index : nat)
    (projected_columns_index : list Z) (q : Query) (prid : RID) (record : Record_) :
  transaction q = None ->
  find_tail_record (page_directory (table q)) search_key = Some (prid, record) ->
  exists p',
    select find_record search_key search_key_index projected_columns_index q
    = (Ok match project_record (rec_columns record) 0 projected_columns_index with
          | Ok values =>
              replicate (length (locate (index (table q)) search_key_index search_key))
                        (mkRecord (IRid prid) search_key values)
          | Raise _ => []
          end,
       mkQuery (with_pins p' (table q)) None) /\
    forall id, default 0 (p' !! id) = pin_count (bufferpool (table q)) id.
Proof.
  intros Htx Hfind.
  exact (select_with_tail_record search_key search_key_index projected_columns_index q
           prid record Htx Hfind).
Qed.

Lemma project_record_ones (cols : list Z) (n : nat) : forall i,
  (i + n <= length cols)%nat ->
  project_record cols i (replicate n 1) = Ok (take n (drop i cols)).
Proof.
  induction n as [|n IH]; intros i Hlen; [reflexivity|].
  cbn [replicate project_record]. rewrite decide_True by reflexivity.
  destruct (cols !! i) as [v|] eqn:Hv; [|apply lookup_ge_None in Hv; lia].
  rewrite IH by lia. rewrite (drop_S _ _ _ Hv). reflexivity.
Qed.

(** X11: outside a transaction, for a key the index locates and that has
    a tail record with a value for every column in the page directory:
    [increment] of a column of the table is the [update] that sets this
    column to the value of the first such tail record plus one and gives
    [None] for every other column; [increment] of a column position past the
    table's columns raises [IndexError] instead of returning [False]. *)
Theorem increment_first_tail_record (now : string) (k : Z) (column : nat) (q : Query)
    (r : RID) (rest : list RID) (prid : RID) (record : Record_) :
  transaction q = None ->
  locate (index (table q)) (key (table q)) k = r :: rest ->
  find_tail_record (page_directory (table q)) k = Some (prid, record) ->
  (num_columns (table q) <= length (rec_columns record))%nat ->
  exists p',
    (forall id, default 0 (p' !! id) = pin_count (bufferpool (table q)) id) /\
    ((column < num_columns (table q))%nat ->
     exists v,
       rec_columns record !! column = Some v /\
       increment find_record now k column q
       = update now k (<[column := Some (v + 1)]> (replicate (num_columns (table q)) None))
           (mkQuery (with_pins p' (table q)) None)) /\
    ((num_columns (table q) <= column)%nat ->
     increment find_record now k column q
     = (Raise IndexError, mkQuery (with_pins p' (table q)) None)).
Proof.
  intros Htx Hloc Hfind Hlen.
  destruct (select_with_tail_record k (key (table q)) (replicate (num_columns (table q)) 1)
              q prid record Htx Hfind) as (p' & Hsel & Hp').
  rewrite project_record_ones, Hloc in Hsel by (cbn; lia).
  rewrite drop_0 in Hsel. cbn [length replicate] in Hsel.
  exists p'. split; [exact Hp'|].
  unfold increment, bind, get. rewrite Hsel. cbn [rec_columns table].
  change (num_columns (with_pins p' (table q))) with (num_columns (table q)).
  rewrite length_replicate. split.
  - intros Hc. destruct (rec_columns record !! column) as [v|] eqn:Hv;
      [|apply lookup_ge_None in Hv; lia].
    exists v. split; [reflexivity|].
    rewrite lookup_take_lt by exact Hc. rewrite Hv. unfold of_option, ret.
    rewrite decide_True by exact Hc. reflexivity.
  - intros Hc. rewrite lookup_take_ge by exact Hc. reflexivity.
Qed.

End Select_facts.

Section Sum_version_facts.
Context {env : Env}.

Lemma sum_version_value_reads rv b kv agg tb p :
  exists res p',
    sum_version_value rv b kv agg (with_pins p tb) = (res, with_pins p' tb) /\
    same_pins p' p.
Proof.
  assert (Hread : forall t p1, same_pins p1 p ->
            exists res p',
              bind (_get_column_value t agg) (fun value => ret (default 0 value))
                   (with_pins p1 tb) = (res, with_pins p' tb) /\ same_pins p' p).
  { intros t p1 Hp1. unfold bind.
    destruct (_get_column_value_balanced t agg tb p1) as (p2 & -> & Hp2).
    eexists _, p2. split; [reflexivity | eapply same_pins_trans; [exact Hp2 | exact Hp1]]. }
  unfold sum_version_value.
  destruct (decide (rv = 0)).
  { unfold bind at 1.
    destruct (_safely_get_latest_version_balanced b tb p) as (v & p1 & -> & Hp1).
    unfold bind at 1, get. change (page_directory (with_pins p1 tb)) with (page_directory tb).
    destruct (find_tail_record (page_directory tb) kv) as [[prid rec]|].
    - destruct (rec_columns rec !! agg); eexists _, p1; (split; [reflexivity | exact Hp1]).
    - apply Hread. exact Hp1. }
  destruct (decide (rv = -1)); [apply Hread, same_pins_refl|].
  destruct (decide (rv = -2)).
  { unfold bind at 1.
    destruct (_safely_get_latest_version_balanced b tb p) as (v & p1 & Hlatest & Hp1).
    rewrite Hlatest. unfold bind at 1.
    destruct (decide (v ≠ b)) as [Hne|Heq]; [|apply Hread; exact Hp1].
    unfold bind at 1.
    destruct (_build_indirection_chain_after_latest b v tb p p1 _ Hlatest Hne)
      as (chain & p2 & -> & _ & _ & Hp2).
    assert (Hp2' : same_pins p2 p) by (eapply same_pins_trans; [exact Hp2 | exact Hp1]).
    destruct (decide (2 <= length chain)%nat); [|apply Hread; exact Hp2'].
    destruct (chain !! (length chain - 2)%nat) as [t|]; [apply Hread; exact Hp2'|].
    eexists _, p2. split; [reflexivity | exact Hp2']. }
  unfold bind at 1.
  destruct (_safely_get_latest_version_balanced b tb p) as (v & p1 & -> & Hp1).
  destruct (decide (v ≠ b)) as [Hne|Heq]; [|apply Hread; exact Hp1].
  unfold bind at 1. rewrite _safely_get_historical_version_with_pins.
  destruct (_safely_get_historical_version_pure v b (Z.abs_nat rv) tb) as (t & -> & _).
  cbn [fst]. unfold bind at 1.
  destruct t as [| |t]; [eexists _, p1; split; [reflexivity | exact Hp1] ..|].
  apply Hread. exact Hp1.
Qed.

Lemma sum_version_step_reads lo hi agg rv b acc tb p :
  exists acc' p',
    sum_version_step lo hi agg rv b acc (with_pins p tb) = (Ok acc', with_pins p' tb) /\
    same_pins p' p.
Proof.
  unfold sum_version_step, try_except. unfold bind at 1, gets at 1.
  change (key (with_pins p tb)) with (key tb). unfold bind at 1.
  destruct (_get_column_value_balanced b (key tb) tb p) as (p1 & -> & Hp1).
  destruct (stored_value tb b (key tb)) as [kv|];
    [|eexists _, p1; split; [reflexivity | exact Hp1]].
  unfold bind at 1. cbn [of_option]. unfold ret at 1.
  destruct (decide (kv < lo \/ hi < kv \/ kv ∈ acc.2));
    [eexists _, p1; split; [reflexivity | exact Hp1]|].
  unfold bind.
  destruct (sum_version_value_reads rv b kv agg tb p1) as (res & p2 & -> & Hp2).
  destruct res; eexists _, p2;
    (split; [reflexivity | eapply same_pins_trans; [exact Hp2 | exact Hp1]]).
Qed.

Lemma sum_version_loop_reads lo hi agg rv rids : forall acc tb p,
  exists acc' p',
    sum_version_loop lo hi agg rv rids acc (with_pins p tb) = (Ok acc', with_pins p' tb) /\
    same_pins p' p.
Proof.
  induction rids as [|b rids IH]; intros acc tb p;
    [eexists _, p; split; [reflexivity | apply same_pins_refl]|].
  cbn [sum_version_loop]. unfold bind.
  destruct (sum_version_step_reads lo hi agg rv b acc tb p) as (acc1 & p1 & -> & Hp1).
  destruct (IH acc1 tb p1) as (acc2 & p2 & Hrun & Hp2).
  exists acc2, p2. split; [exact Hrun | eapply same_pins_trans; [exact Hp2 | exact Hp1]].
Qed.

(** X12: [sum_version] never raises and changes nothing of the query but
    the pin-count map, where every page ends with the count it had.  Over a
    range in which the index locates nothing it returns 0. *)
Theorem sum_version_reads (start_range end_range : Z) (aggregate_column_index : nat)
    (relative_version : Z) (q : Query) :
  exists total p',
    sum_version start_range end_range aggregate_column_index relative_version q
    = (Ok total, mkQuery (with_pins p' (table q)) (transaction q)) /\
    (forall id, default 0 (p' !! id) = pin_count (bufferpool (table q)) id) /\
    (locate_range (index (table q)) start_range end_range (key (table q)) = [] ->
     total = 0).
Proof.
  unfold sum_version, lift, bind, get.
  destruct (locate_range (index (table q)) start_range end_range (key (table q)))
    as [|r rids] eqn:Hloc.
  - exists 0, (pin_counts (bufferpool (table q))). rewrite with_pins_id.
    repeat split.
  - destruct (sum_version_loop_reads start_range end_range aggregate_column_index
                relative_version (r :: rids) (0, []) (table q)
                (pin_counts (bufferpool (table q)))) as (acc & p' & Hloop & Hp').
    rewrite with_pins_id in Hloop. rewrite Hloop.
    eexists _, p'. split; [reflexivity|]. split; [exact Hp' | discriminate].
Qed.

Lemma sum_version_step_base lo hi agg r acc tb p :
  latest_of tb r = r ->
  exists p',
    sum_version_step lo hi agg (-1) r acc (with_pins p tb)
    = (Ok (sum_step_pure tb lo hi agg acc r), with_pins p' tb).
Proof.
  intros Hlatest.
  unfold sum_version_step, sum_step_pure, sum_entry, try_except. rewrite Hlatest.
  unfold bind at 1, gets at 1.
  change (key (with_pins p tb)) with (key tb). unfold bind at 1.
  destruct (_get_column_value_balanced r (key tb) tb p) as (p1 & -> & Hp1).
  destruct (stored_value tb r (key tb)) as [kv|]; cbn [mbind option_bind];
    [|eexists; reflexivity].
  unfold bind at 1. cbn [of_option]. unfold ret at 1.
  destruct (decide (kv < lo \/ hi < kv \/ kv ∈ acc.2)) as [Hskip|Hkeep].
  - destruct (decide (lo <= kv /\ kv <= hi)) as [Hin|Hout]; [|eexists; reflexivity].
    destruct (decide (kv ∈ acc.2)); [eexists; reflexivity|].
    exfalso. destruct Hskip as [?|[?|?]]; [lia | lia | contradiction].
  - destruct (decide (lo <= kv /\ kv <= hi)) as [Hin|Hout];
      [|exfalso; apply Hkeep; destruct (decide (kv < lo)); [tauto | right; left; lia]].
    destruct (decide (kv ∈ acc.2)); [exfalso; tauto|].
    unfold sum_version_value. rewrite decide_False by discriminate.
    rewrite decide_True by reflexivity. unfold bind.
    destruct (_get_column_value_balanced r agg tb p1) as (p2 & -> & Hp2).
    eexists. reflexivity.
Qed.

Lemma sum_version_loop_base lo hi agg tb rids : forall acc p,
  (forall r, r ∈ rids -> latest_of tb r = r) ->
  exists p',
    sum_version_loop lo hi agg (-1) rids acc (with_pins p tb)
    = (Ok (foldl (sum_step_pure tb lo hi agg) acc rids), with_pins p' tb).
Proof.
  induction rids as [|r rids IH]; intros acc p Hall; [eexists; reflexivity|].
  cbn [sum_version_loop foldl]. unfold bind.
  destruct (sum_version_step_base lo hi agg r acc tb p) as (p1 & ->);
    [apply Hall, list_elem_of_here|].
  apply IH. intros r' Hr'. apply Hall, list_elem_of_further, Hr'.
Qed.

(** X13: when no record located in the range has a newer version (each
    base RID resolves to itself), [sum_version] with relative version -1
    returns the number [sum] returns for the range; over a range without
    located records [sum] returns [False] where [sum_version] returns 0. *)
Theorem sum_version_base_is_sum (start_range end_range : Z) (aggregate_column_index : nat)
    (q : Query) :
  (forall r, r ∈ locate_range (index (table q)) start_range end_range (key (table q)) ->
             latest_of (table q) r = r) ->
  exists total,
    (sum_version start_range end_range aggregate_column_index (-1) q).1 = Ok total /\
    (sum start_range end_range aggregate_column_index q).1
    = Ok (match locate_range (index (table q)) start_range end_range (key (table q)) with
          | [] => SumFalse
          | _ => SumInt total
          end).
Proof.
  intros Hall. unfold sum_version, sum, lift, bind, get.
  destruct (locate_range (index (table q)) start_range end_range (key (table q)))
    as [|r rids] eqn:Hloc.
  - exists 0. split; reflexivity.
  - destruct (sum_version_loop_base start_range end_range aggregate_column_index (table q)
                (r :: rids) (0, []) (pin_counts (bufferpool (table q))) Hall) as (p1 & Hv).
    destruct (sum_loop_reads start_range end_range aggregate_column_index (r :: rids) (0, [])
                (table q) (pin_counts (bufferpool (table q)))) as (p2 & Hs).
    rewrite with_pins_id in Hv, Hs. rewrite Hv, Hs.
    eexists. split; reflexivity.
Qed.

End Sum_version_facts.

Section Monad_inversion.
Context {S A B : Type}.

Lemma bind_inv (m : M S A) (k : A -> M S B) s r s' :
  bind m k s = (r, s') ->
  (exists e, m s = (Raise e, s') /\ r = Raise e) \/
  (exists a s1, m s = (Ok a, s1) /\ k a s1 = (r, s')).
Proof.
  unfold bind. destruct (m s) as [[a|e] s1].
  - intros H. right. eauto.
  - intros [= <- <-]. left. eauto.
Qed.

Lemma of_option_inv e (o : option A) (s : S) r s' :
  of_option e o s = (r, s') -> s' = s /\ (r = Raise e \/ exists a, o = Some a /\ r = Ok a).
Proof.
  destruct o; cbv; intros [= <- <-]; eauto.
Qed.

End Monad_inversion.

Section Frame_facts.
Context {env : Env}.

Lemma same_data_refl s : same_data s s.
Proof.
  split; [|reflexivity]. destruct s as [? ? ? ? ? ? ? ? [? ?] ?]. reflexivity.
Qed.

Lemma same_data_trans s1 s2 s3 : same_data s1 s2 -> same_data s2 s3 -> same_data s1 s3.
Proof.
  intros [H1 B1] [H2 B2]. split; [|rewrite B2; exact B1].
  etransitivity; [exact H2|].
  generalize (page_ranges s3) (pin_counts (bufferpool s3)). intros prs p.
  rewrite H1. reflexivity.
Qed.

Lemma same_data_with_pins p s : same_data s (with_pins p s).
Proof. split; reflexivity. Qed.

Lemma same_data_tail_pages s i (f : list Page -> list Page) :
  same_data s
    (set_page_ranges
       (alter (fun pr => mkPageRange (base_pages pr) (f (tail_pages pr))) i (page_ranges s)) s).
Proof.
  split; [|apply base_pages_alter_tail].
  destruct s as [? ? ? ? ? ? ? ? [? ?] ?]. reflexivity.
Qed.

Lemma of_option_frame {A} e (o : option A) s r s' :
  of_option e o s = (r, s') -> same_data s s'.
Proof. intros H. apply of_option_inv in H as [-> _]. apply same_data_refl. Qed.

Lemma get_page_frame id s r s' : get_page id s = (r, s') -> same_data s s'.
Proof. intros [= <- <-]. apply same_data_with_pins. Qed.

Lemma _get_latest_version_frame rid s r s' :
  _get_latest_version rid s = (r, s') -> same_data s s'.
Proof.
  destruct (_get_latest_version_reads rid s (pin_counts (bufferpool s))) as (p' & Hrun & _).
  rewrite with_pins_id in Hrun. rewrite Hrun. intros [= <- <-]. apply same_data_with_pins.
Qed.

Lemma ensure_tail_page_frame pr page_range s r s' :
  ensure_tail_page pr page_range s = (r, s') -> same_data s s'.
Proof.
  unfold ensure_tail_page. intros Hrun.
  apply bind_inv in Hrun as [(e & Hm & ->) | (needs_page & s1 & Hm & Hrun)].
  - destruct (last (tail_pages page_range)) as [p|]; [|discriminate].
    apply bind_inv in Hm as [(e' & Hm & _) | (c & s2 & Hm & Hrun)].
    + apply of_option_frame in Hm. exact Hm.
    + discriminate.
  - assert (Hs1 : s1 = s).
    { destruct (last (tail_pages page_range)) as [p|]; [|injection Hm as _ <-; reflexivity].
      apply bind_inv in Hm as [(e' & Hm & [=]) | (c & s2 & Hm & Hret)].
      apply of_option_inv in Hm as [-> _]. injection Hret as _ <-. reflexivity. }
    subst s1. destruct needs_page.
    + unfold bind, gets, modify_page_range, modify in Hrun. injection Hrun as <- <-.
      apply (same_data_tail_pages s pr (fun l => l ++ [new_page (num_columns s)])).
    + injection Hrun as <- <-. apply same_data_refl.
Qed.

Lemma modify_tail_page_frame pr tp (f : Page -> Page) s r s' :
  modify_tail_page pr tp f s = (r, s') -> same_data s s'.
Proof.
  unfold modify_tail_page, modify_page_range, modify. intros [= <- <-].
  apply (same_data_tail_pages s pr (alter f tp)).
Qed.

Lemma write_tail_columns_frame pr tp values : forall i cols s r s',
  write_tail_columns pr tp i values cols s = (r, s') -> same_data s s'.
Proof.
  induction values as [|value values IH]; intros i cols s r s' Hrun.
  - injection Hrun as <- <-. apply same_data_refl.
  - cbn [write_tail_columns] in Hrun.
    apply bind_inv in Hrun as [(e & Hm & ->) | (c & s1 & Hm & Hrun)];
      [eapply of_option_frame, Hm|].
    apply of_option_inv in Hm as [-> _].
    apply bind_inv in Hrun as [(e & [=] & _) | (tb & s1 & [= <- <-] & Hrun)].
    apply bind_inv in Hrun as [(e & Hm & ->) | (tail_page & s1 & Hm & Hrun)];
      [eapply of_option_frame, Hm|].
    apply of_option_inv in Hm as [-> _].
    apply bind_inv in Hrun as [(e & Hm & ->) | (pp & s1 & Hm & Hrun)];
      [eapply of_option_frame, Hm|].
    apply of_option_inv in Hm as [-> _].
    apply bind_inv in Hrun as [(e & Hm & ->) | (pp' & s1 & Hm & Hrun)];
      [eapply of_option_frame, Hm|].
    apply of_option_inv in Hm as [-> _].
    apply bind_inv in Hrun as [(e & Hm & ->) | ([] & s1 & Hm & Hrun)];
      [eapply modify_tail_page_frame, Hm|].
    apply modify_tail_page_frame in Hm. apply IH in Hrun.
    eapply same_data_trans; [exact Hm | exact Hrun].
Qed.

Lemma update_key_change_total pk new_key latest tail_rid s :
  exists s', update_key_change pk new_key latest tail_rid s = (Ok tt, s').
Proof.
  unfold update_key_change. destruct (decide (new_key ≠ pk)); [|eexists; reflexivity].
  unfold bind, get.
  destruct (dict_get (page_directory s) latest); cbn;
    destruct (indices (index s) !! key s); eexists; reflexivity.
Qed.

Lemma count_update_counter s :
  exists s',
    count_update s = (Ok tt, s') /\
    merge_counter s' = (if decide (MERGE_THRESHOLD <= merge_counter s + 1) then 0
                        else merge_counter s + 1) /\
    merge_scheduled s' = (if decide (MERGE_THRESHOLD <= merge_counter s + 1) then true
                          else merge_scheduled s).
Proof.
  unfold count_update, bind, modify, get. table_simpl.
  destruct (decide (MERGE_THRESHOLD <= merge_counter s + 1)); eexists; repeat split.
Qed.

(** How a run of the [try] block of [update] ends: with an exception,
    before anything but pin counts and tail page objects was written; or
    with [True], the update counted. *)
Lemma update_try_outcome now pk cols rid tb r tb' :
  update_try now pk cols rid tb = (r, tb') ->
  (exists e, r = Raise e /\ same_data tb tb') \/
  (r = Ok true /\
   merge_counter tb' = (if decide (MERGE_THRESHOLD <= merge_counter tb + 1) then 0
                        else merge_counter tb + 1) /\
   merge_scheduled tb' = (if decide (MERGE_THRESHOLD <= merge_counter tb + 1) then true
                          else merge_scheduled tb) /\
   lock_manager tb' = lock_manager tb /\ name tb' = name tb).
Proof.
  destruct rid as [[[pr pi] ri] ty]. intros Hrun. unfold update_try in Hrun.
  apply bind_inv in Hrun as [(e & [=] & _) | (tb0 & ? & [= <- <-] & Hrun)].
  apply bind_inv in Hrun as [(e & Hm & ->) | (page_range & s1 & Hm & Hrun)];
    [left; eexists; split; [reflexivity | eapply of_option_frame, Hm]|].
  apply of_option_inv in Hm as [-> _].
  apply bind_inv in Hrun as [(e & [=] & _) | (bd & s1 & Hm & Hrun)].
  apply get_page_frame in Hm. rename Hm into Hacc.
  apply bind_inv in Hrun as [(e & Hm & ->) | (latest & s2 & Hm & Hrun)];
    [left; eexists; split; [reflexivity|]; apply _get_latest_version_frame in Hm;
     eapply same_data_trans; eassumption|].
  apply _get_latest_version_frame in Hm.
  pose proof (same_data_trans _ _ _ Hacc Hm) as Hacc2. clear Hacc Hm s1.
  apply bind_inv in Hrun as [(e & Hm & ->) | (base_record & s1 & Hm & Hrun)];
    [left; eexists; split; [reflexivity|]; apply of_option_frame in Hm;
     eapply same_data_trans; eassumption|].
  apply of_option_inv in Hm as [-> _].
  apply bind_inv in Hrun as [(e & Hm & ->) | ([] & s3 & Hm & Hrun)];
    [left; eexists; split; [reflexivity|]; apply ensure_tail_page_frame in Hm;
     eapply same_data_trans; eassumption|].
  apply ensure_tail_page_frame in Hm.
  pose proof (same_data_trans _ _ _ Hacc2 Hm) as Hacc3. clear Hacc2 Hm s2.
  apply bind_inv in Hrun as [(e & [=] & _) | (tb1 & ? & [= <- <-] & Hrun)].
  apply bind_inv in Hrun as [(e & Hm & ->) | (page_range1 & s1 & Hm & Hrun)];
    [left; eexists; split; [reflexivity|]; apply of_option_frame in Hm;
     eapply same_data_trans; eassumption|].
  apply of_option_inv in Hm as [-> _].
  apply bind_inv in Hrun as [(e & [=] & _) | (td & s4 & Hm & Hrun)].
  apply get_page_frame in Hm.
  pose proof (same_data_trans _ _ _ Hacc3 Hm) as Hacc4. clear Hacc3 Hm s3.
  apply bind_inv in Hrun as [(e & Hm & ->) | (schema & s1 & Hm & Hrun)];
    [left; eexists; split; [reflexivity|]; apply of_option_frame in Hm;
     eapply same_data_trans; eassumption|].
  apply of_option_inv in Hm as [-> _].
  apply bind_inv in Hrun as [(e & Hm & ->) | (original_key & s1 & Hm & Hrun)];
    [left; eexists; split; [reflexivity|]; apply of_option_frame in Hm;
     eapply same_data_trans; eassumption|].
  apply of_option_inv in Hm as [-> _].
  apply bind_inv in Hrun as [(e & Hm & ->) | (td_columns & s5 & Hm & Hrun)];
    [left; eexists; split; [reflexivity|]; apply write_tail_columns_frame in Hm;
     eapply same_data_trans; eassumption|].
  apply write_tail_columns_frame in Hm.
  pose proof (same_data_trans _ _ _ Hacc4 Hm) as Hacc5. clear Hacc4 Hm s4.
  apply bind_inv in Hrun as [(e & [=] & _) | ([] & s6 & Hm & Hrun)].
  apply modify_tail_page_frame in Hm.
  pose proof (same_data_trans _ _ _ Hacc5 Hm) as Hacc6. clear Hacc5 Hm s5.
  apply bind_inv in Hrun as [(e & Hm & ->) | ([] & s1 & Hm & Hrun)].
  { left. eexists. split; [reflexivity|].
    destruct (decide (ri < length _)%nat); [discriminate|]. injection Hm as _ <-.
    exact Hacc6. }
  assert (s1 = s6) by (destruct (decide (ri < length _)%nat); [|discriminate];
                       injection Hm as <-; reflexivity).
  subst s1. clear Hm. right.
  apply bind_inv in Hrun as [(e & [=] & _) | ([] & ? & [= <-] & Hrun)].
  apply bind_inv in Hrun as [(e & [=] & _) | ([] & ? & [= <-] & Hrun)].
  apply bind_inv in Hrun as [(e & [=] & _) | ([] & ? & [= <-] & Hrun)].
  apply bind_inv in Hrun as [(e & Hm & _) | ([] & s7 & Hm & Hrun)].
  { match type of Hm with
    | update_key_change ?a ?b ?c ?d ?s = _ =>
        destruct (update_key_change_total a b c d s) as (s' & Hs')
    end.
    rewrite Hs' in Hm. discriminate. }
  apply update_key_change_Ok in Hm as (Hs7 & _ & _).
  apply bind_inv in Hrun as [(e & [=] & _) | ([] & ? & [= <-] & Hrun)].
  apply bind_inv in Hrun as [(e & [=] & _) | ([] & ? & [= <-] & Hrun)].
  apply bind_inv in Hrun as [(e & Hm & _) | ([] & s8 & Hm & Hrun)].
  { match type of Hm with
    | count_update ?s = _ => destruct (count_update_counter s) as (s' & Hs' & _)
    end.
    rewrite Hs' in Hm. discriminate. }
  injection Hrun as <- <-.
  match type of Hm with
  | count_update ?s = _ => destruct (count_update_counter s) as (s' & Hs' & Hc & Hsch)
  end.
  rewrite Hs' in Hm. injection Hm as <-.
  destruct Hacc6 as [Hs6 _].
  assert (H7 : merge_counter s7 = merge_counter s6 /\ merge_scheduled s7 = merge_scheduled s6
               /\ lock_manager s7 = lock_manager s6 /\ name s7 = name s6)
    by (rewrite Hs7; repeat split).
  assert (H6 : merge_counter s6 = merge_counter tb /\ merge_scheduled s6 = merge_scheduled tb
               /\ lock_manager s6 = lock_manager tb /\ name s6 = name tb)
    by (rewrite Hs6; repeat split).
  destruct H7 as (Hc7 & Hm7 & Hl7 & Hn7). destruct H6 as (Hc6 & Hm6 & Hl6 & Hn6).
  rewrite Hc, Hsch. table_simpl. rewrite Hc7, Hm7, Hc6, Hm6.
  split; [reflexivity|]. split; [reflexivity|]. split; [reflexivity|].
  assert (Hl : lock_manager s' = lock_manager s7 /\ name s' = name s7).
  { unfold count_update, bind, modify, get in Hs'. table_simpl.
    destruct (decide _); injection Hs' as <-; split; reflexivity. }
  destruct Hl as [-> ->]. rewrite Hl7, Hn7, Hl6, Hn6. split; reflexivity.
Qed.

End Frame_facts.

Section Update_theorems.
Context {env : Env}.

Lemma same_data_fields s s' :
  same_data s s' ->
  frames (bufferpool s') = frames (bufferpool s) /\
  page_directory s' = page_directory s /\
  index s' = index s /\
  base_pages <$> page_ranges s' = base_pages <$> page_ranges s /\
  merge_counter s' = merge_counter s /\ merge_scheduled s' = merge_scheduled s /\
  key s' = key s /\ num_columns s' = num_columns s.
Proof.
  intros [Hs Hb]. split; [rewrite Hs; reflexivity|]. split; [rewrite Hs; reflexivity|].
  split; [rewrite Hs; reflexivity|]. split; [exact Hb|].
  repeat split; rewrite Hs; reflexivity.
Qed.

(** X14: an [update] that returns [False] leaves the page directory, the
    index, the base page objects, the merge counter and the merge flag as it
    found them. *)
Theorem update_failure_keeps_records (now : string) (primary_key : Z)
    (cols : list (option Z)) (q q' : Query) :
  update now primary_key cols q = (Ok false, q') ->
  page_directory (table q') = page_directory (table q) /\
  index (table q') = index (table q) /\
  base_pages <$> page_ranges (table q') = base_pages <$> page_ranges (table q) /\
  merge_counter (table q') = merge_counter (table q) /\
  merge_scheduled (table q') = merge_scheduled (table q).
Proof.
  unfold update. intros Hrun.
  destruct (locate (index (table q)) (key (table q)) primary_key) as [|base_rid rest].
  { injection Hrun as <-. repeat split. }
  destruct (lock_guard primary_key LUpdate q) as [ok q1] eqn:Hlock.
  destruct (lock_guard_table _ _ _ _ _ Hlock) as [lm Hq1].
  destruct ok; [|injection Hrun as <-; rewrite Hq1; repeat split].
  unfold lift, try_except in Hrun. rewrite Hq1 in Hrun.
  destruct (update_try now primary_key cols base_rid (set_lock_manager lm (table q)))
    as [res tb'] eqn:Htry.
  apply update_try_outcome in Htry as [(e & -> & Hsame) | (-> & _)]; [|discriminate].
  injection Hrun as <-. cbn [table].
  apply same_data_fields in Hsame as (_ & Hd & Hi & Hb & Hc & Hm & _).
  rewrite Hd, Hi, Hb, Hc, Hm. repeat split.
Qed.

(** X15: every successful [update] adds one to the merge counter; when
    the counter reaches [MERGE_THRESHOLD] it is set back to 0 and a merge is
    scheduled. *)
Theorem update_counts_towards_merge (now : string) (primary_key : Z)
    (cols : list (option Z)) (q q' : Query) :
  update now primary_key cols q = (Ok true, q') ->
  merge_counter (table q')
  = (if decide (MERGE_THRESHOLD <= merge_counter (table q) + 1) then 0
     else merge_counter (table q) + 1) /\
  merge_scheduled (table q')
  = (if decide (MERGE_THRESHOLD <= merge_counter (table q) + 1) then true
     else merge_scheduled (table q)).
Proof.
  intros Hrun. apply update_Ok in Hrun as (base_rid & rest & lm & _ & Htry).
  apply update_try_outcome in Htry as [(e & [=] & _) | (_ & Hc & Hm & _)].
  split; [exact Hc | exact Hm].
Qed.

Lemma locate_index_insert_col (ix : Index) (col col' : nat) (value value' : Z) (r : RID) :
  locate (index_insert_col col value r ix) col' value'
  = if decide (col' = col /\ value' = value /\ is_Some (indices ix !! col)
               /\ r ∉ locate ix col value)
    then locate ix col value ++ [r]
    else locate ix col' value'.
Proof.
  unfold locate, index_insert_col.
  destruct (indices ix !! col) as [m|] eqn:Hcol.
  - cbn [indices]. destruct (decide (col' = col)) as [->|Hne].
    + rewrite lookup_insert_eq, Hcol. destruct (decide (value' = value)) as [->|Hv].
      * rewrite lookup_insert_eq. cbn [default from_option].
        destruct (decide (r ∈ default [] (m !! value))) as [Hin|Hout].
        -- rewrite decide_False by tauto. reflexivity.
        -- rewrite decide_True by eauto. reflexivity.
      * rewrite lookup_insert_ne by congruence. rewrite decide_False by tauto. reflexivity.
    + rewrite lookup_insert_ne by congruence. rewrite decide_False by tauto. reflexivity.
  - rewrite decide_False; [reflexivity|]. intros (-> & _ & [? Hs] & _). congruence.
Qed.

Lemma locate_delete_other (ix : Index) (col : nat) (value value' : Z) (r : RID) :
  value' <> value ->
  locate (index_delete_col col value r ix) col value' = locate ix col value'.
Proof.
  intros Hne. unfold locate, index_delete_col.
  destruct (indices ix !! col) as [m|] eqn:Hcol; [|rewrite Hcol; reflexivity].
  destruct (m !! value) as [old|] eqn:Hval; [|rewrite Hcol; reflexivity].
  cbn [indices]. rewrite lookup_insert_eq, lookup_insert_ne by congruence. reflexivity.
Qed.

Lemma indices_index_delete_col (ix : Index) (col col' : nat) (value : Z) (r : RID) :
  is_Some (indices (index_delete_col col value r ix) !! col')
  <-> is_Some (indices ix !! col').
Proof.
  unfold index_delete_col.
  destruct (indices ix !! col) as [m|] eqn:Hcol; [|reflexivity].
  destruct (m !! value); [|reflexivity]. cbn [indices].
  destruct (decide (col = col')) as [<-|Hne].
  - rewrite lookup_insert_eq, Hcol. split; eauto.
  - rewrite lookup_insert_ne by exact Hne. reflexivity.
Qed.

(** The index after a successful [update] that changes the primary key,
    on a table with an index on the key column, at the RID [b] the index
    gives for the key, whatever the type of [b]: the new tail RID is filed
    under the new key, and the old key's entry loses just
    [latest_of (table q) b]. *)
Lemma update_key_change_index_located (now : string) (primary_key : Z) (cols : list (option Z))
    (q q' : Query) :
  update now primary_key cols q = (Ok true, q') ->
  update_new_key (table q) primary_key cols <> primary_key ->
  is_Some (indices (index (table q)) !! key (table q)) ->
  exists b rest tail_rid,
    let latest := latest_of (table q) b in
    let new_key := update_new_key (table q) primary_key cols in
    locate (index (table q)) (key (table q)) primary_key = b :: rest /\
    tail_rid.2 = tail /\
    tail_rid ∈ locate (index (table q')) (key (table q)) new_key /\
    locate (index (table q')) (key (table q)) primary_key
    = filter (fun r => r <> latest) (b :: rest) /\
    (latest <> b -> head (locate (index (table q')) (key (table q)) primary_key) = Some b) /\
    (latest = b -> b ∉ locate (index (table q')) (key (table q)) primary_key).
Proof.
  intros Hrun Hnew Hidx.
  apply update_Ok in Hrun as ([[[pr pi] ri] ty] & rest & lm & Hloc & Htry).
  apply update_try_Ok in Htry
    as (page_range & base_record & original_key & tail_page_idx & td_columns & schema & tp0
        & _ & _ & _ & _ & _ & _ & _ & _ & Hix & _).
  cbn zeta in *.
  change (page_data_of (set_lock_manager lm (table q))) with (page_data_of (table q)) in *.
  change (latest_of (set_lock_manager lm (table q))) with (latest_of (table q)) in *.
  change (update_new_key (set_lock_manager lm (table q))) with (update_new_key (table q)) in *.
  table_simpl. rewrite decide_True in Hix by exact Hnew.
  destruct Hidx as [m Hm]. rewrite Hm in Hix.
  set (latest := latest_of (table q) (pr, pi, ri, ty)) in *.
  set (new_key := update_new_key (table q) primary_key cols) in *.
  set (tail_rid := (pr, tail_page_idx,
                    length (d_rid (page_data_of (table q) (tail, pr, tail_page_idx))),
                    tail) : RID) in *.
  exists (pr, pi, ri, ty), rest, tail_rid.
  split; [exact Hloc|]. split; [reflexivity|].
  assert (Hpk : locate (index (table q')) (key (table q)) primary_key
                = filter (fun r => r <> latest) ((pr, pi, ri, ty) :: rest)).
  { rewrite Hix, locate_index_insert_col.
    rewrite decide_False by (intros (_ & Heq & _); congruence).
    rewrite locate_index_delete_col, Hloc. reflexivity. }
  split.
  { rewrite Hix, locate_index_insert_col.
    destruct (decide _) as [_|Hno].
    - rewrite elem_of_app, list_elem_of_singleton. right. reflexivity.
    - destruct (decide (tail_rid ∈ locate (index_delete_col (key (table q)) primary_key latest
                                             (index (table q))) (key (table q)) new_key))
        as [Hin|Hout]; [exact Hin|].
      exfalso. apply Hno. split; [reflexivity|]. split; [reflexivity|].
      split; [|exact Hout]. apply indices_index_delete_col. eauto. }
  split; [exact Hpk|]. rewrite Hpk, filter_cons. split.
  - intros Hne. rewrite decide_True by (intros Heq; apply Hne; symmetry; exact Heq).
    reflexivity.
  - intros Heq. rewrite decide_False by (intros Hne; apply Hne; symmetry; exact Heq).
    rewrite list_elem_of_filter. intros [Hne _]. apply Hne. symmetry. exact Heq.
Qed.

End Update_theorems.

Section Insert_facts.
Context {env : Env}.

Lemma dict_get_dict_set_eq {V} (d : list (RID * V)) (k : RID) (v : V) :
  dict_get (dict_set d k v) k = Some v.
Proof.
  induction d as [|[k0 v0] d IH]; cbn [dict_set dict_get].
  - rewrite decide_True by reflexivity. reflexivity.
  - destruct (decide (k0 = k)) as [->|Hne]; cbn [dict_get].
    + rewrite decide_True by reflexivity. reflexivity.
    + rewrite decide_False by exact Hne. exact IH.
Qed.

Lemma indices_index_insert_col (ix : Index) (col col' : nat) (value : Z) (r : RID) :
  is_Some (indices (index_insert_col col value r ix) !! col')
  <-> is_Some (indices ix !! col').
Proof.
  unfold index_insert_col.
  destruct (indices ix !! col) as [m|] eqn:Hcol; [|reflexivity]. cbn [indices].
  destruct (decide (col = col')) as [<-|Hne].
  - rewrite lookup_insert_eq, Hcol. split; eauto.
  - rewrite lookup_insert_ne by exact Hne. reflexivity.
Qed.

Lemma indices_insert_fold (r : RID) (col : nat) (l : list (nat * Z)) (ix : Index) :
  is_Some (indices (foldr (fun '(c, v) ix => index_insert_col c v r ix) ix l) !! col)
  <-> is_Some (indices ix !! col).
Proof.
  induction l as [|[c0 v0] l IH]; cbn [foldr]; [reflexivity|].
  rewrite indices_index_insert_col. exact IH.
Qed.

(** The index loop of [insert_record] on a column whose entry for the
    value was empty. *)
Lemma locate_insert_fold (r : RID) (col : nat) (v : Z) (ix : Index) (l : list (nat * Z)) :
  (forall v', (col, v') ∈ l -> v' = v) ->
  is_Some (indices ix !! col) ->
  locate ix col v = [] ->
  locate (foldr (fun '(c, v) ix => index_insert_col c v r ix) ix l) col v
  = if decide ((col, v) ∈ l) then [r] else [].
Proof.
  intros Huniq Hsome Hempty. induction l as [|[c0 v0] l IH]; cbn [foldr].
  - rewrite decide_False by apply not_elem_of_nil. exact Hempty.
  - assert (IH' := IH (fun v' Hv' => Huniq v' (list_elem_of_further _ _ _ Hv'))). clear IH.
    rewrite locate_index_insert_col.
    destruct (decide (col = c0)) as [<-|Hne].
    + assert (v0 = v) as -> by (apply Huniq, list_elem_of_here).
      rewrite (decide_True (P := (col, v) ∈ (col, v) :: l)) by apply list_elem_of_here.
      rewrite IH'. destruct (decide ((col, v) ∈ l)) as [Hin|Hout].
      * rewrite decide_False; [reflexivity|].
        intros (_ & _ & _ & Hr). apply Hr, list_elem_of_here.
      * rewrite decide_True; [reflexivity|].
        split; [reflexivity|]. split; [reflexivity|].
        split; [apply indices_insert_fold; exact Hsome | apply not_elem_of_nil].
    + rewrite decide_False by (intros (Heq & _); congruence). rewrite IH'.
      destruct (decide ((col, v) ∈ l)) as [Hin|Hout].
      * rewrite decide_True by (apply list_elem_of_further, Hin). reflexivity.
      * rewrite decide_False; [reflexivity|].
        rewrite elem_of_cons. intros [[= ? _]|?]; [congruence | contradiction].
Qed.

(** What a successful [insert_record] leaves in the page directory and
    the index. *)
Lemma insert_record_Ok ts sch cols tb tb' :
  insert_record ts sch cols tb = (Ok true, tb') ->
  exists pr bp slot key_value,
    let r : RID := (pr, bp, slot, base) in
    cols !! key tb = Some key_value /\
    key tb' = key tb /\
    page_directory tb' = dict_set (page_directory tb) r (mkRecord (IRid r) key_value cols) /\
    index tb'
    = foldr (fun '(c, v) ix => index_insert_col c v r ix) (index tb)
            (imap (fun c v => (c, v)) cols).
Proof.
  intros Hrun. unfold insert_record, try_except in Hrun.
  match type of Hrun with
  | match ?m tb with _ => _ end = _ => destruct (m tb) as [[res|e] s] eqn:Hbody
  end; [|discriminate].
  injection Hrun as -> ->.
  apply bind_Ok in Hbody as (tb0 & ? & [= <- <-] & Hbody).
  apply bind_Ok in Hbody as ([] & s1 & Hgrow & Hbody).
  assert (Hs1 : key s1 = key tb /\ page_directory s1 = page_directory tb
                /\ index s1 = index tb).
  { destruct (last (page_ranges tb)) as [prg|];
      [destruct (has_base_capacity prg)|]; injection Hgrow as <-; repeat split. }
  destruct Hs1 as (Hkey1 & Hdir1 & Hix1). clear Hgrow.
  apply bind_Ok in Hbody as (tb1 & ? & [= <- <-] & Hbody).
  apply bind_Ok in Hbody as (page_range & ? & Hm & Hbody). apply of_option_Ok in Hm as [_ ->].
  apply bind_Ok in Hbody as (page & ? & Hm & Hbody). apply of_option_Ok in Hm as [_ ->].
  apply bind_Ok in Hbody as (key_value & ? & Hm & Hbody).
  apply of_option_Ok in Hm as [Hkv ->].
  apply bind_Ok in Hbody as (page' & ? & Hm & Hbody). apply of_option_Ok in Hm as [_ ->].
  apply bind_Ok in Hbody as (pd & ? & [= <- <-] & Hbody).
  apply bind_Ok in Hbody as (cs & ? & Hm & Hbody). apply of_option_Ok in Hm as [_ ->].
  unfold bind, modify_base_page, modify_page_range, set_page, unpin_page, modify, ret in Hbody.
  injection Hbody as <-. table_simpl.
  eexists _, _, _, key_value. cbn zeta.
  rewrite <- Hkey1, <- Hdir1, <- Hix1.
  split; [exact Hkv|]. repeat split.
Qed.

(** X17: after a successful [insert] on a table with an index on the key
    column, the key, which the index did not locate before, is located at
    exactly one RID, a base RID; the page directory holds there a record with
    the inserted columns; [select_version] with relative version -1 returns
    that record for every projection; and every further [insert] with this
    key returns [False]. *)
Theorem insert_then_lookup (now : string) (cols : list Z) (q q' : Query) :
  is_Some (indices (index (table q)) !! key (table q)) ->
  insert now cols q = (Ok true, q') ->
  exists k r,
    cols !! key (table q) = Some k /\
    r.2 = base /\
    locate (index (table q)) (key (table q)) k = [] /\
    locate (index (table q')) (key (table q')) k = [r] /\
    dict_get (page_directory (table q')) r = Some (mkRecord (IRid r) k cols) /\
    (forall projection,
       (select_version k (key (table q')) projection (-1) q').1
       = Ok [mkRecord (IRid r) k cols]) /\
    (forall now' cols',
       cols' !! key (table q') = Some k -> (insert now' cols' q').1 = Ok false).
Proof.
  intros Hidx Hrun. unfold insert in Hrun.
  destruct (cols !! key (table q)) as [k|] eqn:Hk; [|discriminate].
  destruct (lock_guard k LInsert q) as [ok q1] eqn:Hlock.
  destruct (lock_guard_table _ _ _ _ _ Hlock) as [lm Hq1].
  destruct ok; [|discriminate].
  rewrite Hq1 in Hrun. table_simpl.
  destruct (locate (index (table q)) (key (table q)) k) as [|] eqn:Hloc; [|discriminate].
  unfold lift, try_except in Hrun.
  match type of Hrun with
  | context [insert_record ?a ?b ?c ?s] =>
      destruct (insert_record a b c s) as [[[|]|e] tb'] eqn:Hrec
  end; try discriminate.
  injection Hrun as <-. cbn [table].
  apply insert_record_Ok in Hrec as (pr & bp & slot & kv & Hkv & Hkey & Hdir & Hix).
  cbn zeta in *. rewrite Hq1 in Hkv, Hkey, Hdir, Hix. table_simpl.
  rewrite Hk in Hkv. injection Hkv as <-.
  set (r := (pr, bp, slot, base) : RID) in *.
  assert (Hloc' : locate (index tb') (key tb') k = [r]).
  { rewrite Hix, Hkey, locate_insert_fold; [| |exact Hidx|exact Hloc].
    - rewrite decide_True; [reflexivity|].
      apply elem_of_lookup_imap. exists (key (table q)), k. split; [reflexivity | exact Hk].
    - intros v' Hv'. apply elem_of_lookup_imap in Hv' as (i & y & [= <- <-] & Hy).
      congruence. }
  assert (Hget : dict_get (page_directory tb') r = Some (mkRecord (IRid r) k cols))
    by (rewrite Hdir; apply dict_get_dict_set_eq).
  exists k, r. split; [reflexivity|]. split; [reflexivity|]. split; [exact Hloc|].
  split; [exact Hloc'|]. split; [exact Hget|]. split.
  - intros projection.
    eapply (select_version_minus_1 k (key tb') projection (mkQuery tb' (transaction q1)));
      [exact Hloc' | reflexivity | exact Hget].
  - intros now' cols' Hcols'. unfold insert. cbn [table]. rewrite Hcols'.
    destruct (lock_guard k LInsert (mkQuery tb' (transaction q1))) as [ok q2] eqn:Hlock2.
    destruct (lock_guard_table _ _ _ _ _ Hlock2) as [lm2 Hq2].
    destruct ok; [|reflexivity].
    rewrite Hq2. table_simpl. rewrite Hloc'. reflexivity.
Qed.

(** X18: [update] and [delete] never raise, whatever their arguments.
    [insert] raises exactly when it is given too few columns to contain the
    key column: it then raises [IndexError] and has changed nothing. *)
Theorem mutators_raise_only_on_short_insert (now : string) (q : Query) :
  (forall primary_key cols, exists res q', update now primary_key cols q = (Ok res, q')) /\
  (forall primary_key, exists res q', delete primary_key q = (Ok res, q')) /\
  (forall cols,
     (key (table q) < length cols)%nat ->
     exists res q', insert now cols q = (Ok res, q')) /\
  (forall cols,
     (length cols <= key (table q))%nat -> insert now cols q = (Raise IndexError, q)).
Proof.
  split; [intros; apply update_never_raises|].
  split; [intros; apply delete_never_raises|].
  split.
  - intros cols Hlen. unfold insert.
    destruct (cols !! key (table q)) as [k|] eqn:Hk; [|apply lookup_ge_None in Hk; lia].
    destruct (lock_guard k LInsert q) as [[|] q1]; [|eexists _, _; reflexivity].
    destruct (locate (index (table q1)) (key (table q1)) k); [|eexists _, _; reflexivity].
    unfold lift, try_except.
    destruct (insert_record _ _ _ (table q1)) as [[res|e] tb']; eexists _, _; reflexivity.
  - intros cols Hlen. unfold insert.
    rewrite (lookup_ge_None_2 cols (key (table q))) by exact Hlen. reflexivity.
Qed.

End Insert_facts.

Section Delete_theorems.
Context {env : Env}.

(** X19: a [delete] that returns [False] has changed nothing of the
    table, the state of the lock manager apart. *)
Theorem delete_failure_changes_nothing (primary_key : Z) (q q' : Query) :
  delete primary_key q = (Ok false, q') ->
  exists lm, table q' = set_lock_manager lm (table q).
Proof.
  unfold delete. intros Hdel.
  destruct (locate (index (table q)) (key (table q)) primary_key) as [|r rest].
  { injection Hdel as <-. exists (lock_manager (table q)). destruct (table q); reflexivity. }
  destruct (lock_guard primary_key LDelete q) as [ok q1] eqn:Hlock.
  destruct (lock_guard_table _ _ _ _ _ Hlock) as [lm Hq1].
  destruct ok; [|injection Hdel as <-; exists lm; exact Hq1].
  unfold lift in Hdel. rewrite Hq1 in Hdel.
  destruct r as [[[pr pi] ri] ty].
  unfold try_except, delete_try, bind, get, modify_base_page, modify_page_range, modify,
    index_delete, ret in Hdel.
  table_simpl. exists lm.
  destruct (page_ranges (table q) !! pr ≫= _) as [base_page|]; table_simpl;
    [|injection Hdel as <-; reflexivity].
  destruct (decide _);
    destruct (dict_get (page_directory (table q)) (pr, pi, ri, ty));
    table_simpl; try discriminate; injection Hdel as <-; reflexivity.
Qed.

Lemma delete_Ok_in_range primary_key q q' r rest base_page :
  delete primary_key q = (Ok true, q') ->
  locate (index (table q)) (key (table q)) primary_key = r :: rest ->
  base_page_at (table q) r = Some base_page ->
  (r.1.2 < length (indirection base_page))%nat ->
  index (table q') = index_delete_col (key (table q)) primary_key r (index (table q)) /\
  key (table q') = key (table q).
Proof.
  unfold delete. intros Hdel Hloc Hpage Hin. rewrite Hloc in Hdel.
  destruct (lock_guard primary_key LDelete q) as [[|] q1] eqn:Hlock; [|discriminate].
  destruct (lock_guard_table _ _ _ _ _ Hlock) as [lm Hq1].
  unfold lift in Hdel. rewrite Hq1 in Hdel.
  destruct r as [[[pr pi] ri] ty]. unfold base_page_at in Hpage. cbn [fst snd] in *.
  unfold try_except, delete_try, bind, get, modify_base_page, modify_page_range, modify,
    index_delete, ret in Hdel.
  table_simpl. rewrite Hpage in Hdel.
  rewrite decide_False in Hdel by lia.
  destruct (dict_get (page_directory (table q)) (pr, pi, ri, ty));
    table_simpl; injection Hdel as <-; split; reflexivity.
Qed.

Lemma concat_nil_Forall {A} (ls : list (list A)) :
  Forall (fun l => l = []) ls -> concat ls = [].
Proof. induction 1 as [|l ls -> _ IH]; [reflexivity | exact IH]. Qed.

Lemma locate_range_nil (ix : Index) (lo hi : Z) (col : nat) :
  (forall k, lo <= k <= hi -> locate ix col k = []) ->
  locate_range ix lo hi col = [].
Proof.
  intros Hall. unfold locate_range.
  destruct (indices ix !! col) as [m|] eqn:Hcol; [|reflexivity].
  apply concat_nil_Forall, Forall_fmap, Forall_forall. intros [k l] Hkl.
  apply list_elem_of_filter in Hkl as [Hrange Hkl]. apply elem_of_map_to_list in Hkl.
  cbn [fst snd] in *. specialize (Hall k Hrange). unfold locate in Hall.
  rewrite Hcol, Hkl in Hall. exact Hall.
Qed.

(** X20: after a successful [delete] of a key that the index located at
    one RID whose slot exists in its base page, the index no longer locates
    the key: a second [delete] and every [update] of the key return [False]
    and change nothing, [select_version] returns [[]] for every projection
    and version, [sum] over the key alone returns [False] and [sum_version]
    returns 0. *)
Theorem delete_then_queries (primary_key : Z) (q q' : Query) (r : RID) (base_page : Page) :
  delete primary_key q = (Ok true, q') ->
  locate (index (table q)) (key (table q)) primary_key = [r] ->
  base_page_at (table q) r = Some base_page ->
  (r.1.2 < length (indirection base_page))%nat ->
  locate (index (table q')) (key (table q')) primary_key = [] /\
  delete primary_key q' = (Ok false, q') /\
  (forall now cols, update now primary_key cols q' = (Ok false, q')) /\
  (forall projection relative_version,
     (select_version primary_key (key (table q')) projection relative_version q').1
     = Ok []) /\
  (forall aggregate_column_index,
     (sum primary_key primary_key aggregate_column_index q').1 = Ok SumFalse) /\
  (forall aggregate_column_index relative_version,
     (sum_version primary_key primary_key aggregate_column_index relative_version q').1
     = Ok 0).
Proof.
  intros Hdel Hloc Hpage Hin.
  destruct (delete_Ok_in_range _ _ _ _ _ _ Hdel Hloc Hpage Hin) as [Hix Hkey].
  assert (Hloc' : locate (index (table q')) (key (table q')) primary_key = []).
  { rewrite Hix, Hkey, locate_index_delete_col, Hloc, filter_cons.
    rewrite decide_False by (intros Hne; apply Hne; reflexivity). reflexivity. }
  assert (Hrange : locate_range (index (table q')) primary_key primary_key (key (table q'))
                   = []).
  { apply locate_range_nil. intros k Hk. replace k with primary_key by lia. exact Hloc'. }
  split; [exact Hloc'|].
  split; [unfold delete; rewrite Hloc'; reflexivity|].
  split; [intros; unfold update; rewrite Hloc'; reflexivity|].
  split; [intros; unfold select_version, lift, bind, get; rewrite Hloc'; reflexivity|].
  split; intros; [unfold sum | unfold sum_version]; unfold lift, bind, get; rewrite Hrange;
    reflexivity.
Qed.

End Delete_theorems.

Section Aligned_facts.
Context {env : Env}.

Lemma aligned_frames s s' :
  num_columns s' = num_columns s ->
  (forall i j, frames (bufferpool s') !! (tail, i, j) = frames (bufferpool s) !! (tail, i, j)) ->
  (forall t, t.2 = tail -> is_Some (dict_get (page_directory s') t) ->
             is_Some (dict_get (page_directory s) t)) ->
  aligned s -> aligned s'.
Proof.
  intros Hn Hf Hd [Ha1 Ha2]. split.
  - intros i j. unfold page_data_of. rewrite Hn, Hf. apply Ha1.
  - intros i j s0 Hs. unfold page_data_of. rewrite Hn, Hf. apply Ha2, Hd; [reflexivity|].
    exact Hs.
Qed.

Lemma aligned_same_data s s' : same_data s s' -> aligned s -> aligned s'.
Proof.
  intros Hsame. apply same_data_fields in Hsame as (Hf & Hd & _ & _ & _ & _ & _ & Hn).
  apply aligned_frames; [exact Hn | intros; rewrite Hf; reflexivity|].
  intros t _. rewrite Hd. auto.
Qed.

Lemma dict_get_dict_del_Some {V} (d : list (RID * V)) (k k' : RID) :
  is_Some (dict_get (dict_del d k) k') -> is_Some (dict_get d k').
Proof.
  unfold dict_del. induction d as [|[k0 v0] d IH]; [auto|].
  rewrite filter_cons. cbn [fst dict_get].
  destruct (decide (k0 ≠ k)); cbn [dict_get];
    destruct (decide (k0 = k')); eauto.
Qed.

Lemma dict_set_fresh {V} (d : list (RID * V)) (k : RID) (v : V) :
  dict_get d k = None -> dict_set d k v = d ++ [(k, v)].
Proof.
  induction d as [|[k0 v0] d IH]; [reflexivity|]. cbn [dict_get dict_set].
  destruct (decide (k0 = k)); [discriminate|]. intros H. cbn [app]. f_equal. exact (IH H).
Qed.

Lemma aligned_set_lock_manager lm s : aligned s -> aligned (set_lock_manager lm s).
Proof. intros Ha. exact Ha. Qed.

(** The state of the new tail record after a successful run of the [try]
    block of [update]. *)
Lemma update_try_aligned now pk cols pr pi ri ty tb tb' :
  aligned tb ->
  update_try now pk cols (pr, pi, ri, ty) tb = (Ok true, tb') ->
  aligned tb' /\
  exists tail_page_idx,
    let td := page_data_of tb (tail, pr, tail_page_idx) in
    let tail_rid : RID := (pr, tail_page_idx, length (d_rid td), tail) in
    latest_of tb' (pr, pi, ri, ty) = tail_rid /\
    forward tb tail_rid = None /\
    forward tb' tail_rid = Some (latest_of tb (pr, pi, ri, ty)) /\
    (forall r, r <> (pr, pi, ri, base) -> is_Some (forward tb r) ->
               forward tb' r = forward tb r) /\
    (forall c, (c < num_columns tb)%nat ->
       stored_value tb' tail_rid c = Some (tail_value tb (pr, pi, ri, ty) cols c)) /\
    dict_get (page_directory tb) tail_rid = None /\
    page_directory tb'
    = (let directory :=
         dict_set (page_directory tb) tail_rid
                  (mkRecord (IRid tail_rid) pk (tail_row tb (pr, pi, ri, ty) cols)) in
       if decide (update_new_key tb pk cols ≠ pk)
       then dict_del directory (latest_of tb (pr, pi, ri, ty))
       else directory).
Proof.
  intros [Ha Hadir] Hrun.
  apply update_try_Ok in Hrun
    as (page_range & base_record & original_key & tail_page_idx & td_columns & schema & tp0
        & _ & Hrec & Hkey & Hri & Hframes & Hlen & Hwritten & Hdir & _ & _ & _ & Hn & _).
  cbn zeta in *.
  set (td := page_data_of tb (tail, pr, tail_page_idx)) in *.
  set (bd := page_data_of tb (base, pr, pi)) in *.
  set (tail_rid := (pr, tail_page_idx, length (d_rid td), tail) : RID) in *.
  destruct (Ha pr tail_page_idx) as (Hai & Hac & Haf). fold td in Hai, Hac, Haf.
  assert (Htd' : page_data_of tb' (tail, pr, tail_page_idx)
                 = mkPageData td_columns (d_rid td ++ [tail_rid]) (timestamp td ++ [now])
                     (d_schema_encoding td ++ [schema])
                     (d_indirection td ++ [IRid (latest_of tb (pr, pi, ri, ty))])).
  { unfold page_data_of. rewrite Hframes, lookup_insert_eq. reflexivity. }
  assert (Hbd' : page_data_of tb' (base, pr, pi)
                 = mkPageData (columns bd) (d_rid bd) (timestamp bd) (d_schema_encoding bd)
                     (<[ri := IRid tail_rid]> (d_indirection bd))).
  { unfold page_data_of. rewrite Hframes, lookup_insert_ne by discriminate.
    rewrite lookup_insert_eq. reflexivity. }
  assert (Hother : forall id, id <> (tail, pr, tail_page_idx) -> id <> (base, pr, pi) ->
            page_data_of tb' id = page_data_of tb id).
  { intros id H1 H2. unfold page_data_of.
    rewrite Hframes, Hn, !lookup_insert_ne by congruence. reflexivity. }
  assert (Hcol : forall c, (c < num_columns tb)%nat ->
            exists col, columns td !! c = Some col /\ length col = length (d_rid td) /\
              td_columns !! c = Some (col ++ [tail_value tb (pr, pi, ri, ty) cols c])).
  { intros c Hc.
    destruct (Hwritten c _ (build_tail_columns_lookup _ _ _ _ _ c Hc)) as (col & Hcol & Hcol').
    exists col. split; [exact Hcol|].
    split; [exact (proj1 (Forall_lookup _ _) Haf c col Hcol)|].
    rewrite Hcol'. do 3 f_equal. unfold tail_value. rewrite Hrec. cbn. rewrite Hkey. cbn.
    destruct (decide (c = key tb)); reflexivity. }
  assert (Hrow : build_tail_columns (num_columns tb) (key tb) original_key cols
                   (default base_record
                      (dict_get (page_directory tb) (latest_of tb (pr, pi, ri, ty))))
                 = tail_row tb (pr, pi, ri, ty) cols).
  { unfold build_tail_columns, tail_row. apply list_fmap_ext. intros _ c _.
    unfold tail_value. rewrite Hrec. cbn. rewrite Hkey. cbn.
    destruct (decide (c = key tb)); reflexivity. }
  rewrite Hrow in Hdir.
  assert (Hnew : dict_get (page_directory tb) tail_rid = None).
  { destruct (dict_get (page_directory tb) tail_rid) as [rec|] eqn:Hget; [|reflexivity].
    exfalso. assert (Hs : is_Some (dict_get (page_directory tb) tail_rid)) by eauto.
    apply Hadir in Hs. fold td in Hs. lia. }
  assert (Hgrow : forall i j,
            (length (d_rid (page_data_of tb (tail, i, j)))
             <= length (d_rid (page_data_of tb' (tail, i, j))))%nat).
  { intros i j. destruct (decide ((tail, i, j) = (tail, pr, tail_page_idx))) as [[= -> ->]|Hne].
    - rewrite Htd'. cbn [d_rid]. fold td. rewrite length_app. lia.
    - rewrite Hother by (congruence || discriminate). lia. }
  split.
  { split.
    - intros i j.
      destruct (decide ((tail, i, j) = (tail, pr, tail_page_idx))) as [[= -> ->]|Hne].
      + rewrite Htd'. cbn [d_indirection d_rid columns]. rewrite !length_app, Hai, Hn.
        split; [reflexivity|]. split; [rewrite Hlen; exact Hac|].
        apply Forall_lookup. intros c col' Hc'.
        assert (Hc : (c < num_columns tb)%nat)
          by (apply lookup_lt_Some in Hc'; rewrite Hlen, Hac in Hc'; exact Hc').
        destruct (Hcol c Hc) as (col & _ & Hl & Hcol'). rewrite Hcol' in Hc'.
        injection Hc' as <-. rewrite length_app, Hl. reflexivity.
      + rewrite Hother, Hn by (congruence || discriminate). apply Ha.
    - intros i j s0 Hs.
      assert (Hs' : is_Some (dict_get (dict_set (page_directory tb) tail_rid
                                         (mkRecord (IRid tail_rid) pk
                                            (tail_row tb (pr, pi, ri, ty) cols)))
                                      (i, j, s0, tail))).
      { rewrite Hdir in Hs. destruct (decide _); [|exact Hs].
        eapply dict_get_dict_del_Some, Hs. }
      destruct (decide (tail_rid = (i, j, s0, tail))) as [[= <- <- <-]|Hne].
      + rewrite Htd'. cbn [d_rid]. fold td. rewrite length_app. cbn. lia.
      + rewrite dict_get_dict_set_ne in Hs' by exact Hne.
        apply Hadir in Hs'. specialize (Hgrow i j). lia. }
  exists tail_page_idx. fold td tail_rid.
  split.
  { unfold latest_of. rewrite Hbd'. cbn [d_indirection].
    rewrite list_lookup_insert_eq by exact Hri. reflexivity. }
  split.
  { unfold forward, tail_rid. fold td.
    rewrite (lookup_ge_None_2 (d_indirection td)) by lia. reflexivity. }
  split.
  { unfold forward, tail_rid. rewrite Htd'. cbn [d_indirection].
    rewrite lookup_app_r by lia. rewrite Hai, Nat.sub_diag. reflexivity. }
  split.
  { intros [[[i j] s] t] Hr [nx Hfw]. unfold forward in *.
    destruct (decide ((t, i, j) = (tail, pr, tail_page_idx))) as [[= -> -> ->]|Hne1].
    - fold td in Hfw |- *. rewrite Htd'. cbn [d_indirection].
      destruct (d_indirection td !! s) as [x|] eqn:Hs; [|discriminate].
      rewrite (lookup_app_l_Some _ _ _ _ Hs). reflexivity.
    - destruct (decide ((t, i, j) = (base, pr, pi))) as [[= -> -> ->]|Hne2].
      + fold bd in Hfw |- *. rewrite Hbd'. cbn [d_indirection].
        rewrite list_lookup_insert_ne by congruence. reflexivity.
      + rewrite Hother by assumption. reflexivity. }
  split.
  { intros c Hc. destruct (Hcol c Hc) as (col & _ & Hl & Hcol').
    unfold stored_value, tail_rid. rewrite Htd'. cbn [columns]. rewrite Hcol'. cbn.
    rewrite lookup_app_r by lia. rewrite Hl, Nat.sub_diag. reflexivity. }
  split; [exact Hnew | exact Hdir].
Qed.

End Aligned_facts.

Section Aligned_theorems.
Context {env : Env}.

Lemma delete_frame primary_key q res q' :
  delete primary_key q = (res, q') ->
  bufferpool (table q') = bufferpool (table q) /\
  num_columns (table q') = num_columns (table q) /\
  forall t, is_Some (dict_get (page_directory (table q')) t) ->
            is_Some (dict_get (page_directory (table q)) t).
Proof.
  unfold delete. intros Hdel.
  destruct (locate (index (table q)) (key (table q)) primary_key) as [|r rest].
  { injection Hdel as <- <-. repeat split; auto. }
  destruct (lock_guard primary_key LDelete q) as [ok q1] eqn:Hlock.
  destruct (lock_guard_table _ _ _ _ _ Hlock) as [lm Hq1].
  destruct ok; [|injection Hdel as <- <-; rewrite Hq1; repeat split; auto].
  unfold lift in Hdel. rewrite Hq1 in Hdel.
  destruct r as [[[pr pi] ri] ty].
  unfold try_except, delete_try, bind, get, modify_base_page, modify_page_range, modify,
    index_delete, ret in Hdel.
  table_simpl.
  destruct (page_ranges (table q) !! pr ≫= _) as [base_page|]; table_simpl;
    [|injection Hdel as <- <-; repeat split; auto].
  destruct (decide _);
    destruct (dict_get (page_directory (table q)) (pr, pi, ri, ty)) eqn:Hget;
    table_simpl; injection Hdel as <- <-; table_simpl;
    (split; [reflexivity|]; split; [reflexivity|]); auto;
    intros t; apply dict_get_dict_del_Some.
Qed.

Lemma insert_record_frame ts sch cols tb r tb' :
  insert_record ts sch cols tb = (r, tb') ->
  num_columns tb' = num_columns tb /\
  (forall i j,
     frames (bufferpool tb') !! (tail, i, j) = frames (bufferpool tb) !! (tail, i, j)) /\
  forall t, t.2 = tail ->
            dict_get (page_directory tb') t = dict_get (page_directory tb) t.
Proof.
  intros Hrun. unfold insert_record, try_except in Hrun.
  match type of Hrun with
  | match ?m tb with _ => _ end = _ => destruct (m tb) as [res s] eqn:Hbody
  end.
  assert (s = tb') as -> by (destruct res; injection Hrun as _ <-; reflexivity). clear Hrun.
  apply bind_inv in Hbody as [(e & [=] & _) | (tb0 & ? & [= <- <-] & Hbody)].
  apply bind_inv in Hbody as [(e & Hm & _) | ([] & s1 & Hgrow & Hbody)].
  { destruct (last (page_ranges tb)) as [prg|]; [destruct (has_base_capacity prg)|];
      discriminate. }
  assert (Hs1 : num_columns s1 = num_columns tb /\ bufferpool s1 = bufferpool tb
                /\ page_directory s1 = page_directory tb).
  { destruct (last (page_ranges tb)) as [prg|];
      [destruct (has_base_capacity prg)|]; injection Hgrow as <-; repeat split. }
  destruct Hs1 as (Hn1 & Hb1 & Hd1). clear Hgrow. rewrite <- Hn1, <- Hb1, <- Hd1.
  apply bind_inv in Hbody as [(e & [=] & _) | (tb1 & ? & [= <- <-] & Hbody)].
  apply bind_inv in Hbody as [(e & Hm & _) | (page_range & ? & Hm & Hbody)];
    [apply of_option_inv in Hm as [-> _]; repeat split|].
  apply of_option_inv in Hm as [-> _].
  apply bind_inv in Hbody as [(e & Hm & _) | (page & ? & Hm & Hbody)];
    [apply of_option_inv in Hm as [-> _]; repeat split|].
  apply of_option_inv in Hm as [-> _].
  apply bind_inv in Hbody as [(e & Hm & _) | (key_value & ? & Hm & Hbody)];
    [apply of_option_inv in Hm as [-> _]; repeat split|].
  apply of_option_inv in Hm as [-> _].
  apply bind_inv in Hbody as [(e & Hm & _) | (page' & ? & Hm & Hbody)];
    [apply of_option_inv in Hm as [-> _]; repeat split|].
  apply of_option_inv in Hm as [-> _].
  apply bind_inv in Hbody as [(e & [=] & _) | (pd & ? & [= <- <-] & Hbody)].
  apply bind_inv in Hbody as [(e & Hm & _) | (cs & ? & Hm & Hbody)];
    [apply of_option_inv in Hm as [-> _]; repeat split|].
  apply of_option_inv in Hm as [-> _].
  unfold bind, modify_base_page, modify_page_range, set_page, unpin_page, modify, ret in Hbody.
  injection Hbody as _ <-. table_simpl. split; [reflexivity|]. split.
  - intros i j. rewrite lookup_insert_ne by discriminate. reflexivity.
  - intros [[[i j] s0] ty] Hty. cbn in Hty. subst ty.
    apply dict_get_dict_set_ne. discriminate.
Qed.

Lemma aligned_update now primary_key cols q res q' :
  aligned (table q) -> update now primary_key cols q = (res, q') -> aligned (table q').
Proof.
  intros Ha. unfold update. intros Hrun.
  destruct (locate (index (table q)) (key (table q)) primary_key) as [|base_rid rest].
  { injection Hrun as _ <-. exact Ha. }
  destruct (lock_guard primary_key LUpdate q) as [ok q1] eqn:Hlock.
  destruct (lock_guard_table _ _ _ _ _ Hlock) as [lm Hq1].
  destruct ok; [|injection Hrun as _ <-; rewrite Hq1; exact Ha].
  unfold lift, try_except in Hrun. rewrite Hq1 in Hrun.
  destruct (update_try now primary_key cols base_rid (set_lock_manager lm (table q)))
    as [r tb'] eqn:Htry.
  assert (Htb' : aligned tb').
  { destruct (update_try_outcome _ _ _ _ _ _ _ Htry) as [(e & -> & Hsame) | (-> & _)].
    - eapply aligned_same_data; [exact Hsame | exact Ha].
    - destruct base_rid as [[[pr pi] ri] ty].
      eapply update_try_aligned; [|exact Htry]. exact Ha. }
  destruct r; injection Hrun as _ <-; exact Htb'.
Qed.

Lemma aligned_insert now cols q res q' :
  aligned (table q) -> insert now cols q = (res, q') -> aligned (table q').
Proof.
  intros Ha. unfold insert. intros Hrun.
  destruct (cols !! key (table q)) as [k|]; [|injection Hrun as _ <-; exact Ha].
  destruct (lock_guard k LInsert q) as [ok q1] eqn:Hlock.
  destruct (lock_guard_table _ _ _ _ _ Hlock) as [lm Hq1].
  destruct ok; [|injection Hrun as _ <-; rewrite Hq1; exact Ha].
  destruct (locate (index (table q1)) (key (table q1)) k);
    [|injection Hrun as _ <-; rewrite Hq1; exact Ha].
  unfold lift, try_except in Hrun.
  destruct (insert_record _ _ _ (table q1)) as [r tb'] eqn:Hrec.
  apply insert_record_frame in Hrec as (Hn & Hf & Hd). rewrite Hq1 in Hn, Hf, Hd.
  assert (Htb' : aligned tb').
  { eapply aligned_frames; [exact Hn | exact Hf | | exact Ha].
    intros t Ht. rewrite (Hd t Ht). auto. }
  destruct r; injection Hrun as _ <-; exact Htb'.
Qed.

Lemma aligned_delete primary_key q res q' :
  aligned (table q) -> delete primary_key q = (res, q') -> aligned (table q').
Proof.
  intros Ha Hdel. apply delete_frame in Hdel as (Hb & Hn & Hd).
  apply (aligned_frames (table q));
    [exact Hn | intros; rewrite Hb; reflexivity | intros t _; apply Hd | exact Ha].
Qed.

(** X21: [update], [insert] and [delete] keep the tail pages of the
    buffer pool aligned, whatever they return: each tail page has one column
    per table column, its columns, its RID list and its indirection list have
    the same length, and every tail RID that is a key of the page directory
    is a slot of its tail page. *)
Theorem tail_pages_stay_aligned (q : Query) :
  aligned (table q) ->
  (forall now primary_key cols res q',
     update now primary_key cols q = (res, q') -> aligned (table q')) /\
  (forall now cols res q', insert now cols q = (res, q') -> aligned (table q')) /\
  (forall primary_key res q', delete primary_key q = (res, q') -> aligned (table q')).
Proof.
  intros Ha. split; [|split].
  - intros now primary_key cols res q'. apply aligned_update, Ha.
  - intros now cols res q'. apply aligned_insert, Ha.
  - intros primary_key res q'. apply aligned_delete, Ha.
Qed.

Lemma NoDup_all_equal {A} (l : list A) (x : A) :
  NoDup l -> (forall y, y ∈ l -> y = x) -> x ∈ l -> l = [x].
Proof.
  intros Hnd Hall Hin. destruct l as [|y l]; [apply elem_of_nil in Hin; contradiction|].
  assert (y = x) as -> by (apply Hall, list_elem_of_here).
  destruct l as [|z l]; [reflexivity|].
  assert (z = x) as -> by (apply Hall, list_elem_of_further, list_elem_of_here).
  apply NoDup_cons in Hnd as [Hx _]. exfalso. apply Hx, list_elem_of_here.
Qed.

Lemma locate_range_point (ix : Index) (k : Z) (col : nat) :
  locate_range ix k k col = locate ix col k.
Proof.
  unfold locate_range, locate. destruct (indices ix !! col) as [m|]; [|reflexivity].
  destruct (m !! k) as [v|] eqn:Hk.
  - rewrite (NoDup_all_equal (filter _ (map_to_list m)) (k, v)).
    + cbn. apply app_nil_r.
    + apply NoDup_filter, NoDup_map_to_list.
    + intros [k' v'] Hy. apply list_elem_of_filter in Hy as [Hr Hy].
      apply elem_of_map_to_list in Hy. cbn [fst] in Hr.
      assert (k' = k) as -> by lia. congruence.
    + apply list_elem_of_filter. split; [cbn; lia | apply elem_of_map_to_list, Hk].
  - assert (Hnil : filter (fun e : Z * list RID => k <= e.1 /\ e.1 <= k) (map_to_list m) = []).
    { destruct (filter _ (map_to_list m)) as [|[k' v'] l] eqn:Hf; [reflexivity|].
      assert (Hin : (k', v') ∈ filter (fun e : Z * list RID => k <= e.1 /\ e.1 <= k)
                                      (map_to_list m))
        by (rewrite Hf; apply list_elem_of_here).
      apply list_elem_of_filter in Hin as [Hr Hin]. apply elem_of_map_to_list in Hin.
      cbn [fst] in Hr. assert (k' = k) as -> by lia. congruence. }
    rewrite Hnil. reflexivity.
Qed.

Lemma first_per_key_seen (seen : list Z) (es : list (Z * option Z)) :
  (forall e, e ∈ es -> e.1 ∈ seen) -> first_per_key seen es = [].
Proof.
  induction es as [|[k v] es IH]; intros Hall; [reflexivity|].
  cbn [first_per_key]. rewrite decide_True by (apply (Hall (k, v)), list_elem_of_here).
  apply IH. intros e He. apply Hall, list_elem_of_further, He.
Qed.

Lemma sum_entry_in_range tb lo hi agg r kv v :
  sum_entry tb lo hi agg r = Some (kv, v) -> lo <= kv <= hi.
Proof.
  unfold sum_entry. destruct (stored_value tb (latest_of tb r) (key tb)) as [k|]; [|discriminate].
  cbn. destruct (decide (lo <= k /\ k <= hi)); [|discriminate]. intros [= <- _]. assumption.
Qed.

(** X22: on an aligned table whose page directory holds the record of
    the key under its base RID, after a successful [update] that keeps the
    key, [sum] over the key alone returns the value the update wrote into the
    aggregate column of its tail row; for a column other than the key column
    to which the update gave a value, that is this value. *)
Theorem update_then_sum (now : string) (k : Z) (cols : list (option Z)) (q q' : Query)
    (b : RID) (rest : list RID) (aggregate_column_index : nat) :
  aligned (table q) ->
  locate (index (table q)) (key (table q)) k = b :: rest ->
  dict_get (page_directory (table q)) b ≫= (fun rec => rec_columns rec !! key (table q))
  = Some k ->
  update_new_key (table q) k cols = k ->
  (key (table q) < num_columns (table q))%nat ->
  (aggregate_column_index < num_columns (table q))%nat ->
  update now k cols q = (Ok true, q') ->
  (sum k k aggregate_column_index q').1
  = Ok (SumInt (tail_value (table q) b cols aggregate_column_index)) /\
  (forall v,
     aggregate_column_index <> key (table q) ->
     cols !! aggregate_column_index = Some (Some v) ->
     (sum k k aggregate_column_index q').1 = Ok (SumInt v)).
Proof.
  intros Ha Hloc Hbase Hsame Hkeycol Hagg Hrun.
  assert (Hsum : (sum k k aggregate_column_index q').1
                 = Ok (SumInt (tail_value (table q) b cols aggregate_column_index))).
  2:{ split; [exact Hsum|]. intros v Hne Hv. rewrite Hsum. unfold tail_value.
      rewrite decide_False by exact Hne. rewrite Hv. reflexivity. }
  apply update_Ok in Hrun as (b0 & rest0 & lm & Hloc0 & Htry).
  rewrite Hloc in Hloc0. injection Hloc0 as <- <-.
  destruct b as [[[pr pi] ri] ty].
  pose proof Htry as Htry0.
  apply update_try_Ok in Htry0
    as (_ & _ & _ & tail_page_idx0 & _ & _ & _
        & _ & _ & _ & _ & _ & _ & _ & _ & Hix & _ & Hkey & Hn & _).
  apply update_try_aligned in Htry
    as (_ & tail_page_idx & Hlatest & _ & _ & _ & Hvalue & _);
    [|apply aligned_set_lock_manager, Ha].
  cbn zeta in *.
  change (page_data_of (set_lock_manager lm (table q))) with (page_data_of (table q)) in *.
  change (update_new_key (set_lock_manager lm (table q))) with (update_new_key (table q)) in *.
  change (tail_value (set_lock_manager lm (table q))) with (tail_value (table q)) in *.
  table_simpl. rewrite Hsame in Hix.
  rewrite decide_False in Hix by (intros Hne; apply Hne; reflexivity).
  set (tail_rid := (pr, tail_page_idx,
                    length (d_rid (page_data_of (table q) (tail, pr, tail_page_idx))),
                    tail) : RID) in *.
  unfold sum, lift, bind, get.
  rewrite locate_range_point, Hix, Hkey, Hloc. lazy beta iota.
  match goal with
  | |- context [sum_loop ?lo ?hi ?agg ?rids ?acc ?s] =>
      destruct (sum_loop_reads lo hi agg rids acc s (pin_counts (bufferpool s)))
        as (p' & Hloop)
  end.
  rewrite with_pins_id in Hloop. rewrite Hloop. cbn [fst]. unfold ret.
  rewrite sum_fold_first_per_key. cbn [omap list_omap].
  assert (Hentry : sum_entry (table q') k k aggregate_column_index (pr, pi, ri, ty)
                   = Some (k, Some (tail_value (table q) (pr, pi, ri, ty) cols
                                      aggregate_column_index))).
  { assert (Hkv : tail_value (table q) (pr, pi, ri, ty) cols (key (table q)) = k).
    { unfold tail_value. rewrite decide_True by reflexivity. rewrite Hbase. reflexivity. }
    unfold sum_entry. rewrite Hlatest, Hkey.
    rewrite (Hvalue (key (table q)) Hkeycol), Hkv. cbn [mbind option_bind].
    rewrite decide_True by lia. rewrite (Hvalue _ Hagg). reflexivity. }
  rewrite Hentry. cbn [first_per_key].
  rewrite decide_False by apply not_elem_of_nil.
  rewrite first_per_key_seen.
  - cbn. do 2 f_equal. lia.
  - intros [kv v] He. apply list_elem_of_omap in He as (r & _ & He).
    apply sum_entry_in_range in He. cbn. apply list_elem_of_singleton. lia.
Qed.

End Aligned_theorems.

Section Chain_theorems.
Context {env : Env}.

Lemma latest_of_forward tb pr pi ri :
  latest_of tb (pr, pi, ri, base) = default (pr, pi, ri, base) (forward tb (pr, pi, ri, base)).
Proof.
  unfold latest_of, forward.
  destruct (d_indirection (page_data_of tb (base, pr, pi)) !! ri) as [[| |x]|]; reflexivity.
Qed.

Lemma links_app_inv tb l l' : links tb (l ++ l') -> links tb l'.
Proof.
  induction l as [|a l IH]; [auto|]. cbn [app]. intros H.
  apply IH. destruct (l ++ l') as [|c rest]; [exact I | exact (proj2 H)].
Qed.

Lemma links_ext tb tb' path :
  (forall r, forward tb' r = forward tb r) -> links tb path -> links tb' path.
Proof.
  intros Hf. induction path as [|a [|c path] IH]; [auto | auto |].
  intros [Ha Hl]. split; [rewrite Hf; exact Ha | exact (IH Hl)].
Qed.

Lemma version_chain_set_lock_manager lm tb b ts :
  version_chain tb b ts -> version_chain (set_lock_manager lm tb) b ts.
Proof.
  assert (Hf : forall r, forward (set_lock_manager lm tb) r = forward tb r)
    by (intros [[[? ?] ?] ?]; reflexivity).
  destruct ts as [|t ts];
    [intros H; change (forward (set_lock_manager lm tb) b = None); rewrite Hf; exact H|].
  intros [Hl Hnd]. split; [exact (links_ext _ _ _ Hf Hl) | exact Hnd].
Qed.

Lemma links_cons_head tb a l :
  forward tb a = head l -> is_Some (head l) -> links tb l -> links tb (a :: l).
Proof.
  destruct l as [|c l]; intros Hf [x Hx] Hl; [discriminate|]. split; assumption.
Qed.

Lemma links_is_Some tb l x r : links tb (l ++ [x]) -> r ∈ l -> is_Some (forward tb r).
Proof.
  induction l as [|a l IH]; intros Hl Hr; [apply elem_of_nil in Hr; contradiction|].
  cbn [app] in Hl.
  assert (Ha : is_Some (forward tb a) /\ links tb (l ++ [x])).
  { destruct l as [|c l]; cbn [app] in *; destruct Hl as [Hf Hl]; eauto. }
  apply elem_of_cons in Hr as [->|Hr]; [exact (proj1 Ha) | exact (IH (proj2 Ha) Hr)].
Qed.

Lemma links_preserved tb tb' l x :
  (forall r, r ∈ l -> is_Some (forward tb r) -> forward tb' r = forward tb r) ->
  links tb (l ++ [x]) -> links tb' (l ++ [x]).
Proof.
  induction l as [|a l IH]; intros Hsame Hl; [exact I|].
  cbn [app] in *.
  assert (Ha : exists c rest, l ++ [x] = c :: rest) by (destruct l; cbn; eauto).
  destruct Ha as (c & rest0 & Hc). rewrite Hc in *. destruct Hl as [Hf Hl].
  split.
  - rewrite Hsame; [exact Hf | apply list_elem_of_here | eauto].
  - apply IH; [|exact Hl].
    intros r Hr. apply Hsame, list_elem_of_further, Hr.
Qed.

(** The walk of [_safely_get_latest_version] along pointers that lead
    back to a visited RID stops on the last RID before it. *)
Lemma latest_loop_on_path tb x path : forall c visited fuel p,
  links tb (c :: path ++ [x]) ->
  x ∈ visited ->
  (forall r, r ∈ path -> r ∉ visited) ->
  NoDup path ->
  (length path < fuel)%nat ->
  exists p',
    latest_loop fuel c visited (with_pins p tb)
    = (Ok (Some (default c (last path))), with_pins p' tb).
Proof.
  induction path as [|r path IH]; intros [[[pr pi] ri] ty] visited fuel p Hl Hx Hfresh Hnd Hlen;
    (destruct fuel as [|fuel]; [cbn in Hlen; lia|]);
    cbn [latest_loop]; unfold bind; rewrite get_page_with_pins; lazy beta iota;
    cbn [app] in Hl; destruct Hl as [Hf Hl]; unfold forward in Hf.
  - destruct (d_indirection (page_data_of tb (ty, pr, pi)) !! ri) as [[| |nx]|];
      try discriminate.
    injection Hf as ->. rewrite decide_True by exact Hx.
    rewrite unpin_page_with_pins. eexists. reflexivity.
  - destruct (d_indirection (page_data_of tb (ty, pr, pi)) !! ri) as [[| |nx]|];
      try discriminate.
    injection Hf as ->.
    rewrite decide_False by (apply Hfresh, list_elem_of_here).
    rewrite unpin_page_with_pins. lazy beta iota.
    apply NoDup_cons in Hnd as [Hr Hnd].
    match goal with
    | |- context [latest_loop _ _ _ (with_pins ?p0 tb)] =>
        destruct (IH r (r :: visited) fuel p0) as (p' & Hrun)
    end.
    + exact Hl.
    + apply list_elem_of_further, Hx.
    + intros r' Hr' Hv. apply elem_of_cons in Hv as [->|Hv]; [contradiction|].
      apply (Hfresh r'); [apply list_elem_of_further, Hr' | exact Hv].
    + exact Hnd.
    + cbn in Hlen. lia.
    + exists p'. rewrite Hrun.
      assert (Hd : default (pr, pi, ri, ty) (last (r :: path)) = default r (last path)).
      { destruct path as [|r' path]; [reflexivity|]. rewrite last_cons_cons.
        destruct (last (r' :: path)) eqn:Hlast; [reflexivity|].
        apply last_None in Hlast. discriminate. }
      apply (f_equal (fun v : RID => (Ok (Some v), with_pins p' tb))). symmetry. exact Hd.
Qed.

Lemma version_chain_oldest tb b ts :
  ts <> [] -> version_chain tb b ts -> (length ts < 1000)%nat ->
  (_safely_get_latest_version b tb).1 = Ok (default b (head ts)).
Proof.
  intros Hne Hchain Hlen. destruct ts as [|t ts]; [congruence|].
  destruct Hchain as [Hl Hnd]. apply NoDup_cons in Hnd as [Hb Hnd].
  destruct (latest_loop_on_path tb b (reverse (t :: ts)) b [b] 1000
              (pin_counts (bufferpool tb))) as (p' & Hrun).
  - exact Hl.
  - apply list_elem_of_here.
  - intros r Hr Hv. apply list_elem_of_singleton in Hv. subst r.
    rewrite elem_of_reverse in Hr. exact (Hb Hr).
  - rewrite reverse_Permutation. exact Hnd.
  - rewrite length_reverse. exact Hlen.
  - rewrite with_pins_id in Hrun.
    unfold _safely_get_latest_version, try_except, bind. rewrite Hrun.
    rewrite last_reverse. reflexivity.
Qed.

Lemma update_try_chain now k cols pr pi ri tb tb' ts :
  aligned tb ->
  version_chain tb (pr, pi, ri, base) ts ->
  update_try now k cols (pr, pi, ri, base) tb = (Ok true, tb') ->
  exists t, aligned tb' /\ version_chain tb' (pr, pi, ri, base) (ts ++ [t]).
Proof.
  intros Ha Hchain Hrun.
  apply update_try_aligned in Hrun as (Ha' & tp & Hlatest & Hfresh & Hback & Hkeep & _);
    [|exact Ha].
  cbn zeta in *.
  set (b := (pr, pi, ri, base) : RID) in *.
  set (t := (pr, tp, length (d_rid (page_data_of tb (tail, pr, tp))), tail) : RID) in *.
  exists t. split; [exact Ha'|].
  assert (Hbt : forward tb' b = Some t).
  { unfold b in Hlatest |- *. rewrite latest_of_forward in Hlatest.
    destruct (forward tb' (pr, pi, ri, base)) as [x|]; [|discriminate].
    cbn in Hlatest. congruence. }
  assert (Htb : t <> b) by discriminate.
  unfold b in Hback. rewrite latest_of_forward in Hback. fold b in Hback.
  destruct ts as [|t0 ts].
  - change (forward tb b = None) in Hchain. rewrite Hchain in Hback.
    cbn [default from_option] in Hback.
    change (links tb' [b; t; b] /\ NoDup [b; t]). split; [split; [exact Hbt | split; [exact Hback | exact I]]|].
    apply NoDup_cons_2; [|apply NoDup_singleton].
    intros Hin. apply list_elem_of_singleton in Hin. congruence.
  - destruct Hchain as [Hl Hnd].
    assert (Hsome : forall r, r ∈ t0 :: ts -> is_Some (forward tb r)).
    { intros r Hr. apply (links_is_Some tb (reverse (t0 :: ts)) b).
      - exact (links_app_inv tb [b] _ Hl).
      - rewrite elem_of_reverse. exact Hr. }
    assert (Hfwb : forward tb b = Some (default b (last (t0 :: ts)))).
    { rewrite <- head_reverse. destruct (reverse (t0 :: ts)) as [|x l]; [|exact (proj1 Hl)].
      cbn in Hl. cbn. exact (proj1 Hl). }
    rewrite Hfwb in Hback. cbn [default from_option] in Hback.
    assert (Hnew : t ∉ b :: t0 :: ts).
    { intros Hin. apply elem_of_cons in Hin as [Hin|Hin]; [congruence|].
      destruct (Hsome t Hin) as [x Hx]. congruence. }
    change (match (t0 :: ts) ++ [t] with
            | [] => forward tb' b = None
            | _ => links tb' (b :: reverse ((t0 :: ts) ++ [t]) ++ [b])
                   /\ NoDup (b :: (t0 :: ts) ++ [t])
            end)
      with (links tb' (b :: reverse ((t0 :: ts) ++ [t]) ++ [b])
            /\ NoDup (b :: (t0 :: ts) ++ [t])).
    split.
    + rewrite reverse_snoc. cbn [app].
      apply links_cons_head; [exact Hbt | eauto|].
      assert (Hhead : head (reverse (t0 :: ts) ++ [b]) = Some (default b (last (t0 :: ts)))).
      { rewrite head_app, head_reverse.
        destruct (last (t0 :: ts)) eqn:Hlast; [reflexivity|].
        apply last_None in Hlast. discriminate. }
      apply links_cons_head; [rewrite Hhead; exact Hback | rewrite Hhead; eauto|].
      apply (links_preserved tb); [|exact (links_app_inv tb [b] _ Hl)].
      intros r Hr Hs. apply Hkeep; [|exact Hs].
      rewrite elem_of_reverse in Hr. intros ->.
      apply NoDup_cons in Hnd as [Hb _]. exact (Hb Hr).
    + apply NoDup_cons in Hnd as [Hb Hnd].
      apply NoDup_cons_2.
      * rewrite elem_of_app, list_elem_of_singleton. intros [Hin|Heq]; [contradiction|].
        congruence.
      * apply NoDup_app. split; [exact Hnd|]. split; [|apply NoDup_singleton].
        intros x Hx Hx'. apply list_elem_of_singleton in Hx'. subst x.
        apply Hnew, list_elem_of_further, Hx.
Qed.

Lemma update_all_chain k b rest us : forall q q' ts,
  b.2 = base ->
  aligned (table q) ->
  version_chain (table q) b ts ->
  locate (index (table q)) (key (table q)) k = b :: rest ->
  update_all k us q = Some q' ->
  exists ts',
    length ts' = length us /\ aligned (table q') /\ version_chain (table q') b (ts ++ ts') /\
    locate (index (table q')) (key (table q')) k = b :: rest.
Proof.
  induction us as [|[now cols] us IH]; intros q q' ts Hb Ha Hchain Hloc Hrun.
  - injection Hrun as <-. exists []. rewrite app_nil_r.
    split; [reflexivity|]. split; [exact Ha|]. split; [exact Hchain | exact Hloc].
  - cbn [update_all] in Hrun.
    destruct (decide (update_new_key (table q) k cols = k)) as [Hsame|]; [|discriminate].
    destruct (update now k cols q) as [[[|]|e] q1] eqn:Hup; try discriminate.
    apply update_Ok in Hup as (b0 & rest0 & lm & Hloc0 & Htry).
    rewrite Hloc in Hloc0. injection Hloc0 as <- <-.
    destruct b as [[[pr pi] ri] ty]. cbn in Hb. subst ty.
    pose proof Htry as Htry0.
    apply update_try_Ok in Htry0
      as (_ & _ & _ & tail_page_idx0 & _ & _ & _
          & _ & _ & _ & _ & _ & _ & _ & _ & Hix & _ & Hkey & _).
    cbn zeta in Hix.
    change (update_new_key (set_lock_manager lm (table q))) with (update_new_key (table q))
      in Hix.
    table_simpl. rewrite Hsame in Hix.
    rewrite decide_False in Hix by (intros Hne; apply Hne; reflexivity).
    apply (update_try_chain _ _ _ _ _ _ _ _ ts) in Htry as (t & Ha1 & Hchain1);
      [|exact Ha|apply version_chain_set_lock_manager, Hchain].
    destruct (IH q1 q' (ts ++ [t]) eq_refl Ha1 Hchain1) as (ts' & Hlen & Ha' & Hchain' & Hloc');
      [rewrite Hix, Hkey; exact Hloc | exact Hrun|].
    exists (t :: ts'). split; [cbn; lia|]. split; [exact Ha'|].
    split; [rewrite <- app_assoc in Hchain'; exact Hchain' | exact Hloc'].
Qed.

(** X23: on an aligned table, after one or more successful updates
    (fewer than 1000, each keeping the key) of a record that had none, the
    tail RIDs they created are distinct and linked
    through the buffer pool: the base slot points at the newest, each version
    at the one before it, the oldest at the base RID.  [_get_latest_version]
    of the base RID returns the newest version, but
    [_safely_get_latest_version] walks the whole chain and returns the
    oldest: from the second update on the two helpers disagree. *)
Theorem latest_helpers_disagree (k : Z) (us : list (string * list (option Z)))
    (q q' : Query) (b : RID) (rest : list RID) :
  aligned (table q) ->
  locate (index (table q)) (key (table q)) k = b :: rest ->
  b.2 = base ->
  forward (table q) b = None ->
  us <> [] ->
  (length us < 1000)%nat ->
  update_all k us q = Some q' ->
  exists oldest newest ts,
    length ts = length us /\
    head ts = Some oldest /\ last ts = Some newest /\ NoDup (b :: ts) /\
    links (table q') (b :: reverse ts ++ [b]) /\
    (_get_latest_version b (table q')).1 = Ok newest /\
    (_safely_get_latest_version b (table q')).1 = Ok oldest /\
    ((2 <= length us)%nat -> oldest <> newest).
Proof.
  intros Ha Hloc Hb Hfresh Hne Hlen Hrun.
  destruct (update_all_chain k b rest us q q' [] Hb Ha Hfresh Hloc Hrun)
    as (ts & Hts & Ha' & Hchain & _).
  cbn [app] in Hchain.
  destruct ts as [|t ts]; [destruct us; [congruence | discriminate]|].
  pose proof (version_chain_oldest (table q') b (t :: ts) ltac:(discriminate) Hchain
                ltac:(rewrite Hts; exact Hlen)) as Hold.
  destruct Hchain as [Hl Hnd].
  destruct (last (t :: ts)) as [newest|] eqn:Hlast;
    [|apply last_None in Hlast; discriminate].
  exists t, newest, (t :: ts).
  split; [exact Hts|]. split; [reflexivity|]. split; [exact Hlast|].
  split; [exact Hnd|]. split; [exact Hl|].
  split.
  { destruct (_get_latest_version_reads b (table q') (pin_counts (bufferpool (table q'))))
      as (p' & Hrun' & _).
    rewrite with_pins_id in Hrun'. rewrite Hrun'. cbn [fst]. f_equal.
    destruct b as [[[pr pi] ri] ty]. cbn in Hb. subst ty.
    rewrite latest_of_forward.
    assert (Hfw : forward (table q') (pr, pi, ri, base) = Some newest).
    { rewrite <- head_reverse in Hlast.
      destruct (reverse (t :: ts)) as [|x l]; [discriminate|].
      cbn in Hlast. injection Hlast as ->. exact (proj1 Hl). }
    rewrite Hfw. reflexivity. }
  split; [exact Hold|].
  intros H2 Heq. subst newest.
  destruct ts as [|t' ts]; [rewrite <- Hts in H2; cbn in H2; lia|].
  apply NoDup_cons in Hnd as [_ Hnd]. apply NoDup_cons in Hnd as [Ht _].
  apply Ht. change (t :: t' :: ts) with ([t] ++ t' :: ts) in Hlast.
  rewrite last_app in Hlast. destruct (last (t' :: ts)) as [x|] eqn:Hx.
  - injection Hlast as ->. apply last_Some_elem_of in Hx. exact Hx.
  - apply last_None in Hx. discriminate.
Qed.

End Chain_theorems.

Section Stuck_reads.
Context {env : Env}.
Variable find_record : Z -> RID -> list Z -> TM Record_.

Lemma find_app_found {A} (P : A -> bool) (d l : list A) (x : A) :
  List.find P d = Some x -> List.find P (d ++ l) = Some x.
Proof.
  induction d as [|a d IH]; [discriminate|]. cbn [List.find app].
  destruct (P a); [auto | exact IH].
Qed.

Lemma update_all_keeps_found k x us : forall q q',
  aligned (table q) ->
  find_tail_record (page_directory (table q)) k = Some x ->
  update_all k us q = Some q' ->
  find_tail_record (page_directory (table q')) k = Some x /\
  index (table q') = index (table q) /\ key (table q') = key (table q).
Proof.
  induction us as [|[now cols] us IH]; intros q q' Ha Hfind Hrun.
  - injection Hrun as <-. repeat split. exact Hfind.
  - cbn [update_all] in Hrun.
    destruct (decide (update_new_key (table q) k cols = k)) as [Hsame|]; [|discriminate].
    destruct (update now k cols q) as [[[|]|e] q1] eqn:Hup; try discriminate.
    apply update_Ok in Hup as ([[[pr pi] ri] ty] & rest0 & lm & Hloc0 & Htry).
    pose proof Htry as Htry0.
    apply update_try_Ok in Htry0
      as (_ & _ & _ & tail_page_idx0 & _ & _ & _
          & _ & _ & _ & _ & _ & _ & _ & _ & Hix & _ & Hkey & _).
    apply update_try_aligned in Htry
      as (Ha1 & tail_page_idx & _ & _ & _ & _ & _ & Hnew & Hdir);
      [|apply aligned_set_lock_manager, Ha].
    cbn zeta in *.
    change (update_new_key (set_lock_manager lm (table q))) with (update_new_key (table q))
      in *.
    table_simpl. rewrite Hsame in Hix, Hdir.
    rewrite decide_False in Hix by (intros Hne; apply Hne; reflexivity).
    rewrite decide_False in Hdir by (intros Hne; apply Hne; reflexivity).
    rewrite dict_set_fresh in Hdir by exact Hnew.
    destruct (IH q1 q' Ha1) as (Hfind' & Hix' & Hkey'); [|exact Hrun|].
    + rewrite Hdir. apply find_app_found, Hfind.
    + split; [exact Hfind'|]. split; [rewrite Hix'; exact Hix | rewrite Hkey'; exact Hkey].
Qed.

(** X24: on an aligned table, once a key without tail record has been
    updated (the key kept), the tail record of that update stays the first
    tail record of the key in the page directory whatever successful updates
    of the key that keep the key follow.  After them [select_version] with
    relative version 0, and [select] outside a transaction, still return the
    image written by that first update, not the latest one. *)
Theorem reads_stuck_at_first_update (now : string) (cols : list (option Z)) (k : Z)
    (us : list (string * list (option Z))) (q q1 q' : Query) (b : RID) (rest : list RID) :
  aligned (table q) ->
  locate (index (table q)) (key (table q)) k = b :: rest ->
  find_tail_record (page_directory (table q)) k = None ->
  update_new_key (table q) k cols = k ->
  update now k cols q = (Ok true, q1) ->
  update_all k us q1 = Some q' ->
  exists t1,
    t1.2 = tail /\
    find_tail_record (page_directory (table q')) k
    = Some (t1, mkRecord (IRid t1) k (tail_row (table q) b cols)) /\
    (forall projection values,
       project_record (tail_row (table q) b cols) 0 projection = Ok values ->
       (select_version k (key (table q)) projection 0 q').1
       = Ok [mkRecord (IRid t1) k values] /\
       (transaction q' = None ->
        (select find_record k (key (table q)) projection q').1
        = Ok (replicate (length (b :: rest)) (mkRecord (IRid t1) k values)))).
Proof.
  intros Ha Hloc Hnone Hsame Hup Hall.
  apply update_Ok in Hup as (b0 & rest0 & lm & Hloc0 & Htry).
  rewrite Hloc in Hloc0. injection Hloc0 as <- <-.
  destruct b as [[[pr pi] ri] ty].
  pose proof Htry as Htry0.
  apply update_try_Ok in Htry0
    as (_ & _ & _ & tail_page_idx0 & _ & _ & _
        & _ & _ & _ & _ & _ & _ & _ & _ & Hix & _ & Hkey & _).
  apply update_try_aligned in Htry
    as (Ha1 & tail_page_idx & _ & _ & _ & _ & _ & Hnew & Hdir);
    [|apply aligned_set_lock_manager, Ha].
  cbn zeta in *.
  change (update_new_key (set_lock_manager lm (table q))) with (update_new_key (table q)) in *.
  change (tail_row (set_lock_manager lm (table q))) with (tail_row (table q)) in *.
  change (page_data_of (set_lock_manager lm (table q))) with (page_data_of (table q)) in *.
  table_simpl. rewrite Hsame in Hix, Hdir.
  rewrite decide_False in Hix by (intros Hne; apply Hne; reflexivity).
  rewrite decide_False in Hdir by (intros Hne; apply Hne; reflexivity).
  set (t1 := (pr, tail_page_idx,
              length (d_rid (page_data_of (table q) (tail, pr, tail_page_idx))),
              tail) : RID) in *.
  set (first := mkRecord (IRid t1) k (tail_row (table q) (pr, pi, ri, ty) cols)) in *.
  assert (Hfind1 : find_tail_record (page_directory (table q1)) k = Some (t1, first)).
  { rewrite Hdir. apply find_dict_set_fresh; [exact Hnone|].
    cbn. rewrite !bool_decide_eq_true_2 by reflexivity. reflexivity. }
  destruct (update_all_keeps_found k (t1, first) us q1 q' Ha1 Hfind1 Hall)
    as (Hfind' & Hix' & Hkey').
  assert (Hloc' : locate (index (table q')) (key (table q)) k = (pr, pi, ri, ty) :: rest)
    by (rewrite Hix', Hix; exact Hloc).
  exists t1. split; [reflexivity|]. split; [exact Hfind'|].
  intros projection values Hproj. split.
  - eapply select_version_0_directory; [exact Hloc' | exact Hfind' | exact Hproj].
  - intros Htx. destruct q' as [tb' tx']. cbn [table transaction] in *. subst tx'.
    unfold select, bind, get. cbn [table]. rewrite Hloc'. lazy beta iota.
    match goal with
    | |- context [select_loop _ _ _ ?rids ?res _] =>
        destruct (select_loop_tail_record find_record k projection tb' t1 first
                    rids res (pin_counts (bufferpool tb')) Hfind') as (p' & Hrun & _)
    end.
    rewrite with_pins_id in Hrun. rewrite Hrun. cbn [fst app].
    unfold first. cbn [rec_columns]. rewrite Hproj. reflexivity.
Qed.

End Stuck_reads.

Section Version_argument.
Context {env : Env}.

(** X25: when the page directory holds a record under the base RID of
    the key (the first located RID of type base, else the first located
    RID), [select_version] with relative version -1 returns exactly that
    record, with all its columns, whatever the projection asks for, and
    changes nothing. *)
Theorem select_version_base_record_whole (search_key : Z) (search_key_index : nat)
    (q : Query) (base_rid : RID) (record : Record_) :
  head (filter (fun r : RID => r.2 = base)
               (locate (index (table q)) search_key_index search_key)
        ++ locate (index (table q)) search_key_index search_key) = Some base_rid ->
  dict_get (page_directory (table q)) base_rid = Some record ->
  forall projection,
    select_version search_key search_key_index projection (-1) q = (Ok [record], q).
Proof.
  intros Hhead Hrec projection. unfold select_version, lift, bind, get.
  destruct (locate (index (table q)) search_key_index search_key) as [|r0 rids] eqn:Hloc.
  { discriminate. }
  assert (Hbase : match filter (fun r : RID => r.2 = base) (r0 :: rids) with
                  | [] => r0
                  | b :: _ => b
                  end = base_rid).
  { destruct (filter _ (r0 :: rids)); cbn in Hhead; congruence. }
  rewrite Hbase. unfold try_except, select_version_try, bind, get.
  rewrite decide_True by reflexivity. rewrite Hrec. destruct q; reflexivity.
Qed.

(** X26: a relative version of 2 or more is not refused:
    [select_version] treats it as the negative version of the same size. *)
Theorem select_version_positive (search_key : Z) (search_key_index : nat)
    (projection : list Z) (relative_version : Z) (q : Query) :
  2 <= relative_version ->
  select_version search_key search_key_index projection relative_version q
  = select_version search_key search_key_index projection (- relative_version) q.
Proof.
  intros Hv. unfold select_version, select_version_try.
  destruct (decide (relative_version = -1)); [lia|].
  destruct (decide (relative_version = 0)); [lia|].
  destruct (decide (- relative_version = -1)); [lia|].
  destruct (decide (- relative_version = 0)); [lia|].
  replace (Z.abs_nat (- relative_version)) with (Z.abs_nat relative_version)
    by (rewrite !Zabs2Nat.abs_nat_spec, Z.abs_opp; reflexivity).
  reflexivity.
Qed.

End Version_argument.

Section Lock_refusal.
Context {env : Env}.
Variable find_record : Z -> RID -> list Z -> TM Record_.

(** X27: inside a transaction, when the lock manager refuses the key,
    [update] and [delete] return [False], [insert] of a row with that key
    returns [False] and [select] returns [[]]; none of them raises, and
    nothing of the table but the state of the lock manager changes. *)
Theorem lock_refusal_aborts (k : Z) (q : Query) (tx : Transaction) :
  transaction q = Some tx ->
  (forall mode,
     (acquire_lock (lock_manager (table q)) (transaction_id tx) k mode).1 = false) ->
  (forall now cols,
     exists lm, update now k cols q
                = (Ok false, mkQuery (set_lock_manager lm (table q)) (Some tx))) /\
  (exists lm, delete k q = (Ok false, mkQuery (set_lock_manager lm (table q)) (Some tx))) /\
  (forall now cols,
     cols !! key (table q) = Some k ->
     exists lm, insert now cols q
                = (Ok false, mkQuery (set_lock_manager lm (table q)) (Some tx))) /\
  (forall search_key_index projection,
     exists lm, select find_record k search_key_index projection q
                = (Ok [], mkQuery (set_lock_manager lm (table q)) (Some tx))).
Proof.
  intros Htx Hrefused.
  assert (Hq : q = mkQuery (set_lock_manager (lock_manager (table q)) (table q)) (Some tx)).
  { destruct q as [tb tx0]. cbn in *. subst tx0. destruct tb. reflexivity. }
  assert (Hguard : forall mode,
            exists lm, lock_guard k mode q
                       = (false, mkQuery (set_lock_manager lm (table q)) (Some tx))).
  { intros mode. unfold lock_guard. rewrite Htx. specialize (Hrefused mode).
    destruct (acquire_lock _ _ _ _) as [ok lm]. cbn in Hrefused. subst ok.
    exists lm. reflexivity. }
  split; [|split; [|split]].
  - intros now cols. unfold update.
    destruct (locate (index (table q)) (key (table q)) k);
      [exists (lock_manager (table q)); rewrite <- Hq; reflexivity|].
    destruct (Hguard LUpdate) as (lm & ->). exists lm. reflexivity.
  - unfold delete.
    destruct (locate (index (table q)) (key (table q)) k);
      [exists (lock_manager (table q)); rewrite <- Hq; reflexivity|].
    destruct (Hguard LDelete) as (lm & ->). exists lm. reflexivity.
  - intros now cols Hk. unfold insert. rewrite Hk.
    destruct (Hguard LInsert) as (lm & ->). exists lm. reflexivity.
  - intros search_key_index projection. unfold select, bind, get.
    destruct (locate (index (table q)) search_key_index k);
      [exists (lock_manager (table q)); rewrite <- Hq; reflexivity|].
    cbn [select_loop]. unfold bind, select_step.
    destruct (Hguard LRead) as (lm & ->). exists lm. reflexivity.
Qed.

End Lock_refusal.

(** ** Keys filed under a tail RID *)

(** A key change files the new tail RID under the new key (the last line
    of the key-change branch of [update]).  [update], [delete] and
    [_get_latest_version] then take that RID for a base RID: they read and
    write the base page at its position and never look at its type, which
    [_safely_get_latest_version] and [_get_column_value] do. *)

(** C1: the claim fails on B2.  The record filed under key 2 was inserted
    at base slot 1, and before the update its latest version is the tail
    record [(0, 0, 0, tail)]: base slot 1 points at it and it points back at
    the base RID.  [update(2, None, None)] returns [True] and appends the
    tail record [(0, 0, 2, tail)], but its indirection entry is
    [(0, 0, 1, tail)], the version of key 7 that [_get_latest_version] read
    from base slot 0; base slot 1 keeps its old pointer; and base slot 0,
    the slot of key 7, receives the new tail RID, after which [sum(7, 7, 1)]
    is 0 instead of 99. *)
Theorem B2_update_links_other_record :
  locate (index (table B0)) 0 1 = [(0, 0, 1, base)%nat] /\
  locate (index (table B2)) 0 2 = [(0, 0, 0, tail)%nat] /\
  locate (index (table B2)) 0 7 = [(0, 0, 0, base)%nat] /\
  forward (table B2) (0, 0, 1, base)%nat = Some (0, 0, 0, tail)%nat /\
  forward (table B2) (0, 0, 0, tail)%nat = Some (0, 0, 1, base)%nat /\
  forward (table B2) (0, 0, 0, base)%nat = Some (0, 0, 1, tail)%nat /\
  (_get_latest_version (0, 0, 0, tail)%nat (table B2)).1 = Ok (0, 0, 1, tail)%nat /\
  (update "t4" 2 [None; None] B2).1 = Ok true /\
  d_rid (page_data_of (table B3) (tail, 0, 0)%nat) !! 2%nat = Some (0, 0, 2, tail)%nat /\
  forward (table B3) (0, 0, 2, tail)%nat = Some (0, 0, 1, tail)%nat /\
  forward (table B3) (0, 0, 1, base)%nat = Some (0, 0, 0, tail)%nat /\
  forward (table B3) (0, 0, 0, base)%nat = Some (0, 0, 2, tail)%nat /\
  (sum 7 7 1 B2).1 = Ok (SumInt 99) /\
  (sum 7 7 1 B3).1 = Ok (SumInt 0).
Proof. vm_compute. repeat split. Qed.

(** C5: the claim fails on A2.  Key 1 was inserted at base slot 0 and key
    7 at base slot 1; after two key changes the first record is filed under
    key 3 at the tail RID [(0, 0, 1, tail)].  [delete(3)] returns [True] and
    writes the tombstone into slot 1 of the base page object, the slot of key
    7; slot 0, the slot of the record it deletes, is left as it was, and the
    buffer pool keeps that slot's pointer to the tail record.  On K3, where
    base page 0 has the one slot, the same call returns [True] without any
    tombstone and leaves key 3 in the index. *)
Theorem A2_delete_tombstones_other_record :
  locate (index (table A0)) 0 1 = [(0, 0, 0, base)%nat] /\
  locate (index (table A0)) 0 7 = [(0, 0, 1, base)%nat] /\
  locate (index (table A2)) 0 3 = [(0, 0, 1, tail)%nat] /\
  locate (index (table A2)) 0 7 = [(0, 0, 1, base)%nat] /\
  (delete 3 A2).1 = Ok true /\
  (indirection <$> base_page_at (table A2) (0, 0, 0, base)%nat) = Some [INone; INone] /\
  (indirection <$> base_page_at (table (exec (delete 3) A2)) (0, 0, 0, base)%nat)
    = Some [INone; IEmpty] /\
  forward (table (exec (delete 3) A2)) (0, 0, 0, base)%nat = Some (0, 0, 1, tail)%nat /\
  (delete 3 K3).1 = Ok true /\
  locate (index (table (exec (delete 3) K3))) 0 3 = [(0, 0, 1, tail)%nat] /\
  (indirection <$> base_page_at (table (exec (delete 3) K3)) (0, 0, 0, base)%nat)
    = Some [INone].
Proof. vm_compute. repeat split. Qed.

(** C6: the claim fails on B2.  The range lookup over [1, 2] locates one
    record, filed under key 2 at the tail RID [(0, 0, 0, tail)], which is its
    latest version (its base slot 1 points at it, it points back); that
    version holds 1 in the key column, which lies in the range, and 10 in
    column 1, so the claim gives 10.  [sum(1, 2, 1)] returns 0:
    [_get_latest_version] resolves the tail RID through base slot 0 to the
    version of key 7, whose key is out of range. *)
Theorem B2_sum_misses_record :
  locate_range (index (table B2)) 1 2 0 = [(0, 0, 0, tail)%nat] /\
  forward (table B2) (0, 0, 1, base)%nat = Some (0, 0, 0, tail)%nat /\
  forward (table B2) (0, 0, 0, tail)%nat = Some (0, 0, 1, base)%nat /\
  stored_value (table B2) (0, 0, 0, tail)%nat 0 = Some 1 /\
  stored_value (table B2) (0, 0, 0, tail)%nat 1 = Some 10 /\
  (_get_latest_version (0, 0, 0, tail)%nat (table B2)).1 = Ok (0, 0, 1, tail)%nat /\
  stored_value (table B2) (0, 0, 1, tail)%nat 0 = Some 7 /\
  (sum 1 2 1 B2).1 = Ok (SumInt 0).
Proof. vm_compute. repeat split. Qed.

(** ** Keys filed under a base RID *)

Section Base_located.
Context {env : Env}.

(** C4 (amended): for a key filed under a base RID [b] whose latest
    version (the version the record's base slot points at, [b] itself when
    the slot holds no pointer) has a record under this key in the page
    directory, every successful [update] appends a complete row to the tail
    page: each of the [num_columns] columns receives one value, which is the
    original key of the base record for the key column (whatever value the
    caller supplied for it), the supplied value for another column that is
    not null, and otherwise the value of that column in the prior latest
    image, the columns of that record (0 when it has no such column). *)
Theorem update_tail_row (now : string) (primary_key : Z) (cols : list (option Z))
    (q q' : Query) (b : RID) (rest : list RID) (latest_record : Record_) :
  locate (index (table q)) (key (table q)) primary_key = b :: rest ->
  b.2 = base ->
  dict_get (page_directory (table q)) (default b (forward (table q) b))
  = Some latest_record ->
  rec_key latest_record = primary_key ->
  update now primary_key cols q = (Ok true, q') ->
  exists base_record original_key tail_page_idx new_tail,
    let old_tail := page_data_of (table q) (tail, b.1.1.1, tail_page_idx) in
    dict_get (page_directory (table q)) b = Some base_record /\
    rec_columns base_record !! key (table q) = Some original_key /\
    frames (bufferpool (table q')) !! (tail, b.1.1.1, tail_page_idx) = Some new_tail /\
    length (columns new_tail) = length (columns old_tail) /\
    (num_columns (table q) <= length (columns new_tail))%nat /\
    forall c, (c < num_columns (table q))%nat ->
      exists col,
        columns old_tail !! c = Some col /\
        columns new_tail !! c
        = Some (col ++ [if decide (c = key (table q)) then original_key
                        else match cols !! c with
                             | Some (Some v) => v
                             | _ => default 0 (rec_columns latest_record !! c)
                             end]).
Proof.
  intros Hloc Hbase Hlatest _ Hrun.
  destruct (update_tail_row_located now primary_key cols q q' Hrun)
    as (b0 & rest0 & base_record & original_key & tail_page_idx & new_tail
        & Hloc0 & Hrec & Hkey & Hframe & Hlen & Hnum & Hrow).
  cbn zeta in *. rewrite Hloc in Hloc0. injection Hloc0 as <- <-.
  destruct b as [[[pr pi] ri] ty]. cbn [snd] in Hbase. subst ty.
  rewrite latest_of_forward in Hrow. unfold RID in Hlatest, Hrow.
  rewrite Hlatest in Hrow. cbn [default from_option] in Hrow.
  exists base_record, original_key, tail_page_idx, new_tail.
  split; [exact Hrec|]. split; [exact Hkey|]. split; [exact Hframe|].
  split; [exact Hlen|]. split; [exact Hnum | exact Hrow].
Qed.

(** X16: a successful [update] that changes the primary key of a record
    filed under a base RID [b], on a table with an index on the key column,
    files the new tail RID under the new key and takes from the old key's
    entry just the RID the record's base slot pointed at, [b] itself when the
    slot held no pointer.  So the key change of a record whose slot holds no
    pointer removes its base RID from the index, and the key change of a
    record whose slot points at a version leaves the base RID filed under the
    old key. *)
Theorem update_key_change_index (now : string) (primary_key : Z) (cols : list (option Z))
    (q q' : Query) (b : RID) (rest : list RID) :
  locate (index (table q)) (key (table q)) primary_key = b :: rest ->
  b.2 = base ->
  update now primary_key cols q = (Ok true, q') ->
  update_new_key (table q) primary_key cols <> primary_key ->
  is_Some (indices (index (table q)) !! key (table q)) ->
  exists tail_rid,
    let pointed := default b (forward (table q) b) in
    let new_key := update_new_key (table q) primary_key cols in
    tail_rid.2 = tail /\
    tail_rid ∈ locate (index (table q')) (key (table q)) new_key /\
    locate (index (table q')) (key (table q)) primary_key
    = filter (fun r => r <> pointed) (b :: rest) /\
    (pointed = b -> b ∉ locate (index (table q')) (key (table q)) primary_key) /\
    (pointed <> b -> head (locate (index (table q')) (key (table q)) primary_key) = Some b).
Proof.
  intros Hloc Hbase Hrun Hnew Hidx.
  destruct (update_key_change_index_located now primary_key cols q q' Hrun Hnew Hidx)
    as (b0 & rest0 & tail_rid & Hloc0 & Htail & Hfiled & Hold & Hstays & Hgone).
  cbn zeta in *. rewrite Hloc in Hloc0. injection Hloc0 as <- <-.
  destruct b as [[[pr pi] ri] ty]. cbn [snd] in Hbase. subst ty.
  rewrite latest_of_forward in Hold, Hstays, Hgone.
  exists tail_rid. split; [exact Htail|]. split; [exact Hfiled|]. split; [exact Hold|].
  split; [exact Hgone | exact Hstays].
Qed.

End Base_located.

(** ** The properties on the scenarios *)

Lemma aligned_create_table (table_name : string) (n key_index : nat) :
  aligned (create_table table_name n key_index).
Proof.
  split.
  - intros i j. unfold page_data_of. cbn [create_table bufferpool frames num_columns].
    rewrite lookup_empty. cbn. rewrite length_replicate.
    split; [reflexivity|]. split; [reflexivity|]. apply Forall_replicate. reflexivity.
  - intros i j s [x Hx]. discriminate.
Qed.

Lemma S1_aligned : aligned (table S1).
Proof.
  apply (aligned_insert "t0" [100; 11; 12] T3 (Ok true) S1).
  - apply aligned_create_table.
  - vm_compute. reflexivity.
Qed.

Lemma create_table_get_table_witness :
  Database_get_table "T" Database_init = inl (TableMissing "T") /\
  Database_get_table "T" (mkDatabase [create_table "T" 3 0]) = inr (create_table "T" 3 0) /\
  (forall n' key_index',
     Database_create_table "T" n' key_index' (mkDatabase [create_table "T" 3 0])
     = inl (TableExists "T")).
Proof.
  pose proof (create_table_get_table "T" 3 0 Database_init
                (mkDatabase [create_table "T" 3 0]) (create_table "T" 3 0)
                ltac:(vm_compute; reflexivity)) as H.
  split; [exact (proj1 H)|]. split; [exact (proj1 (proj2 H))|].
  exact (proj2 (proj2 (proj2 (proj2 (proj2 (proj2 (proj2 (proj2 (proj2 (proj2
           (proj2 (proj2 H)))))))))))).
Defined.

Lemma drop_table_removes_witness :
  Database_get_table "T" (db_calls [DropTable "T"] DB2) = inl (TableMissing "T") /\
  Database_drop_table "T" (db_calls [DropTable "T"] DB2) = inl (TableMissing "T") /\
  Database_get_table "U" (db_calls [DropTable "T"] DB2) = Database_get_table "U" DB2.
Proof.
  pose proof (drop_table_removes "T" DB2 (db_calls [DropTable "T"] DB2)
                (set_index (mkIndex ∅) (create_table "T" 3 0))
                ltac:(apply (bool_decide_unpack _); vm_compute; exact I)
                ltac:(vm_compute; reflexivity)) as H.
  split; [exact (proj1 (proj2 H))|]. split; [exact (proj1 (proj2 (proj2 H)))|].
  apply (proj1 (proj2 (proj2 (proj2 H)))). discriminate.
Defined.

Lemma select_first_tail_record_witness :
  (select find_record_by_columns 100 0 [1; 1; 1] S3).1
  = Ok [mkRecord (IRid (0, 0, 0, tail)%nat) 100 [100; 22; 12]].
Proof.
  destruct (select_first_tail_record find_record_by_columns 100 0 [1; 1; 1] S3
              (0, 0, 0, tail)%nat (mkRecord (IRid (0, 0, 0, tail)%nat) 100 [100; 22; 12])
              ltac:(vm_compute; reflexivity) ltac:(vm_compute; reflexivity))
    as (p' & Hrun & _).
  rewrite Hrun. vm_compute. reflexivity.
Defined.

Lemma increment_first_tail_record_witness :
  exists p',
    increment find_record_by_columns "t4" 100 1 S3
    = update "t4" 100 [None; Some 23; None] (mkQuery (with_pins p' (table S3)) None).
Proof.
  destruct (increment_first_tail_record find_record_by_columns "t4" 100 1 S3
              (0, 0, 0, base)%nat [] (0, 0, 0, tail)%nat
              (mkRecord (IRid (0, 0, 0, tail)%nat) 100 [100; 22; 12])
              ltac:(vm_compute; reflexivity) ltac:(vm_compute; reflexivity)
              ltac:(vm_compute; reflexivity) ltac:(vm_compute; lia))
    as (p' & _ & Hlt & _).
  destruct (Hlt ltac:(vm_compute; lia)) as (v & Hv & Hrun).
  injection Hv as <-. exists p'. exact Hrun.
Defined.

Lemma sum_version_base_is_sum_witness :
  exists total,
    (sum_version 1 5 1 (-1) S5).1 = Ok total /\ (sum 1 5 1 S5).1 = Ok (SumInt total).
Proof.
  destruct (sum_version_base_is_sum 1 5 1 S5) as (total & Hversion & Hsum).
  - apply Forall_forall. apply (bool_decide_unpack _). vm_compute. exact I.
  - exists total. split; [exact Hversion|]. etransitivity; [exact Hsum|].
    vm_compute. reflexivity.
Defined.

Lemma update_counts_towards_merge_witness :
  merge_counter (table S2) = 1 /\ merge_scheduled (table S2) = false.
Proof.
  pose proof (update_counts_towards_merge "t1" 100 [None; Some 22; None] S1 S2
                ltac:(vm_compute; reflexivity)) as [Hcounter Hscheduled].
  split; [rewrite Hcounter | rewrite Hscheduled]; vm_compute; reflexivity.
Defined.

Lemma insert_then_lookup_witness :
  exists r,
    locate (index (table S1)) 0 100 = [r] /\
    (forall projection,
       (select_version 100 0 projection (-1) S1).1 = Ok [mkRecord (IRid r) 100 [100; 11; 12]]) /\
    (forall now' v1 v2, (insert now' [100; v1; v2] S1).1 = Ok false).
Proof.
  destruct (insert_then_lookup "t0" [100; 11; 12] T3 S1
              ltac:(apply (bool_decide_unpack _); vm_compute; exact I)
              ltac:(vm_compute; reflexivity))
    as (k & r & Hk & _ & _ & Hlocate & _ & Hselect & Hagain).
  vm_compute in Hk. injection Hk as <-.
  exists r. split; [exact Hlocate|]. split; [exact Hselect|].
  intros now' v1 v2. apply Hagain. reflexivity.
Defined.

Lemma delete_failure_changes_nothing_witness :
  (delete 100 S6_tx2).1 = Ok false /\
  exists lm, table (exec (delete 100) S6_tx2) = set_lock_manager lm (table S6_tx2).
Proof.
  split; [vm_compute; reflexivity|].
  exact (delete_failure_changes_nothing 100 S6_tx2 (exec (delete 100) S6_tx2)
           ltac:(vm_compute; reflexivity)).
Defined.

Lemma delete_then_queries_witness :
  let q' := exec (delete 100) S1 in
  delete 100 q' = (Ok false, q') /\
  (forall now cols, update now 100 cols q' = (Ok false, q')) /\
  (forall projection relative_version,
     (select_version 100 0 projection relative_version q').1 = Ok []) /\
  (forall aggregate_column_index, (sum 100 100 aggregate_column_index q').1 = Ok SumFalse).
Proof.
  intros q'. subst q'.
  assert (H : exists base_page,
             base_page_at (table S1) (0, 0, 0, base)%nat = Some base_page /\
             (0 < length (indirection base_page))%nat).
  { eexists. split; [vm_compute; reflexivity | vm_compute; lia]. }
  destruct H as (base_page & Hpage & Hslot).
  destruct (delete_then_queries 100 S1 (exec (delete 100) S1) (0, 0, 0, base)%nat base_page
              ltac:(vm_compute; reflexivity) ltac:(vm_compute; reflexivity) Hpage Hslot)
    as (_ & Hdelete & Hupdate & Hselect & Hsum & _).
  split; [exact Hdelete|]. split; [exact Hupdate|]. split; [exact Hselect | exact Hsum].
Defined.

Lemma tail_pages_stay_aligned_witness : aligned (table S1) /\ aligned (table S2).
Proof.
  split; [exact S1_aligned|].
  exact (proj1 (tail_pages_stay_aligned S1 S1_aligned) "t1"%string 100
           [None; Some 22; None] (Ok true) S2 ltac:(vm_compute; reflexivity)).
Defined.

Lemma update_then_sum_witness : (sum 100 100 1 S2).1 = Ok (SumInt 22).
Proof.
  refine (proj2 (update_then_sum "t1" 100 [None; Some 22; None] S1 S2
                   (0, 0, 0, base)%nat [] 1 S1_aligned _ _ _ _ _ _) 22 _ _).
  - vm_compute. reflexivity.
  - vm_compute. reflexivity.
  - vm_compute. reflexivity.
  - vm_compute. lia.
  - vm_compute. lia.
  - vm_compute. reflexivity.
  - vm_compute. intros H. discriminate H.
  - reflexivity.
Defined.

Lemma latest_helpers_disagree_witness :
  exists oldest newest,
    (_get_latest_version (0, 0, 0, base)%nat (table S3)).1 = Ok newest /\
    (_safely_get_latest_version (0, 0, 0, base)%nat (table S3)).1 = Ok oldest /\
    oldest <> newest.
Proof.
  destruct (latest_helpers_disagree 100 S3_updates S1 S3 (0, 0, 0, base)%nat []
              S1_aligned ltac:(vm_compute; reflexivity) eq_refl
              ltac:(vm_compute; reflexivity) ltac:(discriminate)
              ltac:(cbn; lia) ltac:(vm_compute; reflexivity))
    as (oldest & newest & ts & _ & _ & _ & _ & _ & Hnewest & Holdest & Hdiffer).
  exists oldest, newest. split; [exact Hnewest|]. split; [exact Holdest|].
  apply Hdiffer. cbn. lia.
Defined.

Lemma reads_stuck_at_first_update_witness :
  exists t1,
    (select_version 100 0 [1; 1; 1] 0 S3).1 = Ok [mkRecord (IRid t1) 100 [100; 22; 12]] /\
    (select find_record_by_columns 100 0 [1; 1; 1] S3).1
    = Ok [mkRecord (IRid t1) 100 [100; 22; 12]].
Proof.
  destruct (reads_stuck_at_first_update find_record_by_columns "t1" [None; Some 22; None] 100
              (tl S3_updates) S1 S2 S3 (0, 0, 0, base)%nat []
              S1_aligned ltac:(vm_compute; reflexivity) ltac:(vm_compute; reflexivity)
              ltac:(vm_compute; reflexivity) ltac:(vm_compute; reflexivity)
              ltac:(vm_compute; reflexivity))
    as (t1 & _ & _ & Hreads).
  destruct (Hreads [1; 1; 1] [100; 22; 12] ltac:(vm_compute; reflexivity))
    as [Hversion Hselect].
  exists t1. split; [exact Hversion|]. apply Hselect. vm_compute. reflexivity.
Defined.

Lemma select_version_base_record_whole_witness :
  select_version 100 0 [0; 1; 0] (-1) S3
  = (Ok [mkRecord (IRid (0, 0, 0, base)%nat) 100 [100; 11; 12]], S3).
Proof.
  exact (select_version_base_record_whole 100 0 S3 (0, 0, 0, base)%nat
           (mkRecord (IRid (0, 0, 0, base)%nat) 100 [100; 11; 12])
           ltac:(vm_compute; reflexivity) ltac:(vm_compute; reflexivity) [0; 1; 0]).
Defined.

Lemma select_version_positive_witness :
  select_version 5 0 [1; 1] 2 H3 = select_version 5 0 [1; 1] (-2) H3.
Proof.
  exact (select_version_positive 5 0 [1; 1] 2 H3 ltac:(lia)).
Defined.

Lemma lock_refusal_aborts_witness :
  (update "t2" 100 [None; Some 33; None] S6_tx2).1 = Ok false /\
  (delete 100 S6_tx2).1 = Ok false /\
  (insert "t2" [100; 0; 0] S6_tx2).1 = Ok false /\
  (select find_record_by_columns 100 0 [1; 1; 1] S6_tx2).1 = Ok [].
Proof.
  destruct (lock_refusal_aborts find_record_by_columns 100 S6_tx2 (mkTransaction 2 [])
              eq_refl ltac:(intros mode; destruct mode; vm_compute; reflexivity))
    as (Hupdate & Hdelete & Hinsert & Hselect).
  split; [destruct (Hupdate "t2"%string [None; Some 33; None]) as (lm & ->); reflexivity|].
  split; [destruct Hdelete as (lm & ->); reflexivity|].
  split; [destruct (Hinsert "t2"%string [100; 0; 0] ltac:(vm_compute; reflexivity))
            as (lm & ->); reflexivity|].
  destruct (Hselect 0%nat [1; 1; 1]) as (lm & ->). reflexivity.
Defined.

(** The third update of key 100 in S2 supplies 7 for the key column,
    nothing for column 1 and 5 for column 2: the row keeps the key 100,
    inherits 22 from the image of the version before it (the base image has
    11) and takes the 5. *)
Lemma update_tail_row_witness :
  let q := S2 in
  let q' := exec (update "t2" 100 [Some 7; None; Some 5]) S2 in
  let b : RID := (0, 0, 0, base)%nat in
  let latest_record := mkRecord (IRid (0, 0, 0, tail)%nat) 100 [100; 22; 12] in
  (locate (index (table q)) (key (table q)) 100 = [b] /\
   dict_get (page_directory (table q)) (default b (forward (table q) b))
   = Some latest_record) /\
  exists base_record original_key tail_page_idx new_tail,
    let old_tail := page_data_of (table q) (tail, b.1.1.1, tail_page_idx) in
    dict_get (page_directory (table q)) b = Some base_record /\
    rec_columns base_record !! key (table q) = Some original_key /\
    frames (bufferpool (table q')) !! (tail, b.1.1.1, tail_page_idx) = Some new_tail /\
    length (columns new_tail) = length (columns old_tail) /\
    (num_columns (table q) <= length (columns new_tail))%nat /\
    forall c, (c < num_columns (table q))%nat ->
      exists col,
        columns old_tail !! c = Some col /\
        columns new_tail !! c
        = Some (col ++ [if decide (c = key (table q)) then original_key
                        else match [Some 7; None; Some 5] !! c with
                             | Some (Some v) => v
                             | _ => default 0 (rec_columns latest_record !! c)
                             end]).
Proof.
  cbv zeta. split; [split; vm_compute; reflexivity|].
  exact (update_tail_row "t2" 100 [Some 7; None; Some 5] S2
           (exec (update "t2" 100 [Some 7; None; Some 5]) S2)
           (0, 0, 0, base)%nat [] (mkRecord (IRid (0, 0, 0, tail)%nat) 100 [100; 22; 12])
           ltac:(vm_compute; reflexivity) eq_refl ltac:(vm_compute; reflexivity)
           eq_refl ltac:(vm_compute; reflexivity)).
Defined.

(** The row of that update, as the buffer pool holds it. *)
Example update_tail_row_S2 :
  columns (page_data_of (table (exec (update "t2" 100 [Some 7; None; Some 5]) S2))
             (tail, 0, 0)%nat)
  = [[100; 100]; [22; 22]; [12; 5]].
Proof. vm_compute. reflexivity. Qed.

(** In K2u key 2 is filed under a tail RID whose slot lies beyond the
    base page: [update(2, None, 30)] fails at the base slot, after it has
    written its row to the tail page object. *)
Lemma update_failure_keeps_records_witness :
  (update "t3" 2 [None; Some 30] K2u).1 = Ok false /\
  page_directory (table (exec (update "t3" 2 [None; Some 30]) K2u))
  = page_directory (table K2u) /\
  index (table (exec (update "t3" 2 [None; Some 30]) K2u)) = index (table K2u) /\
  page_ranges (table (exec (update "t3" 2 [None; Some 30]) K2u)) <> page_ranges (table K2u).
Proof.
  split; [vm_compute; reflexivity|].
  pose proof (update_failure_keeps_records "t3" 2 [None; Some 30] K2u
                (exec (update "t3" 2 [None; Some 30]) K2u)
                ltac:(vm_compute; reflexivity)) as (Hdir & Hindex & _).
  split; [exact Hdir|]. split; [exact Hindex|].
  vm_compute. intros H. discriminate H.
Defined.

Lemma update_key_change_index_witness :
  exists tail_rid,
    tail_rid.2 = tail /\ tail_rid ∈ locate (index (table K2)) 0 2 /\
    locate (index (table K2)) 0 1 = [].
Proof.
  destruct (update_key_change_index "t1" 1 [Some 2; None] K1 K2 (0, 0, 0, base)%nat []
              ltac:(vm_compute; reflexivity) eq_refl
              ltac:(vm_compute; reflexivity)
              ltac:(vm_compute; intros H; discriminate H)
              ltac:(apply (bool_decide_unpack _); vm_compute; exact I))
    as (tail_rid & Htail & Hnew & Hold & _).
  exists tail_rid. split; [exact Htail|]. split; [exact Hnew|].
  etransitivity; [exact Hold|]. vm_compute. reflexivity.
Defined.
